(** * Sparse voxel octree collider (voxel-collider.ts, voxel-debug-overlay.ts)

    A shallow embedding of the collider of supersplat-viewer and of the
    block lookup of its WGSL debug overlay, with the properties the
    specification states about them; then of the camera controllers that
    call the collider and of further parts of the overlay, with properties
    read off the code.

    Modelling conventions.
    - Integer-valued JavaScript numbers (voxel indices, node words, tree
      levels, counts) are [Z]. The 32-bit operators [>>>], [<<], [&], [|]
      are written out with their conversions (ToUint32 / ToInt32) and the
      5-bit masking of the shift count.
    - Reading a typed array outside its bounds yields [undefined], which the
      operator [>>> 0] turns into 0; [read_u32] does both steps.
    - World coordinates, radii and push-out components are JavaScript
      doubles. They are kept abstract in the interface [Number]: every
      function of the embedding is generic in it, so a theorem that needs no
      law of arithmetic holds for IEEE doubles as well as for exact
      rationals. Laws are assumed only where a statement needs them
      ([OrderLaws], [ZeroLaws], [StrictLaws], [MinMaxLaws], [NumberOrder]).
      The shading helpers of the overlay, which compute in [f32], are
      generic in the same interface. Two executable instances are given:
      IEEE doubles ([Double.Number_double], the numbers of the program) and
      the rationals [Q], which satisfy the laws. Doubles satisfy
      [NumberOrder]; of [ZeroLaws] they satisfy [a - 0 = a], [a + 0 = a]
      for every [a] but the negative zero, and
      [Math.max(a, Math.min(a, b)) = a] for every [b] but NaN.
    - [Math.floor] of a coordinate is an integer index ([ffloor : F -> Z]);
      coordinates whose floor is not a finite integer are outside the model.
      The loops of the resolvers count with doubles: they are modelled by
      the list of integers between their bounds, which is what the counters
      step through while the bounds are safe integers (below 2^53 in
      absolute value, [safeFloor]); beyond, [ix++] no longer advances and
      the loops of the source do not end.
    - [Math.floor(ix / leafSize)] on integers is [Z.div]; for [leafSize = 0]
      the JavaScript quotient is infinite or NaN, which every later [>>>]
      reads as 0, the value [Z.div] gives. *)

From Stdlib Require Import ZArith List Bool Lia QArith Qabs Qround Qminmax Lqa.
From Stdlib Require Import Sorting.Permutation.
From Stdlib Require Strings.Byte.
From Stdlib Require Floats.PrimFloat Floats.FloatOps Floats.SpecFloat Floats.FloatAxioms.
From Stdlib Require Numbers.Cyclic.Int63.Uint63.
Import ListNotations.
Local Open Scope Z_scope.

(** ** JavaScript 32-bit integer operators *)

Module JS.

Definition ToUint32 (z : Z) : Z := z mod 2 ^ 32.

Definition ToInt32 (z : Z) : Z := (z + 2 ^ 31) mod 2 ^ 32 - 2 ^ 31.

(** [a >>> n] *)
Definition ushr (a n : Z) : Z := Z.shiftr (ToUint32 a) (n mod 32).

(** [a << n] *)
Definition shl (a n : Z) : Z := ToInt32 (Z.shiftl (ToInt32 a) (n mod 32)).

(** [a & b] *)
Definition band (a b : Z) : Z := Z.land (ToInt32 a) (ToInt32 b).

(** [a | b] *)
Definition bor (a b : Z) : Z := Z.lor (ToInt32 a) (ToInt32 b).

(** [arr[i]] on a typed array: [None] stands for [undefined]. *)
Definition typed_get (arr : list Z) (i : Z) : option Z :=
  if i <? 0 then None else nth_error arr (Z.to_nat i).

(** [arr[i] >>> 0] *)
Definition read_u32 (arr : list Z) (i : Z) : Z :=
  match typed_get arr i with
  | Some v => ushr v 0
  | None => 0
  end.

(** [TypedArray.prototype.slice(start, end)] for integer arguments. *)
Definition slice (arr : list Z) (start stop : Z) : list Z :=
  let len := Z.of_nat (length arr) in
  let k := if start <? 0 then Z.max (len + start) 0 else Z.min start len in
  let final := if stop <? 0 then Z.max (len + stop) 0 else Z.min stop len in
  let count := Z.max (final - k) 0 in
  firstn (Z.to_nat count) (skipn (Z.to_nat k) arr).

End JS.

Import JS.

(** ** Constants and [popcount] *)

Definition SOLID_LEAF_MARKER : Z := ushr 0xFF000000 0.

Definition popcount (n : Z) : Z :=
  let n := ushr n 0 in
  let n := n - band (ushr n 1) 0x55555555 in
  let n := band n 0x33333333 + band (ushr n 2) 0x33333333 in
  ushr (band (n + ushr n 4) 0x0F0F0F0F * 0x01010101) 24.

(** ** JavaScript doubles, abstractly *)

Class Number (F : Type) : Type := {
  fzero : F;
  fone : F;
  fhalf : F;                      (* 0.5 *)
  PENETRATION_EPSILON : F;        (* 1e-4 *)
  ftiny : F;                      (* 1e-12 *)
  fadd : F -> F -> F;
  fsub : F -> F -> F;
  fmul : F -> F -> F;
  fdiv : F -> F -> F;
  fneg : F -> F;
  fabs : F -> F;                  (* Math.abs *)
  fsqrt : F -> F;                 (* Math.sqrt *)
  fmax : F -> F -> F;             (* Math.max *)
  fmin : F -> F -> F;             (* Math.min *)
  fltb : F -> F -> bool;          (* a < b *)
  fleb : F -> F -> bool;          (* a <= b *)
  ffloor : F -> Z;                (* Math.floor *)
  fround : F -> Z;                (* Math.round *)
  fofZ : Z -> F                   (* an integer index used as a double *)
}.

Declare Scope num_scope.
Delimit Scope num_scope with num.
Infix "+" := fadd : num_scope.
Infix "-" := fsub : num_scope.
Infix "*" := fmul : num_scope.
Infix "/" := fdiv : num_scope.
Notation "- x" := (fneg x) : num_scope.
Infix "<?" := fltb : num_scope.
Infix "<=?" := fleb : num_scope.
Notation "a >? b" := (fltb b a) : num_scope.
Notation "a >=? b" := (fleb b a) : num_scope.

(** ** Data model *)

Record PushOut (F : Type) : Type := mkPushOut { x : F; y : F; z : F }.
Arguments mkPushOut {F}.
Arguments x {F}.
Arguments y {F}.
Arguments z {F}.

Record VoxelMetadata (F : Type) : Type := {
  gridBounds_min : F * F * F;
  gridBounds_max : F * F * F;
  md_voxelResolution : F;
  md_leafSize : Z;
  md_treeDepth : Z;
  nodeCount : Z;
  leafDataCount : Z
}.
Arguments gridBounds_min {F}.
Arguments gridBounds_max {F}.
Arguments md_voxelResolution {F}.
Arguments md_leafSize {F}.
Arguments md_treeDepth {F}.
Arguments nodeCount {F}.
Arguments leafDataCount {F}.

(** The three pre-allocated constraint normals. *)
Definition Normals (F : Type) : Type := (PushOut F * PushOut F * PushOut F)%type.

(** The object: the grid fields set by the constructor, and the two
    pre-allocated scratch fields the queries write. *)
Record VoxelCollider (F : Type) : Type := mkCollider {
  gridMinX : F;
  gridMinY : F;
  gridMinZ : F;
  numVoxelsX : Z;
  numVoxelsY : Z;
  numVoxelsZ : Z;
  voxelResolution : F;
  leafSize : Z;
  treeDepth : Z;
  nodes : list Z;
  leafData : list Z;
  _push : PushOut F;
  _constraintNormals : Normals F
}.
Arguments mkCollider {F}.
Arguments gridMinX {F}.
Arguments gridMinY {F}.
Arguments gridMinZ {F}.
Arguments numVoxelsX {F}.
Arguments numVoxelsY {F}.
Arguments numVoxelsZ {F}.
Arguments voxelResolution {F}.
Arguments leafSize {F}.
Arguments treeDepth {F}.
Arguments nodes {F}.
Arguments leafData {F}.
Arguments _push {F}.
Arguments _constraintNormals {F}.

Section Traversal.
Context {F : Type}.
Variable c : VoxelCollider F.

(** [checkLeafByIndex(node, ix, iy, iz)] *)
Definition checkLeafByIndex (node ix iy iz : Z) : bool :=
  let leafDataIndex := band node 0x00FFFFFF in
  let vx := band ix 3 in
  let vy := band iy 3 in
  let vz := band iz 3 in
  let bitIndex := vz * 16 + vy * 4 + vx in
  if bitIndex <? 32 then
    let lo := read_u32 (leafData c) (leafDataIndex * 2) in
    band (ushr lo bitIndex) 1 =? 1
  else
    let hi := read_u32 (leafData c) (leafDataIndex * 2 + 1) in
    band (ushr hi (bitIndex - 32)) 1 =? 1.

(** The loop [for (level = treeDepth - 1; level >= 0; level--)] of
    [isVoxelSolid], with the code after it: [n] iterations remain, the
    next one runs at [level = n - 1]. *)
Fixpoint descend (blockX blockY blockZ ix iy iz : Z) (n : nat) (nodeIndex : Z)
  : bool :=
  match n with
  | O =>
      let node := read_u32 (nodes c) nodeIndex in
      if node =? SOLID_LEAF_MARKER then true
      else checkLeafByIndex node ix iy iz
  | S n' =>
      let level := Z.of_nat n' in
      let node := read_u32 (nodes c) nodeIndex in
      if node =? SOLID_LEAF_MARKER then true
      else
        let childMask := band (ushr node 24) 0xFF in
        if childMask =? 0 then checkLeafByIndex node ix iy iz
        else
          let bitX := band (ushr blockX level) 1 in
          let bitY := band (ushr blockY level) 1 in
          let bitZ := band (ushr blockZ level) 1 in
          let octant := bor (bor (shl bitZ 2) (shl bitY 1)) bitX in
          if band childMask (shl 1 octant) =? 0 then false
          else
            let baseOffset := band node 0x00FFFFFF in
            let prefix := shl 1 octant - 1 in
            let childOffset := popcount (band childMask prefix) in
            descend blockX blockY blockZ ix iy iz n' (baseOffset + childOffset)
  end.

(** [isVoxelSolid(ix, iy, iz)] *)
Definition isVoxelSolid (ix iy iz : Z) : bool :=
  if (Z.of_nat (length (nodes c)) =? 0)
     || (ix <? 0) || (iy <? 0) || (iz <? 0)
     || (ix >=? numVoxelsX c) || (iy >=? numVoxelsY c) || (iz >=? numVoxelsZ c)
  then false
  else
    let blockX := ix / leafSize c in
    let blockY := iy / leafSize c in
    let blockZ := iz / leafSize c in
    descend blockX blockY blockZ ix iy iz (Z.to_nat (treeDepth c)) 0.

End Traversal.

(** ** Shape-penetration resolvers and the iterative queries *)

(** [for (let i = lo; i <= hi; i++)]: the values [i] takes, in order. *)
Definition zrange (lo hi : Z) : list Z :=
  map (fun k => lo + Z.of_nat k) (seq 0 (Z.to_nat (hi - lo + 1))).

(** The locals [bestPushX .. found] of a resolver. *)
Record Best (F : Type) : Type := mkBest {
  bestPushX : F;
  bestPushY : F;
  bestPushZ : F;
  bestPenetration : F;
  found : bool
}.
Arguments mkBest {F}.
Arguments bestPushX {F}.
Arguments bestPushY {F}.
Arguments bestPushZ {F}.
Arguments bestPenetration {F}.
Arguments found {F}.

(** What one pass of the innermost loop body computes before the final
    comparison: [None] when the body leaves through [continue]. *)
Record Contact (F : Type) : Type := mkContact {
  ct_px : F;
  ct_py : F;
  ct_pz : F;
  penetration : F
}.
Arguments mkContact {F}.
Arguments ct_px {F}.
Arguments ct_py {F}.
Arguments ct_pz {F}.
Arguments penetration {F}.

(** The locals of [querySphere] / [queryCapsule] that live across iterations. *)
Record Iter (F : Type) : Type := mkIter {
  resolvedX : F;
  resolvedY : F;
  resolvedZ : F;
  totalPushX : F;
  totalPushY : F;
  totalPushZ : F;
  hadCollision : bool;
  numNormals : nat
}.
Arguments mkIter {F}.
Arguments resolvedX {F}.
Arguments resolvedY {F}.
Arguments resolvedZ {F}.
Arguments totalPushX {F}.
Arguments totalPushY {F}.
Arguments totalPushZ {F}.
Arguments hadCollision {F}.
Arguments numNormals {F}.

Section Queries.
Context {F : Type} {N : Number F}.

(** [normals[i]] and the three assignments [n.x = ..; n.y = ..; n.z = ..] on
    [normals[i]]. [_constraintNormals] is a fixed array of three objects and
    the code indexes it below 3 only; the last case stands for index 2. *)
Definition normal_at (ns : Normals F) (i : nat) : PushOut F :=
  let '(n0, n1, n2) := ns in
  match i with
  | O => n0
  | S O => n1
  | _ => n2
  end.

Definition set_normal (ns : Normals F) (i : nat) (v : PushOut F) : Normals F :=
  let '(n0, n1, n2) := ns in
  match i with
  | O => (v, n1, n2)
  | S O => (n0, v, n2)
  | _ => (n0, n1, v)
  end.

Definition set_push (c : VoxelCollider F) (p : PushOut F) : VoxelCollider F :=
  mkCollider (gridMinX c) (gridMinY c) (gridMinZ c)
             (numVoxelsX c) (numVoxelsY c) (numVoxelsZ c)
             (voxelResolution c) (leafSize c) (treeDepth c)
             (nodes c) (leafData c) p (_constraintNormals c).

Definition set_normals (c : VoxelCollider F) (ns : Normals F)
  : VoxelCollider F :=
  mkCollider (gridMinX c) (gridMinY c) (gridMinZ c)
             (numVoxelsX c) (numVoxelsY c) (numVoxelsZ c)
             (voxelResolution c) (leafSize c) (treeDepth c)
             (nodes c) (leafData c) (_push c) ns.

(** The constructor. *)
Definition new_VoxelCollider (metadata : VoxelMetadata F)
  (nodes leafData : list Z) : VoxelCollider F :=
  let '(minX, minY, minZ) := gridBounds_min metadata in
  let '(maxX, maxY, maxZ) := gridBounds_max metadata in
  let res := md_voxelResolution metadata in
  mkCollider minX minY minZ
             (fround ((maxX - minX) / res)%num)
             (fround ((maxY - minY) / res)%num)
             (fround ((maxZ - minZ) / res)%num)
             res (md_leafSize metadata) (md_treeDepth metadata)
             nodes leafData
             (mkPushOut fzero fzero fzero)
             (mkPushOut fzero fzero fzero,
              mkPushOut fzero fzero fzero,
              mkPushOut fzero fzero fzero).

(** [queryPoint(x, y, z)] *)
Definition queryPoint (c : VoxelCollider F) (x y z : F) : bool :=
  let ix := ffloor ((x - gridMinX c) / voxelResolution c)%num in
  let iy := ffloor ((y - gridMinY c) / voxelResolution c)%num in
  let iz := ffloor ((z - gridMinZ c) / voxelResolution c)%num in
  isVoxelSolid c ix iy iz.

(** The final [if (penetration > bestPenetration) { .. }] of the loop body. *)
Definition consider (b : Best F) (k : option (Contact F)) : Best F :=
  match k with
  | None => b
  | Some k =>
      if (penetration k >? bestPenetration b)%num
      then mkBest (ct_px k) (ct_py k) (ct_pz k) (penetration k) true
      else b
  end.

(** Body of the innermost loop of [resolveDeepestPenetration]. *)
Definition sphereVoxel (c : VoxelCollider F) (cx cy cz radius : F)
  (ix iy iz : Z) : option (Contact F) :=
  let voxelResolution := voxelResolution c in
  let radiusSq := (radius * radius)%num in
  if negb (isVoxelSolid c ix iy iz) then None
  else
    let vMinX := (gridMinX c + fofZ ix * voxelResolution)%num in
    let vMinY := (gridMinY c + fofZ iy * voxelResolution)%num in
    let vMinZ := (gridMinZ c + fofZ iz * voxelResolution)%num in
    let vMaxX := (vMinX + voxelResolution)%num in
    let vMaxY := (vMinY + voxelResolution)%num in
    let vMaxZ := (vMinZ + voxelResolution)%num in
    let nearX := fmax vMinX (fmin cx vMaxX) in
    let nearY := fmax vMinY (fmin cy vMaxY) in
    let nearZ := fmax vMinZ (fmin cz vMaxZ) in
    let dx := (cx - nearX)%num in
    let dy := (cy - nearY)%num in
    let dz := (cz - nearZ)%num in
    let distSq := (dx * dx + dy * dy + dz * dz)%num in
    if (distSq >=? radiusSq)%num then None
    else if (distSq >? ftiny)%num then
      let dist := fsqrt distSq in
      let penetration := (radius - dist)%num in
      let invDist := (fone / dist)%num in
      Some (mkContact (dx * invDist * penetration)%num
                      (dy * invDist * penetration)%num
                      (dz * invDist * penetration)%num
                      penetration)
    else
      let distNegX := (cx - vMinX)%num in
      let distPosX := (vMaxX - cx)%num in
      let distNegY := (cy - vMinY)%num in
      let distPosY := (vMaxY - cy)%num in
      let distNegZ := (cz - vMinZ)%num in
      let distPosZ := (vMaxZ - cz)%num in
      let escapeX := if (distNegX <? distPosX)%num
                     then (- (distNegX + radius))%num else (distPosX + radius)%num in
      let escapeY := if (distNegY <? distPosY)%num
                     then (- (distNegY + radius))%num else (distPosY + radius)%num in
      let escapeZ := if (distNegZ <? distPosZ)%num
                     then (- (distNegZ + radius))%num else (distPosZ + radius)%num in
      let absX := fabs escapeX in
      let absY := fabs escapeY in
      let absZ := fabs escapeZ in
      if (absX <=? absY)%num && (absX <=? absZ)%num
      then Some (mkContact escapeX fzero fzero absX)
      else if (absY <=? absZ)%num
      then Some (mkContact fzero escapeY fzero absY)
      else Some (mkContact fzero fzero escapeZ absZ).

(** The three nested loops of [resolveDeepestPenetration]: the locals
    [bestPushX .. found] when they end. The counters [iz], [iy], [ix] step
    through [zrange] from the lower to the upper bound; the counters of the
    source do so when the bounds are safe integers ([safeFloor]). *)
Definition sphereScan (c : VoxelCollider F) (cx cy cz radius : F) : Best F :=
  let ixMin := ffloor ((cx - radius - gridMinX c) / voxelResolution c)%num in
  let iyMin := ffloor ((cy - radius - gridMinY c) / voxelResolution c)%num in
  let izMin := ffloor ((cz - radius - gridMinZ c) / voxelResolution c)%num in
  let ixMax := ffloor ((cx + radius - gridMinX c) / voxelResolution c)%num in
  let iyMax := ffloor ((cy + radius - gridMinY c) / voxelResolution c)%num in
  let izMax := ffloor ((cz + radius - gridMinZ c) / voxelResolution c)%num in
  fold_left (fun b iz =>
    fold_left (fun b iy =>
      fold_left (fun b ix =>
        consider b (sphereVoxel c cx cy cz radius ix iy iz))
        (zrange ixMin ixMax) b)
      (zrange iyMin iyMax) b)
    (zrange izMin izMax)
    (mkBest fzero fzero fzero PENETRATION_EPSILON false).

(** [resolveDeepestPenetration(cx, cy, cz, radius)]: the result and the
    object after the call. *)
Definition resolveDeepestPenetration (c : VoxelCollider F)
  (cx cy cz radius : F) : bool * VoxelCollider F :=
  let best := sphereScan c cx cy cz radius in
  if found best
  then (true, set_push c (mkPushOut (bestPushX best) (bestPushY best) (bestPushZ best)))
  else (false, c).

(** The choice of [segY] in [resolveDeepestPenetrationCapsule]: the closest
    Y on the capsule segment to the voxel's AABB. *)
Definition segmentY (segBottomY segTopY vMinY vMaxY : F) : F :=
  if (segTopY <? vMinY)%num then segTopY
  else if (segBottomY >? vMaxY)%num then segBottomY
  else
    let aabbCenterY := ((vMinY + vMaxY) * fhalf)%num in
    fmax segBottomY (fmin segTopY aabbCenterY).

(** Body of the innermost loop of [resolveDeepestPenetrationCapsule]. *)
Definition capsuleVoxel (c : VoxelCollider F) (cx cy cz halfHeight radius : F)
  (ix iy iz : Z) : option (Contact F) :=
  let voxelResolution := voxelResolution c in
  let radiusSq := (radius * radius)%num in
  let segBottomY := (cy - halfHeight)%num in
  let segTopY := (cy + halfHeight)%num in
  if negb (isVoxelSolid c ix iy iz) then None
  else
    let vMinX := (gridMinX c + fofZ ix * voxelResolution)%num in
    let vMinY := (gridMinY c + fofZ iy * voxelResolution)%num in
    let vMinZ := (gridMinZ c + fofZ iz * voxelResolution)%num in
    let vMaxX := (vMinX + voxelResolution)%num in
    let vMaxY := (vMinY + voxelResolution)%num in
    let vMaxZ := (vMinZ + voxelResolution)%num in
    let segY := segmentY segBottomY segTopY vMinY vMaxY in
    let nearX := fmax vMinX (fmin cx vMaxX) in
    let nearY := fmax vMinY (fmin segY vMaxY) in
    let nearZ := fmax vMinZ (fmin cz vMaxZ) in
    let dx := (cx - nearX)%num in
    let dy := (segY - nearY)%num in
    let dz := (cz - nearZ)%num in
    let distSq := (dx * dx + dy * dy + dz * dz)%num in
    if (distSq >=? radiusSq)%num then None
    else if (distSq >? ftiny)%num then
      let dist := fsqrt distSq in
      let penetration := (radius - dist)%num in
      let invDist := (fone / dist)%num in
      Some (mkContact (dx * invDist * penetration)%num
                      (dy * invDist * penetration)%num
                      (dz * invDist * penetration)%num
                      penetration)
    else
      let distNegX := (cx - vMinX)%num in
      let distPosX := (vMaxX - cx)%num in
      let distNegY := (segY - vMinY)%num in
      let distPosY := (vMaxY - segY)%num in
      let distNegZ := (cz - vMinZ)%num in
      let distPosZ := (vMaxZ - cz)%num in
      let escapeX := if (distNegX <? distPosX)%num
                     then (- (distNegX + radius))%num else (distPosX + radius)%num in
      let escapeY := if (distNegY <? distPosY)%num
                     then (- (distNegY + radius))%num else (distPosY + radius)%num in
      let escapeZ := if (distNegZ <? distPosZ)%num
                     then (- (distNegZ + radius))%num else (distPosZ + radius)%num in
      let absX := fabs escapeX in
      let absY := fabs escapeY in
      let absZ := fabs escapeZ in
      if (absX <=? absY)%num && (absX <=? absZ)%num
      then Some (mkContact escapeX fzero fzero absX)
      else if (absY <=? absZ)%num
      then Some (mkContact fzero escapeY fzero absY)
      else Some (mkContact fzero fzero escapeZ absZ).

(** The three nested loops of [resolveDeepestPenetrationCapsule], with the
    same reading of the counters as in [sphereScan]. *)
Definition capsuleScan (c : VoxelCollider F) (cx cy cz halfHeight radius : F)
  : Best F :=
  let segBottomY := (cy - halfHeight)%num in
  let segTopY := (cy + halfHeight)%num in
  let ixMin := ffloor ((cx - radius - gridMinX c) / voxelResolution c)%num in
  let iyMin := ffloor ((segBottomY - radius - gridMinY c) / voxelResolution c)%num in
  let izMin := ffloor ((cz - radius - gridMinZ c) / voxelResolution c)%num in
  let ixMax := ffloor ((cx + radius - gridMinX c) / voxelResolution c)%num in
  let iyMax := ffloor ((segTopY + radius - gridMinY c) / voxelResolution c)%num in
  let izMax := ffloor ((cz + radius - gridMinZ c) / voxelResolution c)%num in
  fold_left (fun b iz =>
    fold_left (fun b iy =>
      fold_left (fun b ix =>
        consider b (capsuleVoxel c cx cy cz halfHeight radius ix iy iz))
        (zrange ixMin ixMax) b)
      (zrange iyMin iyMax) b)
    (zrange izMin izMax)
    (mkBest fzero fzero fzero PENETRATION_EPSILON false).

(** [resolveDeepestPenetrationCapsule(cx, cy, cz, halfHeight, radius)] *)
Definition resolveDeepestPenetrationCapsule (c : VoxelCollider F)
  (cx cy cz halfHeight radius : F) : bool * VoxelCollider F :=
  let best := capsuleScan c cx cy cz halfHeight radius in
  if found best
  then (true, set_push c (mkPushOut (bestPushX best) (bestPushY best) (bestPushZ best)))
  else (false, c).

(** The inner loop [for (let i = 0; i < numNormals; i++)] of a query. *)
Definition projectOut (normals : Normals F) (numNormals : nat)
  (p : F * F * F) : F * F * F :=
  fold_left (fun '(px, py, pz) i =>
    let n := normal_at normals i in
    let dot := (px * x n + py * y n + pz * z n)%num in
    if (dot <? fzero)%num
    then ((px - dot * x n)%num, (py - dot * y n)%num, (pz - dot * z n)%num)
    else (px, py, pz))
    (seq 0 numNormals) p.

(** One pass of the body of the [for (iter ..)] loop of a query, after the
    resolver has returned [true] and left its result in [_push]. *)
Definition afterHit (c : VoxelCollider F) (st : Iter F) : VoxelCollider F * Iter F :=
  let push := _push c in
  let normals := _constraintNormals c in
  let '(px, py, pz) := projectOut normals (numNormals st) (x push, y push, z push) in
  let len := fsqrt (x push * x push + y push * y push + z push * z push)%num in
  let '(c', numNormals') :=
    if (len >? PENETRATION_EPSILON)%num && (numNormals st <? 3)%nat
    then
      let invLen := (fone / len)%num in
      (set_normals c (set_normal normals (numNormals st)
                        (mkPushOut (x push * invLen)%num
                                   (y push * invLen)%num
                                   (z push * invLen)%num)),
       S (numNormals st))
    else (c, numNormals st) in
  (c', mkIter (resolvedX st + px)%num (resolvedY st + py)%num (resolvedZ st + pz)%num
              (totalPushX st + px)%num (totalPushY st + py)%num (totalPushZ st + pz)%num
              true numNormals').

(** The loop [for (let iter = 0; iter < maxIterations; iter++)] of a query,
    [iters] passes remaining; [resolve] is the resolver the query calls. *)
Fixpoint queryLoop (resolve : VoxelCollider F -> F -> F -> F -> bool * VoxelCollider F)
  (iters : nat) (c : VoxelCollider F) (st : Iter F) : VoxelCollider F * Iter F :=
  match iters with
  | O => (c, st)
  | S k =>
      let '(hit, c1) := resolve c (resolvedX st) (resolvedY st) (resolvedZ st) in
      if negb hit then (c1, st)
      else
        let '(c2, st') := afterHit c1 st in
        queryLoop resolve k c2 st'
  end.

(** The code of a query after its loop. *)
Definition finishQuery (c : VoxelCollider F) (st : Iter F) (out : PushOut F)
  : bool * VoxelCollider F * PushOut F :=
  let totalPushSq := (totalPushX st * totalPushX st + totalPushY st * totalPushY st
                      + totalPushZ st * totalPushZ st)%num in
  let hasSignificantPush :=
    hadCollision st && (totalPushSq >? PENETRATION_EPSILON * PENETRATION_EPSILON)%num in
  if hasSignificantPush
  then (hasSignificantPush, c, mkPushOut (totalPushX st) (totalPushY st) (totalPushZ st))
  else (hasSignificantPush, c, out).

Definition maxIterations : nat := 4.

(** [querySphere(cx, cy, cz, radius, out)]: the result, the object after the
    call and the object [out] after the call. *)
Definition querySphere (c : VoxelCollider F) (cx cy cz radius : F)
  (out : PushOut F) : bool * VoxelCollider F * PushOut F :=
  if Z.of_nat (length (nodes c)) =? 0 then (false, c, out)
  else
    let '(c', st) :=
      queryLoop (fun c rx ry rz => resolveDeepestPenetration c rx ry rz radius)
                maxIterations c
                (mkIter cx cy cz fzero fzero fzero false O) in
    finishQuery c' st out.

(** [queryCapsule(cx, cy, cz, halfHeight, radius, out)] *)
Definition queryCapsule (c : VoxelCollider F) (cx cy cz halfHeight radius : F)
  (out : PushOut F) : bool * VoxelCollider F * PushOut F :=
  if Z.of_nat (length (nodes c)) =? 0 then (false, c, out)
  else
    let '(c', st) :=
      queryLoop (fun c rx ry rz =>
                   resolveDeepestPenetrationCapsule c rx ry rz halfHeight radius)
                maxIterations c
                (mkIter cx cy cz fzero fzero fzero false O) in
    finishQuery c' st out.

End Queries.

(** ** The older copy of the collider

    The sources hold a second, older copy of voxel-collider.ts: no capsule
    query, no getters, otherwise the same text, except for the nearest-face
    branch of [resolveDeepestPenetration], which escapes to the face itself. *)

Module Older.
Section Older.
Context {F : Type} {N : Number F}.

(** Body of the innermost loop of the older [resolveDeepestPenetration]. *)
Definition sphereVoxel (c : VoxelCollider F) (cx cy cz radius : F)
  (ix iy iz : Z) : option (Contact F) :=
  let voxelResolution := voxelResolution c in
  let radiusSq := (radius * radius)%num in
  if negb (isVoxelSolid c ix iy iz) then None
  else
    let vMinX := (gridMinX c + fofZ ix * voxelResolution)%num in
    let vMinY := (gridMinY c + fofZ iy * voxelResolution)%num in
    let vMinZ := (gridMinZ c + fofZ iz * voxelResolution)%num in
    let vMaxX := (vMinX + voxelResolution)%num in
    let vMaxY := (vMinY + voxelResolution)%num in
    let vMaxZ := (vMinZ + voxelResolution)%num in
    let nearX := fmax vMinX (fmin cx vMaxX) in
    let nearY := fmax vMinY (fmin cy vMaxY) in
    let nearZ := fmax vMinZ (fmin cz vMaxZ) in
    let dx := (cx - nearX)%num in
    let dy := (cy - nearY)%num in
    let dz := (cz - nearZ)%num in
    let distSq := (dx * dx + dy * dy + dz * dz)%num in
    if (distSq >=? radiusSq)%num then None
    else if (distSq >? ftiny)%num then
      let dist := fsqrt distSq in
      let penetration := (radius - dist)%num in
      let invDist := (fone / dist)%num in
      Some (mkContact (dx * invDist * penetration)%num
                      (dy * invDist * penetration)%num
                      (dz * invDist * penetration)%num
                      penetration)
    else
      let distNegX := (cx - vMinX)%num in
      let distPosX := (vMaxX - cx)%num in
      let distNegY := (cy - vMinY)%num in
      let distPosY := (vMaxY - cy)%num in
      let distNegZ := (cz - vMinZ)%num in
      let distPosZ := (vMaxZ - cz)%num in
      let escapeX := if (distNegX <? distPosX)%num then (- distNegX)%num else distPosX in
      let escapeY := if (distNegY <? distPosY)%num then (- distNegY)%num else distPosY in
      let escapeZ := if (distNegZ <? distPosZ)%num then (- distNegZ)%num else distPosZ in
      let absX := fabs escapeX in
      let absY := fabs escapeY in
      let absZ := fabs escapeZ in
      if (absX <=? absY)%num && (absX <=? absZ)%num
      then Some (mkContact escapeX fzero fzero absX)
      else if (absY <=? absZ)%num
      then Some (mkContact fzero escapeY fzero absY)
      else Some (mkContact fzero fzero escapeZ absZ).

Definition sphereScan (c : VoxelCollider F) (cx cy cz radius : F) : Best F :=
  let ixMin := ffloor ((cx - radius - gridMinX c) / voxelResolution c)%num in
  let iyMin := ffloor ((cy - radius - gridMinY c) / voxelResolution c)%num in
  let izMin := ffloor ((cz - radius - gridMinZ c) / voxelResolution c)%num in
  let ixMax := ffloor ((cx + radius - gridMinX c) / voxelResolution c)%num in
  let iyMax := ffloor ((cy + radius - gridMinY c) / voxelResolution c)%num in
  let izMax := ffloor ((cz + radius - gridMinZ c) / voxelResolution c)%num in
  fold_left (fun b iz =>
    fold_left (fun b iy =>
      fold_left (fun b ix =>
        consider b (sphereVoxel c cx cy cz radius ix iy iz))
        (zrange ixMin ixMax) b)
      (zrange iyMin iyMax) b)
    (zrange izMin izMax)
    (mkBest fzero fzero fzero PENETRATION_EPSILON false).

Definition resolveDeepestPenetration (c : VoxelCollider F)
  (cx cy cz radius : F) : bool * VoxelCollider F :=
  let best := sphereScan c cx cy cz radius in
  if found best
  then (true, set_push c (mkPushOut (bestPushX best) (bestPushY best) (bestPushZ best)))
  else (false, c).

Definition querySphere (c : VoxelCollider F) (cx cy cz radius : F)
  (out : PushOut F) : bool * VoxelCollider F * PushOut F :=
  if Z.of_nat (length (nodes c)) =? 0 then (false, c, out)
  else
    let '(c', st) :=
      queryLoop (fun c rx ry rz => resolveDeepestPenetration c rx ry rz radius)
                maxIterations c
                (mkIter cx cy cz fzero fzero fzero false O) in
    finishQuery c' st out.

End Older.
End Older.

(** ** The traversal, instrumented

    [walk] is [descend] with a log: the node indices it reads, in order, and
    the place where it returns. *)

Inductive Outcome : Type :=
| NotTraversed                (* the guard at the top of [isVoxelSolid] *)
| Sentinel                    (* [node === SOLID_LEAF_MARKER] *)
| LeafNode (node : Z)         (* [checkLeafByIndex(node, ..)] is called *)
| MissingOctant (level : Z).  (* the octant is absent from [childMask] *)

Section Trace.
Context {F : Type}.
Variable c : VoxelCollider F.

Fixpoint walk (blockX blockY blockZ : Z) (n : nat) (nodeIndex : Z)
  : list Z * Outcome :=
  match n with
  | O =>
      let node := read_u32 (nodes c) nodeIndex in
      if node =? SOLID_LEAF_MARKER then ([nodeIndex], Sentinel)
      else ([nodeIndex], LeafNode node)
  | S n' =>
      let level := Z.of_nat n' in
      let node := read_u32 (nodes c) nodeIndex in
      if node =? SOLID_LEAF_MARKER then ([nodeIndex], Sentinel)
      else
        let childMask := band (ushr node 24) 0xFF in
        if childMask =? 0 then ([nodeIndex], LeafNode node)
        else
          let bitX := band (ushr blockX level) 1 in
          let bitY := band (ushr blockY level) 1 in
          let bitZ := band (ushr blockZ level) 1 in
          let octant := bor (bor (shl bitZ 2) (shl bitY 1)) bitX in
          if band childMask (shl 1 octant) =? 0
          then ([nodeIndex], MissingOctant level)
          else
            let baseOffset := band node 0x00FFFFFF in
            let prefix := shl 1 octant - 1 in
            let childOffset := popcount (band childMask prefix) in
            let '(visited, o) :=
              walk blockX blockY blockZ n' (baseOffset + childOffset) in
            (nodeIndex :: visited, o)
  end.

Definition traversal (ix iy iz : Z) : list Z * Outcome :=
  if (Z.of_nat (length (nodes c)) =? 0)
     || (ix <? 0) || (iy <? 0) || (iz <? 0)
     || (ix >=? numVoxelsX c) || (iy >=? numVoxelsY c) || (iz >=? numVoxelsZ c)
  then ([], NotTraversed)
  else
    walk (ix / leafSize c) (iy / leafSize c) (iz / leafSize c)
         (Z.to_nat (treeDepth c)) 0.

(** The boolean [isVoxelSolid] returns at each place. *)
Definition solidAt (o : Outcome) (ix iy iz : Z) : bool :=
  match o with
  | NotTraversed => false
  | Sentinel => true
  | LeafNode node => checkLeafByIndex c node ix iy iz
  | MissingOctant _ => false
  end.

End Trace.

(** ** Decoding: [VoxelCollider.load]

    [load] is modelled from the point where both fetches have resolved to a
    response and the body of the metadata response, where it is read, is the
    JSON of a complete [VoxelMetadata] record with integer counts. The
    three failures below are those the function raises once this is given.
    Outside this model are the rejection of [fetch] itself, the
    [SyntaxError] of [metaResponse.json()] on a body that is not JSON and
    the [TypeError] of the constructor on an object without [gridBounds]:
    statements about [load] are about calls without them. *)

Inductive LoadError : Type :=
| FetchMetadataFailed         (* [!metaResponse.ok] *)
| FetchBinaryFailed           (* [!binResponse.ok] *)
| RangeError.                 (* [new Uint32Array(buffer)]: byte length not a multiple of 4 *)

(** A fetched response: its [ok] flag and its decoded body. *)
Record Response (A : Type) : Type := mkResponse { ok : bool; body : A }.
Arguments mkResponse {A}.
Arguments ok {A}.
Arguments body {A}.

(** [new Uint32Array(buffer)] on a little-endian platform. *)
Fixpoint Uint32Array_of_buffer (buffer : list Byte.byte) : option (list Z) :=
  match buffer with
  | [] => Some []
  | b0 :: b1 :: b2 :: b3 :: rest =>
      match Uint32Array_of_buffer rest with
      | Some ws =>
          Some ((Z.of_N (Byte.to_N b0) + 2 ^ 8 * Z.of_N (Byte.to_N b1)
                 + 2 ^ 16 * Z.of_N (Byte.to_N b2) + 2 ^ 24 * Z.of_N (Byte.to_N b3))
                :: ws)
      | None => None
      end
  | _ => None
  end.

Section Load.
Context {F : Type} {N : Number F}.

Definition load (metaResponse : Response (VoxelMetadata F))
  (binResponse : Response (list Byte.byte)) : LoadError + VoxelCollider F :=
  if negb (ok metaResponse) then inl FetchMetadataFailed
  else
    let metadata := body metaResponse in
    if negb (ok binResponse) then inl FetchBinaryFailed
    else
      let buffer := body binResponse in
      match Uint32Array_of_buffer buffer with
      | None => inl RangeError
      | Some view =>
          let nodes := slice view 0 (nodeCount metadata) in
          let leafData :=
            slice view (nodeCount metadata)
                  (nodeCount metadata + leafDataCount metadata) in
          inr (new_VoxelCollider metadata nodes leafData)
      end.

End Load.

(** ** The block lookup of the debug overlay (WGSL) *)

Module WGSL.

(** Values of type [u32]: wrap-around of arithmetic, and the bit pattern of
    an [i32] under [u32(e)]. *)
Definition u32 (z : Z) : Z := z mod 2 ^ 32.

Definition add (a b : Z) : Z := u32 (a + b).
Definition sub (a b : Z) : Z := u32 (a - b).
Definition mul (a b : Z) : Z := u32 (a * b).

(** [a >> n] and [a << n] on [u32]: the shift count is taken modulo 32. *)
Definition shr (a n : Z) : Z := Z.shiftr a (n mod 32).
Definition shl (a n : Z) : Z := u32 (Z.shiftl a (n mod 32)).

Definition countOneBits (a : Z) : Z :=
  Z.of_nat (length (filter (Z.testbit a) (zrange 0 31))).

(** [buf[i]] on a storage buffer of [u32]; [oob] is the value an access
    outside the buffer produces, which WGSL leaves to the implementation. *)
Definition load (oob : Z) (buf : list Z) (i : Z) : Z :=
  match nth_error buf (Z.to_nat i) with
  | Some v => u32 v
  | None => oob
  end.

(** The storage buffer the overlay creates for a typed array: at least four
    bytes, zero-filled, written only when the array is not empty. *)
Definition uploadBuffer (data : list Z) : list Z :=
  match data with
  | [] => [0]
  | _ => data
  end.

End WGSL.

Section Overlay.
Context {F : Type}.
Variable oob : Z.
Variable c : VoxelCollider F.

Definition gpu_nodes : list Z := WGSL.uploadBuffer (nodes c).
Definition gpu_leafData : list Z := WGSL.uploadBuffer (leafData c).

(** The code of [queryBlock] after its loop. *)
Definition queryBlockLeaf (nodeIndex : Z) : Z * Z :=
  let node := WGSL.load oob gpu_nodes nodeIndex in
  if node =? 0xFF000000 then (1, 0)
  else
    let leafIdx := Z.land node 0x00FFFFFF in
    (WGSL.add 2 leafIdx, 0).

(** The loop of [queryBlock]. It has no condition: the body runs, then
    [if (level == 0u) { break; }], then [level -= 1u]. [n] counts the
    decrements left, so [n = level] throughout and the last case of the
    [match] is not reached. *)
Fixpoint queryBlockLoop (bx by_ bz : Z) (n : nat) (level nodeIndex : Z)
  : Z * Z :=
  let node := WGSL.load oob gpu_nodes nodeIndex in
  if node =? 0xFF000000 then (1, 0)
  else
    let childMask := Z.land (WGSL.shr node 24) 0xFF in
    if childMask =? 0 then
      let leafIdx := Z.land node 0x00FFFFFF in
      (WGSL.add 2 leafIdx, 0)
    else
      let bitX := Z.land (WGSL.shr (WGSL.u32 bx) level) 1 in
      let bitY := Z.land (WGSL.shr (WGSL.u32 by_) level) 1 in
      let bitZ := Z.land (WGSL.shr (WGSL.u32 bz) level) 1 in
      let octant := Z.lor (Z.lor (WGSL.shl bitZ 2) (WGSL.shl bitY 1)) bitX in
      if Z.land childMask (WGSL.shl 1 octant) =? 0 then (0, level)
      else
        let baseOffset := Z.land node 0x00FFFFFF in
        let prefix := WGSL.sub (WGSL.shl 1 octant) 1 in
        let childOffset := WGSL.countOneBits (Z.land childMask prefix) in
        let nodeIndex := WGSL.add baseOffset childOffset in
        if level =? 0 then queryBlockLeaf nodeIndex
        else
          match n with
          | S n' => queryBlockLoop bx by_ bz n' (WGSL.sub level 1) nodeIndex
          | O => queryBlockLeaf nodeIndex
          end.

(** [queryBlock(bx, by, bz)]: the pair [(result, emptyLevel)]. *)
Definition queryBlock (bx by_ bz : Z) : Z * Z :=
  let depth := WGSL.u32 (treeDepth c) in
  let level := WGSL.sub depth 1 in
  queryBlockLoop bx by_ bz (Z.to_nat level) level 0.

(** What [main] decides for the voxel [(vx, vy, vz)] of a block whose
    lookup returned [blockResult]: a block with result 0 is stepped over;
    otherwise [isSolid] of the voxel loop. *)
Definition blockVoxelSolid (blockResult vx vy vz : Z) : bool :=
  if blockResult =? 0 then false
  else
    let '(maskLo, maskHi) :=
      if blockResult >? 1 then
        let leafIdx := WGSL.sub blockResult 2 in
        (WGSL.load oob gpu_leafData (WGSL.mul leafIdx 2),
         WGSL.load oob gpu_leafData (WGSL.add (WGSL.mul leafIdx 2) 1))
      else (0, 0) in
    if blockResult =? 1 then true
    else
      let bitIndex :=
        WGSL.add (WGSL.add (WGSL.mul (WGSL.u32 vz) 16) (WGSL.mul (WGSL.u32 vy) 4))
                 (WGSL.u32 vx) in
      if bitIndex <? 32
      then negb (Z.land maskLo (WGSL.shl 1 bitIndex) =? 0)
      else negb (Z.land maskHi (WGSL.shl 1 (WGSL.sub bitIndex 32)) =? 0).

(** What the overlay still runs when [n] levels remain above the leaf
    level. *)
Definition gpuFrom (bx by_ bz : Z) (n : nat) (i : Z) : Z * Z :=
  match n with
  | O => queryBlockLeaf i
  | S m => queryBlockLoop bx by_ bz m (Z.of_nat m) i
  end.

End Overlay.

(** ** Reference definitions, written from the specification

    [Ref.isVoxelSolid] is the octree lookup of the data model: a node word
    is decoded once into its three forms, the octant is read off bit
    [level] of the block coordinate, the child index counts the set bits of
    the mask below the octant, and a mixed leaf is a 64-bit mask indexed by
    [z*16 + y*4 + x]. [Ref.iterativeQuery] is the iterative multi-contact
    resolution over a list of recorded constraint normals. *)

Module Ref.

Inductive Node : Type :=
| SolidSentinel
| MixedLeaf (leafIndex : Z)
| Interior (childMask baseOffset : Z).

(** The [u32] stored at index [i] of an array ([0] outside it). *)
Definition word_at (arr : list Z) (i : Z) : Z :=
  nth (Z.to_nat i) arr 0 mod 2 ^ 32.

Definition classify (word : Z) : Node :=
  if word =? 0xFF000000 then SolidSentinel
  else
    let childMask := (word / 2 ^ 24) mod 2 ^ 8 in
    let baseOffset := word mod 2 ^ 24 in
    if childMask =? 0 then MixedLeaf baseOffset
    else Interior childMask baseOffset.

(** Number of octants below [octant] that have a child. *)
Definition childrenBelow (childMask octant : Z) : Z :=
  Z.of_nat (length (filter (Z.testbit childMask) (zrange 0 (octant - 1)))).

(** Occupancy of a voxel in the mixed leaf [leafIndex]. *)
Definition leafBit (leafData : list Z) (leafIndex ix iy iz : Z) : bool :=
  let lo := word_at leafData (2 * leafIndex) in
  let hi := word_at leafData (2 * leafIndex + 1) in
  let mask := Z.lor lo (Z.shiftl hi 32) in
  let bitIndex := (iz mod 4) * 16 + (iy mod 4) * 4 + ix mod 4 in
  Z.testbit mask bitIndex.

Section Lookup.
Variables (nodes leafData : list Z).
Variables (blockX blockY blockZ ix iy iz : Z).

(** Resolution of a node at the leaf level. *)
Definition resolveLeaf (word : Z) : bool :=
  if word =? 0xFF000000 then true
  else leafBit leafData (word mod 2 ^ 24) ix iy iz.

(** [lookup levels i]: the node at index [i], with [levels] tree levels
    still above the leaf level. *)
Fixpoint lookup (levels : nat) (i : Z) : bool :=
  match levels with
  | O => resolveLeaf (word_at nodes i)
  | S l =>
      let level := Z.of_nat l in
      match classify (word_at nodes i) with
      | SolidSentinel => true
      | MixedLeaf leafIndex => leafBit leafData leafIndex ix iy iz
      | Interior childMask baseOffset =>
          let octant := 4 * Z.b2z (Z.testbit blockZ level)
                        + 2 * Z.b2z (Z.testbit blockY level)
                        + Z.b2z (Z.testbit blockX level) in
          if Z.testbit childMask octant
          then lookup l (baseOffset + childrenBelow childMask octant)
          else false
      end
  end.

End Lookup.

Definition isVoxelSolid {F : Type} (c : VoxelCollider F) (ix iy iz : Z) : bool :=
  match nodes c with
  | [] => false
  | _ =>
      if (0 <=? ix) && (ix <? numVoxelsX c)
         && (0 <=? iy) && (iy <? numVoxelsY c)
         && (0 <=? iz) && (iz <? numVoxelsZ c)
      then lookup (nodes c) (leafData c)
                  (ix / leafSize c) (iy / leafSize c) (iz / leafSize c)
                  ix iy iz (Z.to_nat (treeDepth c)) 0
      else false
  end.

Section Iterative.
Context {F : Type} {N : Number F}.

Definition dot (a n : PushOut F) : F :=
  (x a * x n + y a * y n + z a * z n)%num.

(** Step 3: for each prior normal [n], if [dot(push, n) < 0], subtract
    [dot(push, n) * n] from [push]. *)
Definition project (normals : list (PushOut F)) (push : PushOut F) : PushOut F :=
  fold_left (fun p n =>
    let d := dot p n in
    if (d <? fzero)%num
    then mkPushOut (x p - d * x n)%num (y p - d * y n)%num (z p - d * z n)%num
    else p) normals push.

(** Step 4: record the normalized pre-projection push when its length
    exceeds the epsilon and fewer than 3 normals are recorded. *)
Definition record (normals : list (PushOut F)) (push : PushOut F)
  : list (PushOut F) :=
  let len := fsqrt (dot push push) in
  if (len >? PENETRATION_EPSILON)%num && (length normals <? 3)%nat
  then normals ++ [mkPushOut (x push * (fone / len))%num
                             (y push * (fone / len))%num
                             (z push * (fone / len))%num]
  else normals.

(** At most [iters] iterations from the candidate position [pos]; the
    result is the total accumulated push and whether any iteration found a
    penetration. [resolver] is the single-deepest-penetration resolver:
    [None] when nothing penetrates. *)
Fixpoint iterate (resolver : PushOut F -> option (PushOut F)) (iters : nat)
  (pos : PushOut F) (normals : list (PushOut F)) (total : PushOut F)
  (had : bool) : PushOut F * bool :=
  match iters with
  | O => (total, had)
  | S k =>
      match resolver pos with
      | None => (total, had)
      | Some push =>
          let applied := project normals push in
          iterate resolver k
            (mkPushOut (x pos + x applied)%num (y pos + y applied)%num
                       (z pos + z applied)%num)
            (record normals push)
            (mkPushOut (x total + x applied)%num (y total + y applied)%num
                       (z total + z applied)%num)
            true
      end
  end.

(** The wrapped query: its boolean result and the push-out it reports. *)
Definition iterativeQuery (resolver : PushOut F -> option (PushOut F))
  (center : PushOut F) : bool * option (PushOut F) :=
  let '(total, had) :=
    iterate resolver 4 center [] (mkPushOut fzero fzero fzero) false in
  if had && (dot total total >? PENETRATION_EPSILON * PENETRATION_EPSILON)%num
  then (true, Some total)
  else (false, None).

End Iterative.

Section NearestFace.
Context {F : Type} {N : Number F}.

(** Escape along one axis of a box [lo, hi] from a point at coordinate [p]:
    the signed distance to the nearer face, plus the radius in that outward
    direction. *)
Definition escape (lo hi p radius : F) : F :=
  if (p - lo <? hi - p)%num then (- (p - lo + radius))%num
  else (hi - p + radius)%num.

Definition least (a b : F) : F := if (a <=? b)%num then a else b.

(** [min(a, b, c)] *)
Definition least3 (a b c : F) : F := least a (least b c).

(** Closest point of [lo, hi] to [p], on one axis. *)
Definition clamp (lo hi p : F) : F := fmax lo (fmin p hi).

(** Squared distance from the point to the closest point of the box. *)
Definition distSqToBox (vMin vMax point : PushOut F) : F :=
  let dx := (x point - clamp (x vMin) (x vMax) (x point))%num in
  let dy := (y point - clamp (y vMin) (y vMax) (y point))%num in
  let dz := (z point - clamp (z vMin) (z vMax) (z point))%num in
  (dx * dx + dy * dy + dz * dz)%num.

(** The contact is a push along a single axis, by the escape on that axis,
    and its depth is the least of the three absolute escapes. *)
Definition alongLeastEscape (vMin vMax point : PushOut F) (radius : F)
  (k : Contact F) : Prop :=
  let ex := escape (x vMin) (x vMax) (x point) radius in
  let ey := escape (y vMin) (y vMax) (y point) radius in
  let ez := escape (z vMin) (z vMax) (z point) radius in
  penetration k = least3 (fabs ex) (fabs ey) (fabs ez)
  /\ (k = mkContact ex fzero fzero (fabs ex)
      \/ k = mkContact fzero ey fzero (fabs ey)
      \/ k = mkContact fzero fzero ez (fabs ez)).

End NearestFace.

End Ref.

(** The resolvers as functions of the candidate position: the push-out left
    in [_push] when a penetration is found. *)
Definition sphereResolver {F : Type} {N : Number F} (c : VoxelCollider F)
  (radius : F) (pos : PushOut F) : option (PushOut F) :=
  let '(hit, c') := resolveDeepestPenetration c (x pos) (y pos) (z pos) radius in
  if hit then Some (_push c') else None.

Definition capsuleResolver {F : Type} {N : Number F} (c : VoxelCollider F)
  (halfHeight radius : F) (pos : PushOut F) : option (PushOut F) :=
  let '(hit, c') :=
    resolveDeepestPenetrationCapsule c (x pos) (y pos) (z pos) halfHeight radius in
  if hit then Some (_push c') else None.

(** ** Views of the object and of the locals of a query *)

Section Views.
Context {F : Type}.

(** The fields of the object other than its two scratch fields. *)
Definition gridOf (c : VoxelCollider F) :=
  (gridMinX c, gridMinY c, gridMinZ c,
   numVoxelsX c, numVoxelsY c, numVoxelsZ c,
   voxelResolution c, leafSize c, treeDepth c, nodes c, leafData c).

(** The same grid with other contents in the scratch fields. *)
Definition with_scratch (c : VoxelCollider F) (p : PushOut F) (ns : Normals F)
  : VoxelCollider F :=
  mkCollider (gridMinX c) (gridMinY c) (gridMinZ c)
             (numVoxelsX c) (numVoxelsY c) (numVoxelsZ c)
             (voxelResolution c) (leafSize c) (treeDepth c)
             (nodes c) (leafData c) p ns.

(** The constraint normals recorded so far: [normals[0 .. k-1]]. *)
Definition slots (ns : Normals F) (k : nat) : list (PushOut F) :=
  map (fun i =>
         let '(n0, n1, n2) := ns in
         match i with O => n0 | S O => n1 | _ => n2 end) (seq 0 k).

Definition posOf (st : Iter F) : PushOut F :=
  mkPushOut (resolvedX st) (resolvedY st) (resolvedZ st).

Definition totalOf (st : Iter F) : PushOut F :=
  mkPushOut (totalPushX st) (totalPushY st) (totalPushZ st).

(** What the caller sees of a query: its result and [out] after the call. *)
Definition observed (q : bool * VoxelCollider F * PushOut F) : bool * PushOut F :=
  (fst (fst q), snd q).

(** The same for the reference: [out] is left alone when nothing is
    reported. *)
Definition reported (out : PushOut F) (q : bool * option (PushOut F))
  : bool * PushOut F :=
  (fst q, match snd q with Some p => p | None => out end).

End Views.

(** What a resolver does to the object, and its result as a function of
    the grid it started from. *)
Definition resolves {F : Type} (c0 : VoxelCollider F)
  (resolve : VoxelCollider F -> F -> F -> F -> bool * VoxelCollider F)
  (resolver : PushOut F -> option (PushOut F)) : Prop :=
  forall c rx ry rz,
    gridOf c = gridOf c0 ->
    gridOf (snd (resolve c rx ry rz)) = gridOf c0
    /\ _constraintNormals (snd (resolve c rx ry rz)) = _constraintNormals c
    /\ resolver (mkPushOut rx ry rz)
       = if fst (resolve c rx ry rz)
         then Some (_push (snd (resolve c rx ry rz)))
         else None.

(** The world-space AABB of a voxel, as the resolvers compute it. *)
Definition voxelMin {F : Type} {N : Number F} (c : VoxelCollider F) (ix iy iz : Z)
  : PushOut F :=
  mkPushOut (gridMinX c + fofZ ix * voxelResolution c)%num
            (gridMinY c + fofZ iy * voxelResolution c)%num
            (gridMinZ c + fofZ iz * voxelResolution c)%num.

Definition voxelMax {F : Type} {N : Number F} (c : VoxelCollider F) (ix iy iz : Z)
  : PushOut F :=
  mkPushOut (gridMinX c + fofZ ix * voxelResolution c + voxelResolution c)%num
            (gridMinY c + fofZ iy * voxelResolution c + voxelResolution c)%num
            (gridMinZ c + fofZ iz * voxelResolution c + voxelResolution c)%num.

(** The capsule's segment point for a voxel: [(cx, segY, cz)]. *)
Definition segmentPoint {F : Type} {N : Number F} (c : VoxelCollider F)
  (cx cy cz halfHeight : F) (ix iy iz : Z) : PushOut F :=
  mkPushOut cx
            (segmentY (cy - halfHeight)%num (cy + halfHeight)%num
                      (y (voxelMin c ix iy iz)) (y (voxelMax c ix iy iz)))
            cz.

(** ** Laws of arithmetic used by some statements *)

Class OrderLaws (F : Type) {N : Number F} : Prop := {
  fleb_total : forall a b : F, (a <=? b)%num = true \/ (b <=? a)%num = true;
  fleb_trans : forall a b c : F,
    (a <=? b)%num = true -> (b <=? c)%num = true -> (a <=? c)%num = true;
  fleb_not_gt : forall a b : F, (a <=? b)%num = true -> (a >? b)%num = false
}.

Class ZeroLaws (F : Type) {N : Number F} : Prop := {
  fadd_0_r : forall a : F, (a + fzero)%num = a;
  fsub_0_r : forall a : F, (a - fzero)%num = a;
  fmax_fmin_absorb : forall a b : F, fmax a (fmin a b) = a
}.

(** ** Exact rationals as an instance of [Number]

    Square roots are taken to twelve decimal places. *)

Definition Qltb (a b : Q) : bool := negb (Qle_bool b a).

Definition Qsqrt12 (q : Q) : Q :=
  Z.sqrt (Qnum q * 10 ^ 24 / Zpos (Qden q)) # 1000000000000.

#[export] Instance Number_Q : Number Q := {|
  fzero := 0%Q;
  fone := 1%Q;
  fhalf := (1 # 2)%Q;
  PENETRATION_EPSILON := (1 # 10000)%Q;
  ftiny := (1 # 1000000000000)%Q;
  fadd := Qplus;
  fsub := Qminus;
  fmul := Qmult;
  fdiv := Qdiv;
  fneg := Qopp;
  fabs := Qabs;
  fsqrt := Qsqrt12;
  fmax := Qmax;
  fmin := Qmin;
  fltb := Qltb;
  fleb := Qle_bool;
  ffloor := Qfloor;
  fround := fun q => Qfloor (q + (1 # 2))%Q;
  fofZ := inject_Z
|}.

(** ** IEEE doubles as an instance of [Number]

    The numbers of the program itself: binary64 with the operations of the
    hardware, [Math.max] and [Math.min] with their treatment of NaN and of
    the two zeros, [Math.floor] and [Math.round] computed exactly from the
    mantissa and exponent (0 for the infinities and NaN, which the model
    does not cover: statements about doubles compute on finite inputs or
    assume [safeFloor], which excludes them). *)

Module Double.
Import PrimFloat SpecFloat.

(** The integer [shift v k] for the double of value [v / 2 ^ k], or its
    value when it has no fractional bits. For NaN and the infinities, where
    [Math.floor] and [Math.round] give no integer, 0 stands in. *)
Definition to_Z (shift : Z -> Z -> Z) (f : float) : Z :=
  match FloatOps.Prim2SF f with
  | S754_finite s m e =>
      let v := if s then Z.neg m else Z.pos m in
      if 0 <=? e then v * 2 ^ e else shift v (- e)
  | _ => 0
  end.

Definition floor : float -> Z := to_Z Z.shiftr.

(** [Math.round]: the nearest integer, ties towards plus infinity. *)
Definition round : float -> Z :=
  to_Z (fun v k => Z.shiftr (v + 2 ^ (k - 1)) k).

Definition of_Z (z : Z) : float :=
  if z <? 0 then opp (of_uint63 (Uint63.of_Z (- z)))
  else of_uint63 (Uint63.of_Z z).

Definition max (a b : float) : float :=
  if is_nan a || is_nan b then nan
  else if ltb a b then b
  else if ltb b a then a
  else if get_sign a then b else a.

Definition min (a b : float) : float :=
  if is_nan a || is_nan b then nan
  else if ltb a b then a
  else if ltb b a then b
  else if get_sign a then a else b.

#[export] Instance Number_double : Number float := {|
  fzero := zero;
  fone := one;
  fhalf := 0x1p-1%float;
  PENETRATION_EPSILON := 0x1.a36e2eb1c432dp-14%float;   (* 1e-4 *)
  ftiny := 0x1.19799812dea11p-40%float;                 (* 1e-12 *)
  fadd := add;
  fsub := sub;
  fmul := mul;
  fdiv := div;
  fneg := opp;
  fabs := abs;
  fsqrt := sqrt;
  fmax := max;
  fmin := min;
  fltb := ltb;
  fleb := leb;
  ffloor := floor;
  fround := round;
  fofZ := of_Z
|}.

(** [unitVoxelGrid] over doubles: the single solid voxel occupies the world
    AABB [0,1]^3. *)
Definition unitVoxelGrid : VoxelCollider float :=
  mkCollider zero zero zero 8 8 8 one 4 1
             [0x01000001; 0x00000000] [1; 0]
             (mkPushOut zero zero zero)
             (mkPushOut zero zero zero, mkPushOut zero zero zero,
              mkPushOut zero zero zero).

(** The sphere of the concrete scenario of the specification: centre
    (0.5, 1.3, 0.5), radius 0.5 (1.3 is the double nearest to it), and the
    push-out the query reports for it. *)
Definition scenario : bool * PushOut float :=
  observed (querySphere unitVoxelGrid 0x1p-1%float 0x1.4cccccccccccdp+0%float
                        0x1p-1%float 0x1p-1%float
                        (mkPushOut zero zero zero)).

Definition scenario_expected : bool :=
  fst scenario
  && eqb (x (snd scenario)) zero
  && ltb 0x1.999999999999p-3%float (y (snd scenario))     (* 0.19999999999999 < y *)
  && ltb (y (snd scenario)) 0x1.99999999999a4p-3%float    (* y < 0.20000000000001 *)
  && eqb (z (snd scenario)) zero.

(** A capsule without height and a sphere, both centred at
    (0.5, -0, 0.5): at the negative zero, [cy + 0] is the positive zero. *)
Definition flatCapsuleAtNegativeZero : bool * PushOut float :=
  observed (queryCapsule unitVoxelGrid 0x1p-1%float (opp zero) 0x1p-1%float
                         zero 0x1p-1%float (mkPushOut zero zero zero)).

Definition sphereAtNegativeZero : bool * PushOut float :=
  observed (querySphere unitVoxelGrid 0x1p-1%float (opp zero) 0x1p-1%float
                        0x1p-1%float (mkPushOut zero zero zero)).

Definition half : float := 0x1p-1%float.
Definition quarter : float := 0x1p-2%float.
Definition threeQuarters : float := 0x1.8p-1%float.
Definition origin : PushOut float := mkPushOut zero zero zero.

End Double.

#[export] Existing Instance Double.Number_double | 10.

(** A grid of 8 x 8 x 8 voxels of edge 1 at the origin, one tree level: the
    root has the single child octant 0, a mixed leaf whose only solid voxel
    is (0, 0, 0). *)
Definition unitVoxelGrid : VoxelCollider Q :=
  mkCollider 0%Q 0%Q 0%Q 8 8 8 1%Q 4 1
             [0x01000001; 0x00000000] [1; 0]
             (mkPushOut 0%Q 0%Q 0%Q)
             (mkPushOut 0%Q 0%Q 0%Q, mkPushOut 0%Q 0%Q 0%Q, mkPushOut 0%Q 0%Q 0%Q).

(** A chain of 33 tree levels over 8 x 8 x 8 voxels: the root has the single
    child octant 0, and that child is the solid-leaf sentinel. *)
Definition deepGrid : VoxelCollider Q :=
  mkCollider 0%Q 0%Q 0%Q 8 8 8 1%Q 4 33
             [0x01000001; 0xFF000000] []
             (mkPushOut 0%Q 0%Q 0%Q)
             (mkPushOut 0%Q 0%Q 0%Q, mkPushOut 0%Q 0%Q 0%Q, mkPushOut 0%Q 0%Q 0%Q).

(** The same grid as [unitVoxelGrid], not loaded: no nodes. *)
Definition emptyGrid : VoxelCollider Q :=
  mkCollider 0%Q 0%Q 0%Q 8 8 8 1%Q 4 1 [] []
             (mkPushOut 0%Q 0%Q 0%Q)
             (mkPushOut 0%Q 0%Q 0%Q, mkPushOut 0%Q 0%Q 0%Q, mkPushOut 0%Q 0%Q 0%Q).

(** Metadata announcing two node words and two leaf words, and a binary
    response of four bytes: a single word. *)
Definition shortMetadata : VoxelMetadata Q := {|
  gridBounds_min := (0%Q, 0%Q, 0%Q);
  gridBounds_max := (4%Q, 4%Q, 4%Q);
  md_voxelResolution := 1%Q;
  md_leafSize := 4;
  md_treeDepth := 0;
  nodeCount := 2;
  leafDataCount := 2
|}.

Definition shortBuffer : list Byte.byte := [Byte.x07; Byte.x00; Byte.x00; Byte.x00].

(** A grid of one block and no tree level: its only node is at the leaf
    level and carries a child mask (octant 1) over leaf index 0. *)
Definition rootOnlyGrid : VoxelCollider Q :=
  mkCollider 0%Q 0%Q 0%Q 4 4 4 1%Q 4 0
             [0x02000000] [1; 0]
             (mkPushOut 0%Q 0%Q 0%Q)
             (mkPushOut 0%Q 0%Q 0%Q, mkPushOut 0%Q 0%Q 0%Q, mkPushOut 0%Q 0%Q 0%Q).

(** ** Comparing the overlay with the collider *)

(** The pair [queryBlock] returns for each place where the CPU traversal
    can end: 1 for the sentinel, 0 with the level for a missing octant,
    2 + leaf index for a mixed leaf. *)
Definition encodeOutcome (o : Outcome) : Z * Z :=
  match o with
  | NotTraversed => (0, 0)
  | Sentinel => (1, 0)
  | LeafNode node => (2 + band node 0x00FFFFFF, 0)
  | MissingOctant level => (0, level)
  end.

(** The traversal of a voxel takes place and stays inside the arrays: every
    node index it reads is inside [nodes], and both words of the mixed leaf
    it ends on, if any, are inside [leafData]. *)
Definition readsInside {F : Type} (c : VoxelCollider F) (ix iy iz : Z) : Prop :=
  nodes c <> []
  /\ Forall (fun i => 0 <= i < Z.of_nat (length (nodes c)))
            (fst (traversal c ix iy iz))
  /\ match snd (traversal c ix iy iz) with
     | LeafNode node =>
         2 * band node 0x00FFFFFF + 1 < Z.of_nat (length (leafData c))
     | _ => True
     end.

(** A node word in one of the two leaf forms: the solid-leaf sentinel, or a
    mixed leaf (child mask 0). *)
Definition leafForm (word : Z) : Prop :=
  word = 0xFF000000 \/ band (ushr word 24) 0xFF = 0.

(** The block [(bx, by, bz)] lies inside the grid (blocks of 4 voxels). *)
Definition blockInGrid {F : Type} (c : VoxelCollider F) (bx by_ bz : Z) : Prop :=
  (0 <= bx /\ 4 * bx + 3 < numVoxelsX c)
  /\ (0 <= by_ /\ 4 * by_ + 3 < numVoxelsY c)
  /\ (0 <= bz /\ 4 * bz + 3 < numVoxelsZ c).

(** Exhaustive check that the WGSL mask arithmetic of one step agrees with
    the JavaScript one, over the 256 child masks and the 8 octants. *)
Definition gpu_step_ok (m o : Z) : bool :=
  Bool.eqb (Z.land m (WGSL.shl 1 o) =? 0) (band m (shl 1 o) =? 0)
  && (WGSL.countOneBits (Z.land m (WGSL.sub (WGSL.shl 1 o) 1))
      =? popcount (band m (shl 1 o - 1))).

(** Exhaustive check of the mask arithmetic of one descent step, over the
    256 child masks and the 8 octants. *)
Definition mask_step_ok (m o : Z) : bool :=
  Bool.eqb (band m (shl 1 o) =? 0) (negb (Z.testbit m o))
  && (popcount (band m (shl 1 o - 1)) =? Ref.childrenBelow m o)
  && (0 <=? popcount (band m (shl 1 o - 1))).

(** ** Further parts of the sources

    The definitions below embed code around the functions above: the camera
    controllers that call the collider, the cell arithmetic of the
    overlay's coarse skip, two helpers of its shading and its dispatch. *)

(** *** Digits for the bit-counting argument *)

(** The 32-bit word with the hexadecimal digits [a0] (lowest) to [a7]. *)
Definition dig8 (a0 a1 a2 a3 a4 a5 a6 a7 : Z) : Z :=
  a0 + 16 * (a1 + 16 * (a2 + 16 * (a3 + 16 * (a4 + 16 * (a5 + 16 * (a6
     + 16 * (a7 + 16 * 0))))))).

(** Hexadecimal digit [k] of [x]. *)
Definition nibble (x k : Z) : Z := (x / 2 ^ (4 * k)) mod 16.

(** What the first two statements of [popcount] leave in a digit [v]. *)
Definition nibbleCount (v : Z) : Z :=
  let d := v - Z.land (v / 2 ^ 1) 5 in
  Z.land (d / 2 ^ 0) 3 + Z.land (d / 2 ^ 2) 3.

(** *** The range a resolver scans *)

(** The voxels a resolver visits, in the order of its three loops. *)
Definition voxelsOf (xs ys zs : list Z) : list (Z * Z * Z) :=
  flat_map (fun iz => flat_map (fun iy => map (fun ix => (ix, iy, iz)) xs) ys) zs.

(** The index range [ixMin..ixMax] x [iyMin..iyMax] x [izMin..izMax] of
    [resolveDeepestPenetration]. *)
Definition inSphereRange {F : Type} {N : Number F} (c : VoxelCollider F)
  (cx cy cz radius : F) (ix iy iz : Z) : Prop :=
  ffloor ((cx - radius - gridMinX c) / voxelResolution c)%num <= ix
    <= ffloor ((cx + radius - gridMinX c) / voxelResolution c)%num
  /\ ffloor ((cy - radius - gridMinY c) / voxelResolution c)%num <= iy
    <= ffloor ((cy + radius - gridMinY c) / voxelResolution c)%num
  /\ ffloor ((cz - radius - gridMinZ c) / voxelResolution c)%num <= iz
    <= ffloor ((cz + radius - gridMinZ c) / voxelResolution c)%num.

(** The same for [resolveDeepestPenetrationCapsule]. *)
Definition inCapsuleRange {F : Type} {N : Number F} (c : VoxelCollider F)
  (cx cy cz halfHeight radius : F) (ix iy iz : Z) : Prop :=
  ffloor ((cx - radius - gridMinX c) / voxelResolution c)%num <= ix
    <= ffloor ((cx + radius - gridMinX c) / voxelResolution c)%num
  /\ ffloor ((cy - halfHeight - radius - gridMinY c) / voxelResolution c)%num <= iy
    <= ffloor ((cy + halfHeight + radius - gridMinY c) / voxelResolution c)%num
  /\ ffloor ((cz - radius - gridMinZ c) / voxelResolution c)%num <= iz
    <= ffloor ((cz + radius - gridMinZ c) / voxelResolution c)%num.

(** *** Further laws of arithmetic *)

(** [<] is a strict order; the comparison of IEEE doubles is one, NaN
    included. *)
Class StrictLaws (F : Type) {N : Number F} : Prop := {
  fltb_irrefl : forall a : F, (a <? a)%num = false;
  fltb_trans : forall a b c : F,
    (a <? b)%num = true -> (b <? c)%num = true -> (a <? c)%num = true
}.

(** [Math.max] and [Math.min] (and the [max] and [min] of WGSL) on numbers
    that [<=] orders, and the midpoint of two ordered numbers. *)
Class MinMaxLaws (F : Type) {N : Number F} : Prop := {
  fmax_fleb : forall a b : F, fmax a b = if (b <=? a)%num then a else b;
  fmin_fleb : forall a b : F, fmin a b = if (a <=? b)%num then a else b;
  fmid_between : forall a b : F,
    (a <=? b)%num = true ->
    (a <=? (a + b) * fhalf)%num = true /\ ((a + b) * fhalf <=? b)%num = true
}.

(** *** The camera controllers (fps-controller.ts, fly-controller.ts) *)

(** The fields of [FpsController] that its vertical motion and
    [_resolveCapsuleCollision] use, for a controller whose [collider] is
    not null. *)
Record FpsController (F : Type) : Type := mkFpsController {
  collider : VoxelCollider F;
  capsuleHeight : F;
  capsuleRadius : F;
  eyeHeight : F;
  gravity : F;
  jumpSpeed : F;
  _velocityY : F;
  _onGround : bool
}.
Arguments mkFpsController {F}.
Arguments collider {F}.
Arguments capsuleHeight {F}.
Arguments capsuleRadius {F}.
Arguments eyeHeight {F}.
Arguments gravity {F}.
Arguments jumpSpeed {F}.
Arguments _velocityY {F}.
Arguments _onGround {F}.

Section Controllers.
Context {F : Type} {N : Number F}.

(** [_resolveCapsuleCollision(eyePos, isTarget)]: the controller, the
    module's [pushOut] object and [eyePos] after the call. *)
Definition _resolveCapsuleCollision (this : FpsController F) (pushOut : PushOut F)
  (eyePos : PushOut F) (isTarget : bool)
  : FpsController F * PushOut F * PushOut F :=
  let capsuleCenterPCY := (y eyePos - eyeHeight this + capsuleHeight this * fhalf)%num in
  let halfHeight := (capsuleHeight this * fhalf - capsuleRadius this)%num in
  let vx := (- x eyePos)%num in
  let vy := (- capsuleCenterPCY)%num in
  let vz := z eyePos in
  let '(hit, c', pushOut') :=
    queryCapsule (collider this) vx vy vz halfHeight (capsuleRadius this) pushOut in
  if hit then
    let pushPCX := (- x pushOut')%num in
    let pushPCY := (- y pushOut')%num in
    let pushPCZ := z pushOut' in
    let eyePos' := mkPushOut (x eyePos + pushPCX)%num (y eyePos + pushPCY)%num
                             (z eyePos + pushPCZ)%num in
    if isTarget then
      let '(v1, g1) :=
        if (pushPCY >? fzero)%num && (_velocityY this <? fzero)%num
        then (fzero, true) else (_velocityY this, _onGround this) in
      let v2 := if (pushPCY <? fzero)%num && (v1 >? fzero)%num then fzero else v1 in
      (mkFpsController c' (capsuleHeight this) (capsuleRadius this) (eyeHeight this)
                       (gravity this) (jumpSpeed this) v2 g1,
       pushOut', eyePos')
    else
      (mkFpsController c' (capsuleHeight this) (capsuleRadius this) (eyeHeight this)
                       (gravity this) (jumpSpeed this) (_velocityY this) (_onGround this),
       pushOut', eyePos')
  else
    (mkFpsController c' (capsuleHeight this) (capsuleRadius this) (eyeHeight this)
                     (gravity this) (jumpSpeed this) (_velocityY this) (_onGround this),
     pushOut', eyePos).



End Controllers.

(** *** The overlay: coarse skip, shading helpers, dispatch *)

(** [i32(e)] for a [u32] value [e], and the wrap-around of [i32] arithmetic. *)
Definition wrap_i32 (z : Z) : Z := (z + 2 ^ 31) mod 2 ^ 32 - 2 ^ 31.

(** The cell [main] steps across when [queryBlock] reports an empty region
    at [emptyLevel]: [cellBlocks], [cellMask], and [cellXMin] for the block
    coordinate [b]. *)
Definition cellBlocks (emptyLevel : Z) : Z := wrap_i32 (WGSL.shl 1 emptyLevel).

Definition cellMask (emptyLevel : Z) : Z :=
  Z.lnot (wrap_i32 (cellBlocks emptyLevel - 1)).

Definition cellMin (b emptyLevel : Z) : Z := Z.land b (cellMask emptyLevel).

(** The test [b < cellMin || b >= cellMin + cellBlocks] that ends the skip
    loop. *)
Definition leavesCell (b cmin emptyLevel : Z) : bool :=
  (b <? cmin) || (b >=? wrap_i32 (cmin + cellBlocks emptyLevel)).

Section OverlayShading.
Context {F : Type} {N : Number F}.

(** [intersectAABB(ro, invDir, bmin, bmax)]: the pair [(tNear, tFar)];
    vectors are taken by their components. *)
Definition intersectAABB (ro invDir bmin bmax : PushOut F) : F * F :=
  let t1x := ((x bmin - x ro) * x invDir)%num in
  let t1y := ((y bmin - y ro) * y invDir)%num in
  let t1z := ((z bmin - z ro) * z invDir)%num in
  let t2x := ((x bmax - x ro) * x invDir)%num in
  let t2y := ((y bmax - y ro) * y invDir)%num in
  let t2z := ((z bmax - z ro) * z invDir)%num in
  let tminx := fmin t1x t2x in
  let tminy := fmin t1y t2y in
  let tminz := fmin t1z t2z in
  let tmaxx := fmax t1x t2x in
  let tmaxy := fmax t1y t2y in
  let tmaxz := fmax t1z t2z in
  let tNear := fmax (fmax tminx tminy) tminz in
  let tFar := fmin (fmin tmaxx tmaxy) tmaxz in
  (tNear, tFar).

(** [edgeDist] of [edgeFactor]. *)
Definition edgeDist (fx fy fz : F) : F := fmax (fmin fx fy) (fmin (fmax fx fy) fz).

(** [faceAxis] of [shadeVoxelHit]. *)
Definition faceAxis (fx fy fz : F) : Z :=
  if (fy <=? fx)%num && (fy <=? fz)%num then 1
  else if (fz <=? fx)%num then 2
  else 0.

End OverlayShading.

(** [Math.ceil(n / 8)] for an integer [n]: the number of workgroups
    [update] dispatches along an axis of [n] pixels. *)
Definition workgroups (n : Z) : Z := - ((- n) / 8).

(** The guard of [main]: the invocation [(gx, gy)] goes on to draw. *)
Definition draws (screenWidth screenHeight gx gy : Z) : bool :=
  negb ((wrap_i32 gx >=? wrap_i32 screenWidth)
        || (wrap_i32 gy >=? wrap_i32 screenHeight)).

(** *** More concrete grids *)

(** A grid whose root points past the end of its node array: child index 5
    of a one-word array. *)
Definition truncatedGrid : VoxelCollider Q :=
  mkCollider 0%Q 0%Q 0%Q 8 8 8 1%Q 4 1
             [0x01000005] [1; 0]
             (mkPushOut 0%Q 0%Q 0%Q)
             (mkPushOut 0%Q 0%Q 0%Q, mkPushOut 0%Q 0%Q 0%Q, mkPushOut 0%Q 0%Q 0%Q).

(** Two tree levels over 16 x 16 x 16 voxels: the root has the single child
    octant 0, the solid-leaf sentinel, so the blocks (0..1)^3 are solid and
    the rest of the grid is empty at level 1. *)
Definition twoLevelGrid : VoxelCollider Q :=
  mkCollider 0%Q 0%Q 0%Q 16 16 16 1%Q 4 2
             [0x01000001; 0xFF000000] []
             (mkPushOut 0%Q 0%Q 0%Q)
             (mkPushOut 0%Q 0%Q 0%Q, mkPushOut 0%Q 0%Q 0%Q, mkPushOut 0%Q 0%Q 0%Q).



(** *** Numbers that [<=] orders *)

(** [<=] on the numbers that compare with themselves, which among doubles
    are all but NaN: any two of them compare, [<=] is transitive, and
    [a <= b] excludes [a > b]. IEEE doubles satisfy these laws
    ([NumberOrder_double]). *)
Class NumberOrder (F : Type) {N : Number F} : Prop := {
  fleb_comparable : forall a b : F,
    (a <=? a)%num = true -> (b <=? b)%num = true ->
    (a <=? b)%num = true \/ (b <=? a)%num = true;
  fleb_transitive : forall a b c : F,
    (a <=? b)%num = true -> (b <=? c)%num = true -> (a <=? c)%num = true;
  fleb_excludes_gt : forall a b : F, (a <=? b)%num = true -> (a >? b)%num = false
}.

(** The three absolute escapes from a box are numbers, not NaN. *)
Definition escapesAreNumbers {F : Type} {N : Number F}
  (vMin vMax point : PushOut F) (radius : F) : Prop :=
  let absX := fabs (Ref.escape (x vMin) (x vMax) (x point) radius) in
  let absY := fabs (Ref.escape (y vMin) (y vMax) (y point) radius) in
  let absZ := fabs (Ref.escape (z vMin) (z vMax) (z point) radius) in
  (absX <=? absX)%num = true /\ (absY <=? absY)%num = true
  /\ (absZ <=? absZ)%num = true.

(** *** The positions a query visits, and a segment without height *)

Section Candidates.
Context {F : Type} {N : Number F}.

(** The positions a query hands to its resolver, in order: the centre, then
    the centre moved by the pushes applied so far. *)
Fixpoint candidates
  (resolve : VoxelCollider F -> F -> F -> F -> bool * VoxelCollider F)
  (iters : nat) (c : VoxelCollider F) (st : Iter F) : list (PushOut F) :=
  match iters with
  | O => []
  | S k =>
      posOf st ::
      (let '(hit, c1) := resolve c (resolvedX st) (resolvedY st) (resolvedZ st) in
       if negb hit then []
       else
         let '(c2, st') := afterHit c1 st in
         candidates resolve k c2 st')
  end.

(** Those of [querySphere(cx, cy, cz, radius, out)]. *)
Definition sphereCandidates (c : VoxelCollider F) (cx cy cz radius : F)
  : list (PushOut F) :=
  if Z.of_nat (length (nodes c)) =? 0 then []
  else
    candidates (fun c rx ry rz => resolveDeepestPenetration c rx ry rz radius)
               maxIterations c (mkIter cx cy cz fzero fzero fzero false O).

(** [aabbCenterY] of the voxels of row [iy]. *)
Definition rowCenterY (c : VoxelCollider F) (iy : Z) : F :=
  let vMinY := (gridMinY c + fofZ iy * voxelResolution c)%num in
  let vMaxY := (vMinY + voxelResolution c)%num in
  ((vMinY + vMaxY) * fhalf)%num.

(** At height [cy] a segment without height is the point [cy]: its ends
    [cy - 0] and [cy + 0] are [cy], and so is the centre of each row the
    resolver scans once clamped to the segment. On doubles this holds
    unless [cy] is the negative zero or the centre of a row is NaN
    ([double_point_segment]). *)
Definition pointSegmentAt (c : VoxelCollider F) (cy radius : F) : Prop :=
  (cy - fzero)%num = cy
  /\ (cy + fzero)%num = cy
  /\ forall iy : Z,
       ffloor ((cy - radius - gridMinY c) / voxelResolution c)%num <= iy
         <= ffloor ((cy + radius - gridMinY c) / voxelResolution c)%num ->
       fmax cy (fmin cy (rowCenterY c iy)) = cy.

End Candidates.

(** *** Scan bounds that a counter steps through *)

Section SafeBounds.
Context {F : Type} {N : Number F}.

(** [Math.floor(q)] is the integer [ffloor q], a safe one (below [2^53] in
    absolute value): [q] is neither NaN nor infinite, and a counter that
    starts from its floor advances by [++]. *)
Definition safeFloor (q : F) : Prop :=
  - 2 ^ 53 < ffloor q < 2 ^ 53
  /\ (fofZ (ffloor q) <=? q)%num = true
  /\ (q <? fofZ (ffloor q) + fone)%num = true.

(** The six quotients whose floors bound the loops of
    [resolveDeepestPenetration]. *)
Definition sphereBounds (c : VoxelCollider F) (cx cy cz radius : F) : list F :=
  [ ((cx - radius - gridMinX c) / voxelResolution c)%num;
    ((cy - radius - gridMinY c) / voxelResolution c)%num;
    ((cz - radius - gridMinZ c) / voxelResolution c)%num;
    ((cx + radius - gridMinX c) / voxelResolution c)%num;
    ((cy + radius - gridMinY c) / voxelResolution c)%num;
    ((cz + radius - gridMinZ c) / voxelResolution c)%num ].

(** The same for [resolveDeepestPenetrationCapsule]. *)
Definition capsuleBounds (c : VoxelCollider F) (cx cy cz halfHeight radius : F)
  : list F :=
  [ ((cx - radius - gridMinX c) / voxelResolution c)%num;
    ((cy - halfHeight - radius - gridMinY c) / voxelResolution c)%num;
    ((cz - radius - gridMinZ c) / voxelResolution c)%num;
    ((cx + radius - gridMinX c) / voxelResolution c)%num;
    ((cy + halfHeight + radius - gridMinY c) / voxelResolution c)%num;
    ((cz + radius - gridMinZ c) / voxelResolution c)%num ].

End SafeBounds.

(** *** Doubles: where a capsule without height is a sphere *)


(** * Properties *)

(** ** Ranges *)

Lemma zrange_In (lo hi k : Z) : In k (zrange lo hi) <-> lo <= k <= hi.
Proof.
  unfold zrange. rewrite in_map_iff. split.
  - intros [i [<- Hi]]. apply in_seq in Hi. lia.
  - intros H. exists (Z.to_nat (k - lo)). split; [lia|].
    apply in_seq. lia.
Qed.

(** ** The 32-bit operators on the values the traversal handles *)

Lemma ToInt32_mod (a : Z) : ToInt32 a mod 2 ^ 32 = a mod 2 ^ 32.
Proof.
  unfold ToInt32.
  rewrite Zminus_mod_idemp_l. f_equal. lia.
Qed.

Lemma ToInt32_small (a : Z) : 0 <= a < 2 ^ 31 -> ToInt32 a = a.
Proof.
  intros H. unfold ToInt32. rewrite Z.mod_small; lia.
Qed.

Lemma ToInt32_mod_pow2 (a n : Z) :
  0 <= n <= 32 -> ToInt32 a mod 2 ^ n = a mod 2 ^ n.
Proof.
  intros Hn.
  assert (E : 2 ^ 32 = 2 ^ n * 2 ^ (32 - n)).
  { rewrite <- Z.pow_add_r by lia. f_equal. lia. }
  assert (Hp : 0 < 2 ^ n) by (apply Z.pow_pos_nonneg; lia).
  assert (Hq : 0 < 2 ^ (32 - n)) by (apply Z.pow_pos_nonneg; lia).
  pose proof (ToInt32_mod a) as Hm.
  rewrite E in Hm.
  rewrite !Z.rem_mul_r in Hm by lia.
  assert (H1 : (ToInt32 a mod 2 ^ n + 2 ^ n * (ToInt32 a / 2 ^ n mod 2 ^ (32 - n))) mod 2 ^ n
               = (a mod 2 ^ n + 2 ^ n * (a / 2 ^ n mod 2 ^ (32 - n))) mod 2 ^ n)
    by (rewrite Hm; reflexivity).
  rewrite !(Z.mul_comm (2 ^ n)), !Z_mod_plus_full, !Z.mod_mod in H1 by lia.
  exact H1.
Qed.

Lemma band_ones (a n : Z) :
  0 <= n <= 31 -> band a (Z.ones n) = a mod 2 ^ n.
Proof.
  intros Hn. unfold band.
  assert (Ho : 0 <= Z.ones n < 2 ^ 31).
  { rewrite Z.ones_equiv. split.
    - assert (0 < 2 ^ n) by (apply Z.pow_pos_nonneg; lia). lia.
    - assert (2 ^ n <= 2 ^ 31) by (apply Z.pow_le_mono_r; lia). lia. }
  rewrite (ToInt32_small (Z.ones n)) by exact Ho.
  rewrite Z.land_ones by lia.
  apply ToInt32_mod_pow2. lia.
Qed.

Lemma ushr_0 (a : Z) : ushr a 0 = a mod 2 ^ 32.
Proof. unfold ushr, ToUint32. reflexivity. Qed.

Lemma ushr_div (a n : Z) :
  0 <= n < 32 -> ushr a n = (a mod 2 ^ 32) / 2 ^ n.
Proof.
  intros Hn. unfold ushr, ToUint32.
  rewrite (Z.mod_small n 32) by lia.
  apply Z.shiftr_div_pow2. lia.
Qed.

Lemma band_ushr_bit (a n : Z) :
  0 <= n < 32 -> band (ushr a n) 1 = Z.b2z (Z.testbit a n).
Proof.
  intros Hn.
  change 1 with (Z.ones 1) at 1.
  rewrite band_ones by lia.
  change (2 ^ 1) with 2.
  rewrite <- Z.bit0_mod.
  unfold ushr, ToUint32. rewrite (Z.mod_small n 32) by lia.
  rewrite Z.shiftr_spec by lia.
  rewrite Z.mod_pow2_bits_low by lia.
  rewrite ?Z.add_0_l. reflexivity.
Qed.

Lemma b2z_eqb_1 (b : bool) : (Z.b2z b =? 1) = b.
Proof. destruct b; reflexivity. Qed.

Lemma SOLID_LEAF_MARKER_value : SOLID_LEAF_MARKER = 0xFF000000.
Proof. reflexivity. Qed.

Lemma read_u32_range (arr : list Z) (i : Z) : 0 <= read_u32 arr i < 2 ^ 32.
Proof.
  unfold read_u32. destruct (typed_get arr i).
  - rewrite ushr_0. apply Z.mod_pos_bound. lia.
  - lia.
Qed.

Lemma read_u32_word_at (arr : list Z) (i : Z) :
  0 <= i -> read_u32 arr i = Ref.word_at arr i.
Proof.
  intros Hi. unfold read_u32, typed_get, Ref.word_at.
  destruct (Z.ltb_spec i 0) as [|_]; [lia|].
  destruct (nth_error arr (Z.to_nat i)) as [v|] eqn:E.
  - rewrite ushr_0. rewrite (nth_error_nth _ _ 0 E). reflexivity.
  - rewrite nth_overflow by (apply nth_error_None; exact E). reflexivity.
Qed.

Lemma octant_of_bits_value (bx by_ bz : bool) :
  bor (bor (shl (Z.b2z bz) 2) (shl (Z.b2z by_) 1)) (Z.b2z bx)
  = 4 * Z.b2z bz + 2 * Z.b2z by_ + Z.b2z bx.
Proof. destruct bx, by_, bz; reflexivity. Qed.

Lemma mask_step_all :
  forallb (fun m => forallb (mask_step_ok m) (zrange 0 7)) (zrange 0 255) = true.
Proof. vm_compute. reflexivity. Qed.

Lemma mask_step (m o : Z) :
  0 <= m < 256 -> 0 <= o < 8 ->
  (band m (shl 1 o) =? 0) = negb (Z.testbit m o)
  /\ popcount (band m (shl 1 o - 1)) = Ref.childrenBelow m o
  /\ 0 <= popcount (band m (shl 1 o - 1)).
Proof.
  intros Hm Ho.
  pose proof mask_step_all as H.
  rewrite forallb_forall in H.
  specialize (H m). rewrite zrange_In in H. specialize (H ltac:(lia)).
  rewrite forallb_forall in H.
  specialize (H o). rewrite zrange_In in H. specialize (H ltac:(lia)).
  unfold mask_step_ok in H.
  apply andb_prop in H. destruct H as [H H3].
  apply andb_prop in H. destruct H as [H1 H2].
  apply Bool.eqb_prop in H1. apply Z.eqb_eq in H2. apply Z.leb_le in H3.
  auto.
Qed.

Lemma childMask_value (node : Z) :
  0 <= node < 2 ^ 32 ->
  band (ushr node 24) 0xFF = (node / 2 ^ 24) mod 2 ^ 8
  /\ 0 <= band (ushr node 24) 0xFF < 256.
Proof.
  intros Hn.
  change 0xFF with (Z.ones 8).
  rewrite band_ones by lia.
  rewrite ushr_div by lia. rewrite (Z.mod_small node) by lia.
  split; [reflexivity|].
  change 256 with (2 ^ 8). apply Z.mod_pos_bound. lia.
Qed.

Lemma baseOffset_value (node : Z) :
  band node 0x00FFFFFF = node mod 2 ^ 24
  /\ 0 <= band node 0x00FFFFFF < 2 ^ 24.
Proof.
  change 0x00FFFFFF with (Z.ones 24).
  rewrite band_ones by lia.
  split; [reflexivity|]. apply Z.mod_pos_bound. lia.
Qed.

(** ** The traversal against the reference lookup *)

Lemma band_3 (i : Z) : band i 3 = i mod 4 /\ 0 <= band i 3 < 4.
Proof.
  change 3 with (Z.ones 2). rewrite band_ones by lia.
  change (2 ^ 2) with 4. split; [reflexivity|]. apply Z.mod_pos_bound. lia.
Qed.

Lemma word_at_range (arr : list Z) (i : Z) : 0 <= Ref.word_at arr i < 2 ^ 32.
Proof. unfold Ref.word_at. apply Z.mod_pos_bound. lia. Qed.

Lemma mask64_bit (lo hi b : Z) :
  0 <= lo < 2 ^ 32 -> 0 <= b ->
  Z.testbit (Z.lor lo (Z.shiftl hi 32)) b
  = if b <? 32 then Z.testbit lo b else Z.testbit hi (b - 32).
Proof.
  intros Hlo Hb. rewrite Z.lor_spec.
  destruct (Z.ltb_spec b 32).
  - rewrite Z.shiftl_spec_low by lia. apply orb_false_r.
  - rewrite Z.shiftl_spec by lia.
    rewrite <- (Z.mod_small lo (2 ^ 32)) by lia.
    rewrite Z.mod_pow2_bits_high by lia. reflexivity.
Qed.

Lemma checkLeafByIndex_leafBit {F : Type} (c : VoxelCollider F) (node ix iy iz : Z) :
  checkLeafByIndex c node ix iy iz
  = Ref.leafBit (leafData c) (node mod 2 ^ 24) ix iy iz.
Proof.
  unfold checkLeafByIndex, Ref.leafBit.
  destruct (baseOffset_value node) as [-> Hoff].
  destruct (band_3 ix) as [Ex Hx], (band_3 iy) as [Ey Hy], (band_3 iz) as [Ez Hz].
  rewrite Ex, Ey, Ez in *.
  set (b := iz mod 4 * 16 + iy mod 4 * 4 + ix mod 4).
  assert (Hb : 0 <= b < 64) by (unfold b; lia).
  rewrite !read_u32_word_at by lia.
  rewrite (Z.mul_comm (node mod 2 ^ 24) 2).
  rewrite mask64_bit by (try apply word_at_range; lia).
  destruct (Z.ltb_spec b 32).
  - rewrite band_ushr_bit by lia. apply b2z_eqb_1.
  - rewrite band_ushr_bit by lia. apply b2z_eqb_1.
Qed.

Lemma octant_range (bx by_ bz : bool) :
  0 <= 4 * Z.b2z bz + 2 * Z.b2z by_ + Z.b2z bx < 8.
Proof. destruct bx, by_, bz; simpl; lia. Qed.

(** One step of the loop: the octant the code computes at a level below 32,
    the presence test and the child index. *)
Lemma descend_step (node blockX blockY blockZ level : Z) :
  0 <= node < 2 ^ 32 -> 0 <= level < 32 ->
  bor (bor (shl (band (ushr blockZ level) 1) 2)
           (shl (band (ushr blockY level) 1) 1))
      (band (ushr blockX level) 1)
  = 4 * Z.b2z (Z.testbit blockZ level)
    + 2 * Z.b2z (Z.testbit blockY level)
    + Z.b2z (Z.testbit blockX level)
  /\ forall octant,
      octant = 4 * Z.b2z (Z.testbit blockZ level)
               + 2 * Z.b2z (Z.testbit blockY level)
               + Z.b2z (Z.testbit blockX level) ->
      (band (band (ushr node 24) 0xFF) (shl 1 octant) =? 0)
      = negb (Z.testbit (band (ushr node 24) 0xFF) octant)
      /\ popcount (band (band (ushr node 24) 0xFF) (shl 1 octant - 1))
         = Ref.childrenBelow (band (ushr node 24) 0xFF) octant
      /\ 0 <= popcount (band (band (ushr node 24) 0xFF) (shl 1 octant - 1)).
Proof.
  intros Hn Hl. split.
  - rewrite !band_ushr_bit by lia. apply octant_of_bits_value.
  - intros octant ->. apply mask_step.
    + apply childMask_value. exact Hn.
    + apply octant_range.
Qed.

Lemma descend_lookup {F : Type} (c : VoxelCollider F)
  (blockX blockY blockZ ix iy iz : Z) (n : nat) :
  (n <= 32)%nat -> forall i, 0 <= i ->
  descend c blockX blockY blockZ ix iy iz n i
  = Ref.lookup (nodes c) (leafData c) blockX blockY blockZ ix iy iz n i.
Proof.
  induction n as [|n IH]; intros Hn i Hi.
  - simpl. unfold Ref.resolveLeaf.
    rewrite read_u32_word_at by lia. rewrite SOLID_LEAF_MARKER_value.
    destruct (_ =? _); [reflexivity|]. apply checkLeafByIndex_leafBit.
  - cbn [descend Ref.lookup]. unfold Ref.classify.
    rewrite <- read_u32_word_at by lia.
    pose proof (read_u32_range (nodes c) i) as Hr.
    set (node := read_u32 (nodes c) i) in *.
    rewrite SOLID_LEAF_MARKER_value.
    destruct (node =? 0xFF000000); [reflexivity|].
    destruct (childMask_value node Hr) as [Em _].
    destruct (baseOffset_value node) as [Eo Ho].
    destruct (descend_step node blockX blockY blockZ (Z.of_nat n) Hr ltac:(lia))
      as (Eoct & Hoct).
    cbv zeta. rewrite Eoct.
    destruct (Hoct _ eq_refl) as (Etest & Epop & Hpop).
    rewrite <- Em, <- Eo.
    destruct (band (ushr node 24) 255 =? 0).
    + rewrite Eo. apply checkLeafByIndex_leafBit.
    + rewrite Etest, Epop.
      match goal with |- context [negb ?t] => destruct t end; [|reflexivity].
      cbn [negb].
      apply IH; [lia|].
      rewrite <- Epop. lia.
Qed.

Lemma range_guard (ix iy iz nx ny nz : Z) :
  (ix <? 0) || (iy <? 0) || (iz <? 0) || (ix >=? nx) || (iy >=? ny) || (iz >=? nz)
  = negb ((0 <=? ix) && (ix <? nx) && (0 <=? iy) && (iy <? ny)
          && (0 <=? iz) && (iz <? nz)).
Proof.
  rewrite !Z.geb_leb, !Z.ltb_antisym.
  destruct (0 <=? ix), (0 <=? iy), (0 <=? iz), (nx <=? ix), (ny <=? iy), (nz <=? iz);
    reflexivity.
Qed.

Lemma range_guard' (ix iy iz nx ny nz : Z) :
  0 <= ix < nx -> 0 <= iy < ny -> 0 <= iz < nz ->
  (ix <? 0) || ((iy <? 0) || ((iz <? 0) || ((ix >=? nx) || ((iy >=? ny) || (iz >=? nz)))))
  = false.
Proof.
  intros Hx Hy Hz. rewrite !Z.geb_leb.
  destruct (Z.ltb_spec ix 0), (Z.ltb_spec iy 0), (Z.ltb_spec iz 0),
    (Z.leb_spec nx ix), (Z.leb_spec ny iy), (Z.leb_spec nz iz);
    try reflexivity; lia.
Qed.

(** C1, as stated, at a tree of 33 levels: on [deepGrid] the voxel (4, 0, 0)
    is in range and its block coordinate is 1. At level 32 the code reads
    [(1 >>> 32) & 1 = 1] (a shift count is taken modulo 32) and finds octant
    1 absent; bit 32 of the block coordinate is 0, and the lookup over the
    same arrays descends through octant 0 to the sentinel. *)
Lemma isVoxelSolid_reference_depth33 :
  (0 <= 4 < numVoxelsX deepGrid /\ 0 <= 0 < numVoxelsY deepGrid
   /\ 0 <= 0 < numVoxelsZ deepGrid)
  /\ isVoxelSolid deepGrid 4 0 0 = false
  /\ Ref.isVoxelSolid deepGrid 4 0 0 = true.
Proof. vm_compute. intuition discriminate. Qed.

(** C1 (amended): for a tree of at most 32 levels, [isVoxelSolid] is the
    reference octree lookup over the same node and leaf arrays: block
    coordinate [index / leafSize], start at node 0, sentinel first, then
    mixed leaf through the 64-bit mask at [(ix & 3, iy & 3, iz & 3)], then
    the octant from bit [level] of the block coordinates, absent octant
    empty, else the child at [baseOffset + popcount(mask below the octant)],
    and the same leaf rule after the loop. *)
Theorem isVoxelSolid_reference {F : Type} (c : VoxelCollider F) (ix iy iz : Z) :
  treeDepth c <= 32 ->
  isVoxelSolid c ix iy iz = Ref.isVoxelSolid c ix iy iz.
Proof.
  intros Hd. unfold isVoxelSolid, Ref.isVoxelSolid.
  destruct (nodes c) as [|w ws] eqn:En; [reflexivity|].
  change (Z.of_nat (length (w :: ws)) =? 0) with false. cbn [orb].
  rewrite range_guard. rewrite <- En.
  destruct (_ && _); cbn [orb negb]; [|reflexivity].
  apply descend_lookup; lia.
Qed.

Lemma isVoxelSolid_reference_witness :
  isVoxelSolid unitVoxelGrid 0 0 0 = Ref.isVoxelSolid unitVoxelGrid 0 0 0.
Proof. apply isVoxelSolid_reference. simpl. lia. Defined.

(** ** The instrumented traversal *)

Lemma descend_walk {F : Type} (c : VoxelCollider F)
  (blockX blockY blockZ ix iy iz : Z) (n : nat) :
  forall i,
  descend c blockX blockY blockZ ix iy iz n i
  = solidAt c (snd (walk c blockX blockY blockZ n i)) ix iy iz.
Proof.
  induction n as [|n IH]; intros i; cbn [descend walk].
  - destruct (_ =? _); reflexivity.
  - destruct (_ =? SOLID_LEAF_MARKER); [reflexivity|].
    destruct (_ =? 0); [reflexivity|].
    destruct (_ =? 0); [reflexivity|].
    rewrite IH. destruct (walk _ _ _ _ _ _). reflexivity.
Qed.

Lemma isVoxelSolid_traversal {F : Type} (c : VoxelCollider F) (ix iy iz : Z) :
  isVoxelSolid c ix iy iz = solidAt c (snd (traversal c ix iy iz)) ix iy iz.
Proof.
  unfold isVoxelSolid, traversal.
  destruct (_ || _); [reflexivity|]. apply descend_walk.
Qed.

Lemma walk_traversed {F : Type} (c : VoxelCollider F)
  (blockX blockY blockZ : Z) (n : nat) :
  forall i, snd (walk c blockX blockY blockZ n i) <> NotTraversed.
Proof.
  induction n as [|n IH]; intros i; cbn [walk].
  - destruct (_ =? _); discriminate.
  - destruct (_ =? SOLID_LEAF_MARKER); [discriminate|].
    destruct (_ =? 0); [discriminate|].
    destruct (_ =? 0); [discriminate|].
    match goal with
    | |- context [walk c blockX blockY blockZ n ?j] => specialize (IH j);
        destruct (walk c blockX blockY blockZ n j)
    end.
    exact IH.
Qed.

Lemma walk_sentinel {F : Type} (c : VoxelCollider F)
  (blockX blockY blockZ p : Z) (n : nat) :
  read_u32 (nodes c) p = SOLID_LEAF_MARKER ->
  forall i, In p (fst (walk c blockX blockY blockZ n i)) ->
  snd (walk c blockX blockY blockZ n i) = Sentinel
  /\ exists before, fst (walk c blockX blockY blockZ n i) = before ++ [p].
Proof.
  intros Hp. induction n as [|n IH]; intros i; cbn [walk].
  - destruct (Z.eqb_spec (read_u32 (nodes c) i) SOLID_LEAF_MARKER) as [E|E];
      cbn [fst snd]; intros [<-|[]].
    + split; [reflexivity|]. exists []. reflexivity.
    + contradiction.
  - destruct (Z.eqb_spec (read_u32 (nodes c) i) SOLID_LEAF_MARKER) as [E|E].
    { cbn [fst snd]. intros [<-|[]]. split; [reflexivity|]. exists []. reflexivity. }
    destruct (_ =? 0).
    { cbn [fst snd]. intros [<-|[]]. contradiction. }
    destruct (_ =? 0).
    { cbn [fst snd]. intros [<-|[]]. contradiction. }
    specialize (IH (band (read_u32 (nodes c) i) 16777215
                    + popcount (band (band (ushr (read_u32 (nodes c) i) 24) 255)
                        (shl 1
                           (bor (bor (shl (band (ushr blockZ (Z.of_nat n)) 1) 2)
                                     (shl (band (ushr blockY (Z.of_nat n)) 1) 1))
                                (band (ushr blockX (Z.of_nat n)) 1)) - 1)))).
    destruct (walk _ _ _ _ _ _) as [visited o]. cbn [fst snd] in *.
    intros [<-|Hin]; [contradiction|].
    destruct (IH Hin) as [Ho [before Hb]].
    split; [exact Ho|]. exists (i :: before). rewrite Hb. reflexivity.
Qed.

(** C2: when the traversal of a voxel reads a position of the node array
    holding exactly 0xFF000000, it returns there through the sentinel test
    (the position is the last one read, whatever the level, the leaf level
    after the loop included) and [isVoxelSolid] is true. *)
Theorem sentinel_always_solid {F : Type} (c : VoxelCollider F) (ix iy iz p : Z) :
  typed_get (nodes c) p = Some 0xFF000000 ->
  In p (fst (traversal c ix iy iz)) ->
  isVoxelSolid c ix iy iz = true
  /\ snd (traversal c ix iy iz) = Sentinel
  /\ exists before, fst (traversal c ix iy iz) = before ++ [p].
Proof.
  intros Hw Hin.
  assert (Hp : read_u32 (nodes c) p = SOLID_LEAF_MARKER).
  { unfold read_u32. rewrite Hw. reflexivity. }
  rewrite isVoxelSolid_traversal.
  unfold traversal in *.
  destruct (_ || _); [destruct Hin|].
  destruct (walk_sentinel c _ _ _ p _ Hp 0 Hin) as [Ho Hb].
  rewrite Ho. auto.
Qed.

Lemma sentinel_always_solid_witness :
  isVoxelSolid deepGrid 0 0 0 = true
  /\ snd (traversal deepGrid 0 0 0) = Sentinel
  /\ exists before, fst (traversal deepGrid 0 0 0) = before ++ [1].
Proof.
  apply sentinel_always_solid.
  - reflexivity.
  - vm_compute. auto.
Defined.

(** ** Out-of-range indices and the unloaded grid *)

Lemma isVoxelSolid_no_nodes {F : Type} (c : VoxelCollider F) (ix iy iz : Z) :
  nodes c = [] -> isVoxelSolid c ix iy iz = false.
Proof. intros E. unfold isVoxelSolid. rewrite E. reflexivity. Qed.

(** C4: an index that is negative or at least [numVoxels] on some axis is
    not solid and no node is read; on a grid without nodes the three
    queries report no collision (and the sphere and capsule queries leave
    the object and [out] as they were). *)
Theorem out_of_range_or_unloaded {F : Type} {N : Number F} (c : VoxelCollider F) :
  (forall ix iy iz,
      ix < 0 \/ iy < 0 \/ iz < 0
      \/ ix >= numVoxelsX c \/ iy >= numVoxelsY c \/ iz >= numVoxelsZ c ->
      isVoxelSolid c ix iy iz = false
      /\ traversal c ix iy iz = ([], NotTraversed))
  /\ (nodes c = [] ->
      forall x y z halfHeight radius out,
        queryPoint c x y z = false
        /\ querySphere c x y z radius out = (false, c, out)
        /\ queryCapsule c x y z halfHeight radius out = (false, c, out)).
Proof.
  split.
  - intros ix iy iz H.
    assert (E : traversal c ix iy iz = ([], NotTraversed)).
    { unfold traversal.
      rewrite <- !orb_assoc.
      replace ((ix <? 0) || ((iy <? 0) || ((iz <? 0) || ((ix >=? numVoxelsX c)
                 || ((iy >=? numVoxelsY c) || (iz >=? numVoxelsZ c))))))
        with true; [rewrite orb_true_r; reflexivity|].
      symmetry. rewrite !orb_true_iff.
      rewrite !Z.ltb_lt, !Z.geb_le. lia. }
    rewrite isVoxelSolid_traversal, E. auto.
  - intros E x y z halfHeight radius out. split; [|split].
    + unfold queryPoint. apply isVoxelSolid_no_nodes. exact E.
    + unfold querySphere. rewrite E. reflexivity.
    + unfold queryCapsule. rewrite E. reflexivity.
Qed.

Lemma out_of_range_or_unloaded_witness :
  (isVoxelSolid unitVoxelGrid 8 0 0 = false
   /\ traversal unitVoxelGrid 8 0 0 = ([], NotTraversed))
  /\ (queryPoint emptyGrid (1 # 2) (1 # 2) (1 # 2) = false
      /\ querySphere emptyGrid (1 # 2) (1 # 2) (1 # 2) (1 # 2) (mkPushOut 7 7 7)%Q
         = (false, emptyGrid, (mkPushOut 7 7 7)%Q)
      /\ queryCapsule emptyGrid (1 # 2) (1 # 2) (1 # 2) 1%Q (1 # 2) (mkPushOut 7 7 7)%Q
         = (false, emptyGrid, (mkPushOut 7 7 7)%Q)).
Proof.
  split.
  - apply (proj1 (out_of_range_or_unloaded unitVoxelGrid)). simpl. lia.
  - apply (proj2 (out_of_range_or_unloaded emptyGrid)). reflexivity.
Defined.

(** ** Decoding *)

Lemma slice_from_0 (arr : list Z) (n : Z) :
  0 <= n -> slice arr 0 n = firstn (Z.to_nat n) arr.
Proof.
  intros Hn. unfold slice.
  destruct (Z.ltb_spec n 0); [lia|]. cbn [Z.ltb Z.compare].
  assert (E0 : Z.min 0 (Z.of_nat (length arr)) = 0) by lia.
  rewrite E0. cbn [Z.to_nat skipn]. rewrite Z.sub_0_r.
  destruct (Z.le_ge_cases n (Z.of_nat (length arr))).
  - rewrite Z.min_l, Z.max_l by lia. reflexivity.
  - rewrite Z.min_r, Z.max_l by lia. rewrite Nat2Z.id.
    rewrite !firstn_all2 by lia. reflexivity.
Qed.

Lemma slice_next (arr : list Z) (n m : Z) :
  0 <= n -> 0 <= m ->
  slice arr n (n + m) = firstn (Z.to_nat m) (skipn (Z.to_nat n) arr).
Proof.
  intros Hn Hm. unfold slice.
  destruct (Z.ltb_spec n 0); [lia|]. destruct (Z.ltb_spec (n + m) 0); [lia|].
  set (len := Z.of_nat (length arr)).
  destruct (Z.le_ge_cases len n).
  - rewrite (Z.min_r n len) by lia.
    rewrite !skipn_all2 by lia. rewrite !firstn_nil. reflexivity.
  - rewrite (Z.min_l n len) by lia.
    destruct (Z.le_ge_cases (n + m) len).
    + rewrite Z.min_l, Z.max_l by lia. do 2 f_equal. lia.
    + rewrite Z.min_r, Z.max_l by lia.
      rewrite !firstn_all2; [reflexivity| |]; rewrite length_skipn; lia.
Qed.

Lemma new_VoxelCollider_arrays {F : Type} {N : Number F}
  (metadata : VoxelMetadata F) (ns ls : list Z) :
  nodes (new_VoxelCollider metadata ns ls) = ns
  /\ leafData (new_VoxelCollider metadata ns ls) = ls.
Proof.
  unfold new_VoxelCollider.
  destruct (gridBounds_min metadata) as [[? ?] ?].
  destruct (gridBounds_max metadata) as [[? ?] ?].
  split; reflexivity.
Qed.

(** C5, as stated, on a short buffer: the metadata announces 2 + 2 words,
    the buffer holds one; decoding raises no error and constructs a grid
    whose node array has one word and whose leaf array is empty. *)
Lemma load_short_buffer_constructs_grid :
  Uint32Array_of_buffer shortBuffer = Some [7]
  /\ Z.of_nat (length [7]) < nodeCount shortMetadata + leafDataCount shortMetadata
  /\ exists c : VoxelCollider Q,
      load (mkResponse true shortMetadata) (mkResponse true shortBuffer) = inr c
      /\ nodes c = [7] /\ leafData c = [].
Proof.
  split; [reflexivity|]. split; [reflexivity|].
  eexists. split; [reflexivity|]. split; reflexivity.
Qed.

(** C5 (amended): when both responses are ok, the metadata is a complete
    record with [nodeCount >= 0] and [leafDataCount >= 0], and the buffer is
    a whole number of u32 words, decoding constructs a grid whose [nodes]
    are the first [nodeCount] words of the buffer and whose [leafData] are
    the next [leafDataCount] words, as far as the buffer goes; with at least
    [nodeCount + leafDataCount] words the two arrays have exactly these
    lengths. A shortfall raises no error. *)
Theorem load_takes_words {F : Type} {N : Number F}
  (metadata : VoxelMetadata F) (buffer : list Byte.byte) (view : list Z) :
  Uint32Array_of_buffer buffer = Some view ->
  0 <= nodeCount metadata -> 0 <= leafDataCount metadata ->
  exists c,
    load (mkResponse true metadata) (mkResponse true buffer) = inr c
    /\ nodes c = firstn (Z.to_nat (nodeCount metadata)) view
    /\ leafData c = firstn (Z.to_nat (leafDataCount metadata))
                           (skipn (Z.to_nat (nodeCount metadata)) view)
    /\ (nodeCount metadata + leafDataCount metadata <= Z.of_nat (length view) ->
        Z.of_nat (length (nodes c)) = nodeCount metadata
        /\ Z.of_nat (length (leafData c)) = leafDataCount metadata).
Proof.
  intros Hv Hn Hl. unfold load. cbn [ok body negb]. rewrite Hv.
  eexists. split; [reflexivity|].
  destruct (new_VoxelCollider_arrays metadata
              (slice view 0 (nodeCount metadata))
              (slice view (nodeCount metadata)
                     (nodeCount metadata + leafDataCount metadata))) as [-> ->].
  rewrite slice_from_0, slice_next by lia.
  split; [reflexivity|]. split; [reflexivity|].
  intros Hlen. rewrite !length_firstn, length_skipn. lia.
Qed.

Lemma load_takes_words_witness :
  exists c : VoxelCollider Q,
    load (mkResponse true shortMetadata)
         (mkResponse true (shortBuffer ++ shortBuffer ++ shortBuffer ++ shortBuffer))
    = inr c
    /\ nodes c = firstn 2 [7; 7; 7; 7]
    /\ leafData c = firstn 2 (skipn 2 [7; 7; 7; 7])
    /\ (nodeCount shortMetadata + leafDataCount shortMetadata
        <= Z.of_nat (length [7; 7; 7; 7]) ->
        Z.of_nat (length (nodes c)) = nodeCount shortMetadata
        /\ Z.of_nat (length (leafData c)) = leafDataCount shortMetadata).
Proof.
  apply (load_takes_words shortMetadata
           (shortBuffer ++ shortBuffer ++ shortBuffer ++ shortBuffer) [7; 7; 7; 7]).
  - reflexivity.
  - simpl. lia.
  - simpl. lia.
Defined.

(** ** The output parameter *)

Lemma finishQuery_result {F : Type} {N : Number F}
  (c : VoxelCollider F) (st : Iter F) (out : PushOut F) :
  let hasSignificantPush :=
    hadCollision st
    && (totalPushX st * totalPushX st + totalPushY st * totalPushY st
        + totalPushZ st * totalPushZ st >? PENETRATION_EPSILON * PENETRATION_EPSILON)%num in
  finishQuery c st out
  = (hasSignificantPush, c,
     if hasSignificantPush
     then mkPushOut (totalPushX st) (totalPushY st) (totalPushZ st)
     else out).
Proof.
  cbv zeta. unfold finishQuery. destruct (_ && _); reflexivity.
Qed.

(** C6: a call of [querySphere] or [queryCapsule] that returns false leaves
    [out] as it was. *)
Theorem out_unmodified_without_collision {F : Type} {N : Number F}
  (c : VoxelCollider F) (cx cy cz halfHeight radius : F) (out : PushOut F) :
  (fst (fst (querySphere c cx cy cz radius out)) = false ->
   snd (querySphere c cx cy cz radius out) = out)
  /\ (fst (fst (queryCapsule c cx cy cz halfHeight radius out)) = false ->
      snd (queryCapsule c cx cy cz halfHeight radius out) = out).
Proof.
  split.
  - unfold querySphere. destruct (_ =? 0); [reflexivity|].
    destruct (queryLoop _ _ _ _) as [c' st].
    rewrite finishQuery_result. cbn [fst snd]. intros ->. reflexivity.
  - unfold queryCapsule. destruct (_ =? 0); [reflexivity|].
    destruct (queryLoop _ _ _ _) as [c' st].
    rewrite finishQuery_result. cbn [fst snd]. intros ->. reflexivity.
Qed.

Lemma out_unmodified_without_collision_witness :
  snd (querySphere unitVoxelGrid (5 # 2) (5 # 2) (5 # 2) (1 # 2) (mkPushOut 7 7 7)%Q)
  = (mkPushOut 7 7 7)%Q
  /\ snd (queryCapsule unitVoxelGrid (5 # 2) (5 # 2) (5 # 2) (1 # 2) (1 # 2)
            (mkPushOut 7 7 7)%Q)
     = (mkPushOut 7 7 7)%Q.
Proof.
  split.
  - apply (proj1 (out_unmodified_without_collision unitVoxelGrid
                    (5 # 2) (5 # 2) (5 # 2) (1 # 2) (1 # 2) (mkPushOut 7 7 7)%Q)).
    vm_compute. reflexivity.
  - apply (proj2 (out_unmodified_without_collision unitVoxelGrid
                    (5 # 2) (5 # 2) (5 # 2) (1 # 2) (1 # 2) (mkPushOut 7 7 7)%Q)).
    vm_compute. reflexivity.
Defined.

(** ** The resolvers read the grid only *)

Section Frame.
Context {F : Type} {N : Number F}.

Lemma fold_left_ext {A B : Type} (f g : A -> B -> A) (l : list B) (a : A) :
  (forall a b, f a b = g a b) -> fold_left f l a = fold_left g l a.
Proof.
  intros H. revert a. induction l as [|b l IH]; intros a; simpl.
  - reflexivity.
  - rewrite H. apply IH.
Qed.

Lemma fold_left_fixed {A B : Type} (f : A -> B -> A) (l : list B) (a : A) :
  (forall b, f a b = a) -> fold_left f l a = a.
Proof.
  intros H. induction l as [|b l IH]; simpl.
  - reflexivity.
  - rewrite H. exact IH.
Qed.

Lemma isVoxelSolid_gridOf (a b : VoxelCollider F) (ix iy iz : Z) :
  gridOf a = gridOf b -> isVoxelSolid a ix iy iz = isVoxelSolid b ix iy iz.
Proof.
  destruct a, b. unfold gridOf. cbn. intros H.
  injection H as -> -> -> -> -> -> -> -> -> -> ->. reflexivity.
Qed.

Lemma sphereVoxel_gridOf (a b : VoxelCollider F) (cx cy cz radius : F) (ix iy iz : Z) :
  gridOf a = gridOf b ->
  sphereVoxel a cx cy cz radius ix iy iz = sphereVoxel b cx cy cz radius ix iy iz.
Proof.
  intros H. unfold sphereVoxel.
  rewrite (isVoxelSolid_gridOf a b _ _ _ H).
  destruct a, b. unfold gridOf in H. cbn in H.
  injection H as -> -> -> -> -> -> -> -> -> -> ->. reflexivity.
Qed.

Lemma capsuleVoxel_gridOf (a b : VoxelCollider F) (cx cy cz halfHeight radius : F)
  (ix iy iz : Z) :
  gridOf a = gridOf b ->
  capsuleVoxel a cx cy cz halfHeight radius ix iy iz
  = capsuleVoxel b cx cy cz halfHeight radius ix iy iz.
Proof.
  intros H. unfold capsuleVoxel.
  rewrite (isVoxelSolid_gridOf a b _ _ _ H).
  destruct a, b. unfold gridOf in H. cbn in H.
  injection H as -> -> -> -> -> -> -> -> -> -> ->. reflexivity.
Qed.

Lemma gridOf_bounds (a b : VoxelCollider F) :
  gridOf a = gridOf b ->
  gridMinX a = gridMinX b /\ gridMinY a = gridMinY b /\ gridMinZ a = gridMinZ b
  /\ voxelResolution a = voxelResolution b /\ nodes a = nodes b.
Proof.
  destruct a, b. unfold gridOf. cbn. intros H.
  injection H as -> -> -> -> -> -> -> -> -> -> ->. repeat split.
Qed.

Lemma sphereScan_gridOf (a b : VoxelCollider F) (cx cy cz radius : F) :
  gridOf a = gridOf b -> sphereScan a cx cy cz radius = sphereScan b cx cy cz radius.
Proof.
  intros H. unfold sphereScan.
  destruct (gridOf_bounds a b H) as (-> & -> & -> & -> & _).
  apply fold_left_ext. intros b0 iz.
  apply fold_left_ext. intros b1 iy.
  apply fold_left_ext. intros b2 ix.
  rewrite (sphereVoxel_gridOf a b _ _ _ _ _ _ _ H). reflexivity.
Qed.

Lemma capsuleScan_gridOf (a b : VoxelCollider F) (cx cy cz halfHeight radius : F) :
  gridOf a = gridOf b ->
  capsuleScan a cx cy cz halfHeight radius = capsuleScan b cx cy cz halfHeight radius.
Proof.
  intros H. unfold capsuleScan.
  destruct (gridOf_bounds a b H) as (-> & -> & -> & -> & _).
  apply fold_left_ext. intros b0 iz.
  apply fold_left_ext. intros b1 iy.
  apply fold_left_ext. intros b2 ix.
  rewrite (capsuleVoxel_gridOf a b _ _ _ _ _ _ _ _ H). reflexivity.
Qed.

Lemma sphereScan_no_nodes (c : VoxelCollider F) (cx cy cz radius : F) :
  nodes c = [] -> found (sphereScan c cx cy cz radius) = false.
Proof.
  intros E. unfold sphereScan.
  rewrite fold_left_fixed; [reflexivity|]. intros iz.
  rewrite fold_left_fixed; [reflexivity|]. intros iy.
  rewrite fold_left_fixed; [reflexivity|]. intros ix.
  unfold sphereVoxel. rewrite isVoxelSolid_no_nodes by exact E. reflexivity.
Qed.

Lemma capsuleScan_no_nodes (c : VoxelCollider F) (cx cy cz halfHeight radius : F) :
  nodes c = [] -> found (capsuleScan c cx cy cz halfHeight radius) = false.
Proof.
  intros E. unfold capsuleScan.
  rewrite fold_left_fixed; [reflexivity|]. intros iz.
  rewrite fold_left_fixed; [reflexivity|]. intros iy.
  rewrite fold_left_fixed; [reflexivity|]. intros ix.
  unfold capsuleVoxel. rewrite isVoxelSolid_no_nodes by exact E. reflexivity.
Qed.

Lemma sphere_resolves (c0 : VoxelCollider F) (radius : F) :
  resolves c0 (fun c rx ry rz => resolveDeepestPenetration c rx ry rz radius)
           (sphereResolver c0 radius).
Proof.
  intros c rx ry rz H.
  unfold sphereResolver, resolveDeepestPenetration. cbn [x y z].
  rewrite (sphereScan_gridOf c c0 _ _ _ _ H).
  destruct (found (sphereScan c0 rx ry rz radius)); cbn [fst snd]; auto.
Qed.

Lemma capsule_resolves (c0 : VoxelCollider F) (halfHeight radius : F) :
  resolves c0
    (fun c rx ry rz => resolveDeepestPenetrationCapsule c rx ry rz halfHeight radius)
    (capsuleResolver c0 halfHeight radius).
Proof.
  intros c rx ry rz H.
  unfold capsuleResolver, resolveDeepestPenetrationCapsule. cbn [x y z].
  rewrite (capsuleScan_gridOf c c0 _ _ _ _ _ H).
  destruct (found (capsuleScan c0 rx ry rz halfHeight radius)); cbn [fst snd]; auto.
Qed.

(** ** The loop of a query against the reference iteration *)

Lemma slots_length (ns : Normals F) (k : nat) : length (slots ns k) = k.
Proof. unfold slots. rewrite length_map, length_seq. reflexivity. Qed.

Lemma slots_set_normal (ns : Normals F) (k : nat) (v : PushOut F) :
  (k < 3)%nat -> slots (set_normal ns k v) (S k) = slots ns k ++ [v].
Proof.
  intros Hk. destruct ns as [[n0 n1] n2].
  destruct k as [|[|[|k]]]; try lia; reflexivity.
Qed.

Lemma projectOut_project (ns : Normals F) (k : nat) (p : PushOut F) :
  projectOut ns k (x p, y p, z p)
  = (x (Ref.project (slots ns k) p), y (Ref.project (slots ns k) p),
     z (Ref.project (slots ns k) p)).
Proof.
  unfold projectOut, Ref.project, slots.
  generalize (seq 0 k) as l. intros l. revert p.
  induction l as [|i l IH]; intros p.
  - reflexivity.
  - cbn [map fold_left]. unfold normal_at at 2 3 4. unfold Ref.dot at 2.
    destruct ns as [[n0 n1] n2].
    destruct (fltb _ fzero).
    + apply (IH (mkPushOut _ _ _)).
    + apply IH.
Qed.

Lemma afterHit_step (c : VoxelCollider F) (st : Iter F) :
  (numNormals st <= 3)%nat ->
  let l := slots (_constraintNormals c) (numNormals st) in
  let applied := Ref.project l (_push c) in
  let c' := fst (afterHit c st) in
  let st' := snd (afterHit c st) in
  gridOf c' = gridOf c
  /\ slots (_constraintNormals c') (numNormals st') = Ref.record l (_push c)
  /\ (numNormals st' <= 3)%nat
  /\ posOf st' = mkPushOut (x (posOf st) + x applied)%num
                           (y (posOf st) + y applied)%num
                           (z (posOf st) + z applied)%num
  /\ totalOf st' = mkPushOut (x (totalOf st) + x applied)%num
                             (y (totalOf st) + y applied)%num
                             (z (totalOf st) + z applied)%num
  /\ hadCollision st' = true.
Proof.
  intros Hk. cbv zeta. unfold afterHit.
  rewrite projectOut_project.
  set (l := slots (_constraintNormals c) (numNormals st)).
  unfold Ref.record. fold l. rewrite (slots_length _ _ : length l = numNormals st).
  change (fsqrt (Ref.dot (_push c) (_push c)))
    with (fsqrt (x (_push c) * x (_push c) + y (_push c) * y (_push c)
                 + z (_push c) * z (_push c))%num).
  destruct (Nat.ltb_spec (numNormals st) 3) as [Hlt|Hge].
  - destruct (fltb PENETRATION_EPSILON _); cbn [andb fst snd numNormals].
    + cbn [_constraintNormals set_normals].
      rewrite slots_set_normal by exact Hlt.
      repeat split; lia.
    + repeat split; lia.
  - rewrite andb_false_r. cbn [fst snd numNormals]. repeat split; lia.
Qed.

Lemma queryLoop_iterate (c0 : VoxelCollider F)
  (resolve : VoxelCollider F -> F -> F -> F -> bool * VoxelCollider F)
  (resolver : PushOut F -> option (PushOut F)) :
  resolves c0 resolve resolver ->
  forall iters c st,
    gridOf c = gridOf c0 -> (numNormals st <= 3)%nat ->
    gridOf (fst (queryLoop resolve iters c st)) = gridOf c0
    /\ Ref.iterate resolver iters (posOf st)
         (slots (_constraintNormals c) (numNormals st)) (totalOf st) (hadCollision st)
       = (totalOf (snd (queryLoop resolve iters c st)),
          hadCollision (snd (queryLoop resolve iters c st))).
Proof.
  intros Hres. induction iters as [|k IH]; intros c st Hg Hk.
  - cbn. auto.
  - cbn [queryLoop Ref.iterate].
    destruct (Hres c (resolvedX st) (resolvedY st) (resolvedZ st) Hg)
      as (Hg1 & Hn1 & Hr).
    change (mkPushOut (resolvedX st) (resolvedY st) (resolvedZ st))
      with (posOf st) in Hr.
    rewrite Hr.
    destruct (resolve c (resolvedX st) (resolvedY st) (resolvedZ st)) as [hit c1].
    cbn [fst snd] in *.
    destruct hit; cbn [negb].
    + destruct (afterHit_step c1 st Hk) as (Ha & Hs & Hk' & Hp & Ht & Hh).
      destruct (afterHit c1 st) as [c2 st']. cbn [fst snd] in *.
      rewrite Hn1 in Hs, Hp, Ht.
      specialize (IH c2 st' ltac:(congruence) Hk').
      rewrite Hs, Hp, Ht, Hh in IH. exact IH.
    + cbn [fst snd]. auto.
Qed.

Lemma iterate_no_hit (resolver : PushOut F -> option (PushOut F)) (iters : nat)
  (pos : PushOut F) (l : list (PushOut F)) (total : PushOut F) (had : bool) :
  resolver pos = None -> Ref.iterate resolver iters pos l total had = (total, had).
Proof. intros H. destruct iters; cbn; [|rewrite H]; reflexivity. Qed.

Lemma iterate_ext (r1 r2 : PushOut F -> option (PushOut F)) :
  (forall p, r1 p = r2 p) ->
  forall iters pos l total had,
    Ref.iterate r1 iters pos l total had = Ref.iterate r2 iters pos l total had.
Proof.
  intros H. induction iters as [|k IH]; intros; cbn.
  - reflexivity.
  - rewrite H. destruct (r2 pos); [apply IH|reflexivity].
Qed.

(** A query, seen by its caller, is the reference iteration over its
    resolver. *)
Lemma query_observed (c : VoxelCollider F)
  (resolve : VoxelCollider F -> F -> F -> F -> bool * VoxelCollider F)
  (resolver : PushOut F -> option (PushOut F)) (cx cy cz : F) (out : PushOut F) :
  resolves c resolve resolver ->
  let q := queryLoop resolve maxIterations c
                     (mkIter cx cy cz fzero fzero fzero false O) in
  gridOf (snd (fst (finishQuery (fst q) (snd q) out))) = gridOf c
  /\ observed (finishQuery (fst q) (snd q) out)
     = reported out (Ref.iterativeQuery resolver (mkPushOut cx cy cz)).
Proof.
  intros Hres q.
  destruct (queryLoop_iterate c resolve resolver Hres maxIterations c
              (mkIter cx cy cz fzero fzero fzero false O) eq_refl ltac:(cbn; lia))
    as [Hg Hi].
  fold q in Hg, Hi.
  rewrite finishQuery_result. cbn [fst snd observed].
  split; [exact Hg|].
  unfold Ref.iterativeQuery.
  change (slots (_constraintNormals c) (numNormals (mkIter cx cy cz fzero fzero fzero false O)))
    with (@nil (PushOut F)) in Hi.
  change maxIterations with 4%nat in Hi.
  change (posOf (mkIter cx cy cz fzero fzero fzero false 0)) with (mkPushOut cx cy cz) in Hi.
  change (totalOf (mkIter cx cy cz fzero fzero fzero false 0))
    with (mkPushOut fzero fzero fzero) in Hi.
  cbn [hadCollision] in Hi.
  rewrite Hi.
  change (Ref.dot (totalOf (snd q)) (totalOf (snd q)))
    with (totalPushX (snd q) * totalPushX (snd q) + totalPushY (snd q) * totalPushY (snd q)
          + totalPushZ (snd q) * totalPushZ (snd q))%num.
  destruct (_ && _); reflexivity.
Qed.

Lemma querySphere_observed (c : VoxelCollider F) (cx cy cz radius : F)
  (out : PushOut F) :
  gridOf (snd (fst (querySphere c cx cy cz radius out))) = gridOf c
  /\ observed (querySphere c cx cy cz radius out)
     = reported out (Ref.iterativeQuery (sphereResolver c radius) (mkPushOut cx cy cz)).
Proof.
  unfold querySphere.
  destruct (Z.eqb_spec (Z.of_nat (length (nodes c))) 0) as [E|E].
  - split; [reflexivity|].
    assert (En : nodes c = []) by (destruct (nodes c); [reflexivity|discriminate]).
    unfold Ref.iterativeQuery. rewrite iterate_no_hit; [reflexivity|].
    unfold sphereResolver, resolveDeepestPenetration.
    rewrite sphereScan_no_nodes by exact En. reflexivity.
  - pose proof (query_observed c _ _ cx cy cz out (sphere_resolves c radius)) as H.
    cbv zeta in H.
    destruct (queryLoop _ _ _ _) as [c' st]. exact H.
Qed.

Lemma queryCapsule_observed (c : VoxelCollider F) (cx cy cz halfHeight radius : F)
  (out : PushOut F) :
  gridOf (snd (fst (queryCapsule c cx cy cz halfHeight radius out))) = gridOf c
  /\ observed (queryCapsule c cx cy cz halfHeight radius out)
     = reported out (Ref.iterativeQuery (capsuleResolver c halfHeight radius)
                                        (mkPushOut cx cy cz)).
Proof.
  unfold queryCapsule.
  destruct (Z.eqb_spec (Z.of_nat (length (nodes c))) 0) as [E|E].
  - split; [reflexivity|].
    assert (En : nodes c = []) by (destruct (nodes c); [reflexivity|discriminate]).
    unfold Ref.iterativeQuery. rewrite iterate_no_hit; [reflexivity|].
    unfold capsuleResolver, resolveDeepestPenetrationCapsule.
    rewrite capsuleScan_no_nodes by exact En. reflexivity.
  - pose proof (query_observed c _ _ cx cy cz out (capsule_resolves c halfHeight radius)) as H.
    cbv zeta in H.
    destruct (queryLoop _ _ _ _) as [c' st]. exact H.
Qed.

(** C3: [querySphere] and [queryCapsule] are the iterative resolution of the
    specification over their resolver: at most 4 iterations, stopping when
    the resolver reports no penetration; each push projected against the
    recorded normals [n] with [dot(push, n) < 0]; the pre-projection push
    recorded, normalized, when its length exceeds [PENETRATION_EPSILON] and
    fewer than 3 normals are recorded; result true exactly when some
    iteration found a penetration and the squared length of the total push
    exceeds [PENETRATION_EPSILON] squared, [out] being the total push then
    and left alone otherwise. *)
Theorem queries_iterate_resolver (c : VoxelCollider F)
  (cx cy cz halfHeight radius : F) (out : PushOut F) :
  observed (querySphere c cx cy cz radius out)
  = reported out (Ref.iterativeQuery (sphereResolver c radius) (mkPushOut cx cy cz))
  /\ observed (queryCapsule c cx cy cz halfHeight radius out)
     = reported out (Ref.iterativeQuery (capsuleResolver c halfHeight radius)
                                        (mkPushOut cx cy cz)).
Proof.
  split.
  - apply querySphere_observed.
  - apply queryCapsule_observed.
Qed.

End Frame.

(** ** The scratch fields *)

(** C7, as stated, on [unitVoxelGrid]: a sphere query that finds a contact
    leaves its push-out in the field [_push] of the object and a unit normal
    in [_constraintNormals]; both fields differ from before the call. *)
Lemma querySphere_writes_scratch_fields :
  let c' := snd (fst (querySphere unitVoxelGrid (1 # 2) (13 # 10) (1 # 2) (1 # 2)
                        (mkPushOut 0 0 0)%Q)) in
  _push c' <> _push unitVoxelGrid
  /\ ~ (y (_push c') == y (_push unitVoxelGrid))%Q
  /\ _constraintNormals c' <> _constraintNormals unitVoxelGrid.
Proof.
  vm_compute. split; [|split]; intros H; discriminate H.
Qed.

Section Scratch.
Context {F : Type} {N : Number F}.

Lemma iterativeQuery_ext (r1 r2 : PushOut F -> option (PushOut F)) (center : PushOut F) :
  (forall p, r1 p = r2 p) -> Ref.iterativeQuery r1 center = Ref.iterativeQuery r2 center.
Proof.
  intros H. unfold Ref.iterativeQuery. rewrite (iterate_ext r1 r2 H). reflexivity.
Qed.

Lemma sphereResolver_gridOf (a b : VoxelCollider F) (radius : F) (p : PushOut F) :
  gridOf a = gridOf b -> sphereResolver a radius p = sphereResolver b radius p.
Proof.
  intros H. unfold sphereResolver, resolveDeepestPenetration.
  rewrite (sphereScan_gridOf a b _ _ _ _ H).
  destruct (found _); reflexivity.
Qed.

Lemma capsuleResolver_gridOf (a b : VoxelCollider F) (halfHeight radius : F)
  (p : PushOut F) :
  gridOf a = gridOf b ->
  capsuleResolver a halfHeight radius p = capsuleResolver b halfHeight radius p.
Proof.
  intros H. unfold capsuleResolver, resolveDeepestPenetrationCapsule.
  rewrite (capsuleScan_gridOf a b _ _ _ _ _ H).
  destruct (found _); reflexivity.
Qed.

(** C7 (amended): a query leaves the grid fields of the object, its node and
    leaf arrays included, as they were; what it writes, besides [out], are
    the two scratch fields [_push] and [_constraintNormals], and neither the
    result of a query nor [out] after it depends on what these fields held
    before the call. *)
Theorem queries_keep_grid (c : VoxelCollider F) (p : PushOut F) (ns : Normals F)
  (cx cy cz halfHeight radius : F) (out : PushOut F) :
  gridOf (snd (fst (querySphere c cx cy cz radius out))) = gridOf c
  /\ gridOf (snd (fst (queryCapsule c cx cy cz halfHeight radius out))) = gridOf c
  /\ queryPoint (with_scratch c p ns) cx cy cz = queryPoint c cx cy cz
  /\ observed (querySphere (with_scratch c p ns) cx cy cz radius out)
     = observed (querySphere c cx cy cz radius out)
  /\ observed (queryCapsule (with_scratch c p ns) cx cy cz halfHeight radius out)
     = observed (queryCapsule c cx cy cz halfHeight radius out).
Proof.
  split; [apply querySphere_observed|].
  split; [apply queryCapsule_observed|].
  split; [|split].
  - unfold queryPoint. apply isVoxelSolid_gridOf. reflexivity.
  - rewrite (proj2 (querySphere_observed _ _ _ _ _ _)).
    rewrite (proj2 (querySphere_observed c _ _ _ _ _)).
    f_equal. apply iterativeQuery_ext. intros q.
    apply sphereResolver_gridOf. reflexivity.
  - rewrite (proj2 (queryCapsule_observed _ _ _ _ _ _ _)).
    rewrite (proj2 (queryCapsule_observed c _ _ _ _ _ _)).
    f_equal. apply iterativeQuery_ext. intros q.
    apply capsuleResolver_gridOf. reflexivity.
Qed.

End Scratch.

(** ** A capsule without height *)

Section Degenerate.
Context {F : Type} {N : Number F}.

Lemma fold_left_ext_In {A B : Type} (f g : A -> B -> A) (l : list B) :
  (forall a b, In b l -> f a b = g a b) ->
  forall a, fold_left f l a = fold_left g l a.
Proof.
  induction l as [|b l IH]; intros H a; cbn [fold_left].
  - reflexivity.
  - rewrite (H a b (or_introl eq_refl)). apply IH.
    intros a' b' Hb. apply H. right. exact Hb.
Qed.

Lemma segmentY_point (cy vMinY vMaxY : F) :
  fmax cy (fmin cy ((vMinY + vMaxY) * fhalf)%num) = cy ->
  segmentY cy cy vMinY vMaxY = cy.
Proof.
  intros H. unfold segmentY. destruct (fltb cy vMinY); [reflexivity|].
  destruct (fltb vMaxY cy); [reflexivity|]. exact H.
Qed.

Lemma capsuleVoxel_point (c : VoxelCollider F) (cx cy cz radius : F)
  (ix iy iz : Z) :
  (cy - fzero)%num = cy -> (cy + fzero)%num = cy ->
  fmax cy (fmin cy (rowCenterY c iy)) = cy ->
  capsuleVoxel c cx cy cz fzero radius ix iy iz = sphereVoxel c cx cy cz radius ix iy iz.
Proof.
  intros Hs Ha Hr. unfold capsuleVoxel, sphereVoxel. cbv zeta.
  rewrite Hs, Ha. rewrite (segmentY_point _ _ _ Hr). reflexivity.
Qed.

Lemma capsuleScan_point (c : VoxelCollider F) (cx cy cz radius : F) :
  pointSegmentAt c cy radius ->
  capsuleScan c cx cy cz fzero radius = sphereScan c cx cy cz radius.
Proof.
  intros (Hs & Ha & Hr). unfold capsuleScan, sphereScan. cbv zeta.
  rewrite Hs, Ha.
  apply fold_left_ext. intros b0 iz.
  apply fold_left_ext_In. intros b1 iy Hy. apply zrange_In in Hy.
  apply fold_left_ext. intros b2 ix.
  rewrite capsuleVoxel_point by auto. reflexivity.
Qed.

Lemma resolver_point (c : VoxelCollider F) (rx ry rz radius : F) :
  pointSegmentAt c ry radius ->
  resolveDeepestPenetrationCapsule c rx ry rz fzero radius
  = resolveDeepestPenetration c rx ry rz radius.
Proof.
  intros H. unfold resolveDeepestPenetrationCapsule, resolveDeepestPenetration.
  rewrite (capsuleScan_point _ _ _ _ _ H). reflexivity.
Qed.

Lemma pointSegmentAt_gridOf (a b : VoxelCollider F) (cy radius : F) :
  gridOf a = gridOf b -> pointSegmentAt a cy radius -> pointSegmentAt b cy radius.
Proof.
  intros H. unfold pointSegmentAt, rowCenterY.
  destruct (gridOf_bounds a b H) as (_ & -> & _ & -> & _). auto.
Qed.

Lemma afterHit_gridOf (c : VoxelCollider F) (st : Iter F) :
  gridOf (fst (afterHit c st)) = gridOf c.
Proof.
  unfold afterHit. destruct (projectOut _ _ _) as [[px py] pz].
  destruct (_ && _); reflexivity.
Qed.

Lemma resolveDeepestPenetration_gridOf (c : VoxelCollider F) (rx ry rz radius : F) :
  gridOf (snd (resolveDeepestPenetration c rx ry rz radius)) = gridOf c.
Proof.
  unfold resolveDeepestPenetration. destruct (found _); reflexivity.
Qed.

Lemma queryLoop_ext
  (f g : VoxelCollider F -> F -> F -> F -> bool * VoxelCollider F) :
  (forall c rx ry rz, f c rx ry rz = g c rx ry rz) ->
  forall iters c st, queryLoop f iters c st = queryLoop g iters c st.
Proof.
  intros H. induction iters as [|k IH]; intros c st; cbn [queryLoop].
  - reflexivity.
  - rewrite H. destruct (g c _ _ _) as [hit c1].
    destruct (negb hit); [reflexivity|].
    destruct (afterHit c1 st). apply IH.
Qed.

(** The two loops agree as long as the segment without height is a point
    at each position the sphere query visits. *)
Lemma queryLoop_point (c0 : VoxelCollider F) (radius : F) :
  forall iters c st,
    gridOf c = gridOf c0 ->
    (forall p,
        In p (candidates (fun c rx ry rz => resolveDeepestPenetration c rx ry rz radius)
                         iters c st) ->
        pointSegmentAt c0 (y p) radius) ->
    queryLoop (fun c rx ry rz => resolveDeepestPenetrationCapsule c rx ry rz fzero radius)
              iters c st
    = queryLoop (fun c rx ry rz => resolveDeepestPenetration c rx ry rz radius)
                iters c st.
Proof.
  induction iters as [|k IH]; intros c st Hg H; [reflexivity|].
  cbn [queryLoop]. cbn [candidates] in H.
  assert (Hp : pointSegmentAt c (resolvedY st) radius).
  { apply (pointSegmentAt_gridOf c0 c); [congruence|].
    apply (H (posOf st)). left. reflexivity. }
  rewrite (resolver_point c _ _ _ _ Hp).
  pose proof (resolveDeepestPenetration_gridOf c (resolvedX st) (resolvedY st)
                (resolvedZ st) radius) as Hg1.
  destruct (resolveDeepestPenetration c (resolvedX st) (resolvedY st) (resolvedZ st) radius)
    as [hit c1].
  cbn [snd] in Hg1.
  destruct hit; cbn [negb] in *; [|reflexivity].
  pose proof (afterHit_gridOf c1 st) as Hg2.
  destruct (afterHit c1 st) as [c2 st']. cbn [fst] in Hg2.
  apply IH; [congruence|].
  intros p Hin. apply H. right. exact Hin.
Qed.

(** With [halfHeight = 0] the capsule resolver coincides with the sphere
    resolver at every height [ry] where the segment without height is the
    point [ry]: the segment point is [(rx, ry, rz)] for every voxel scanned
    and the two resolvers return the same result and leave the same object.
    When this holds at each position the sphere query visits,
    [queryCapsule] with [halfHeight = 0] returns what [querySphere]
    returns, writes the same [out] and leaves the object in the same
    state. No law of arithmetic is used. *)
Lemma capsule_without_height_pointwise (c : VoxelCollider F)
  (cx cy cz radius : F) (out : PushOut F) :
  (forall rx ry rz,
      pointSegmentAt c ry radius ->
      (forall ix iy iz,
          ffloor ((ry - radius - gridMinY c) / voxelResolution c)%num <= iy
            <= ffloor ((ry + radius - gridMinY c) / voxelResolution c)%num ->
          segmentPoint c rx ry rz fzero ix iy iz = mkPushOut rx ry rz)
      /\ resolveDeepestPenetrationCapsule c rx ry rz fzero radius
         = resolveDeepestPenetration c rx ry rz radius)
  /\ ((forall p, In p (sphereCandidates c cx cy cz radius) ->
                 pointSegmentAt c (y p) radius) ->
      queryCapsule c cx cy cz fzero radius out = querySphere c cx cy cz radius out).
Proof.
  split.
  - intros rx ry rz H. split; [|apply resolver_point; exact H].
    destruct H as (Hs & Ha & Hr). intros ix iy iz Hy.
    unfold segmentPoint. rewrite Hs, Ha.
    rewrite segmentY_point; [reflexivity|]. apply (Hr iy Hy).
  - intros H. unfold queryCapsule, querySphere. unfold sphereCandidates in H.
    destruct (_ =? 0); [reflexivity|].
    rewrite (queryLoop_point c radius maxIterations c _ eq_refl H). reflexivity.
Qed.

End Degenerate.

(** In arithmetic with [a + 0 = a], [a - 0 = a] and
    [Math.max(a, Math.min(a, b)) = a] throughout, exact arithmetic for
    one, the segment without height is a point at every height, and the two
    queries agree on every input. *)
Lemma pointSegmentAt_exact {F : Type} {N : Number F} {Z0 : ZeroLaws F}
  (c : VoxelCollider F) (cy radius : F) : pointSegmentAt c cy radius.
Proof.
  split; [apply fsub_0_r|]. split; [apply fadd_0_r|].
  intros iy _. apply fmax_fmin_absorb.
Qed.

Lemma capsule_without_height_exact {F : Type} {N : Number F} {Z0 : ZeroLaws F}
  (c : VoxelCollider F) (cx cy cz radius : F) (out : PushOut F) :
  queryCapsule c cx cy cz fzero radius out = querySphere c cx cy cz radius out.
Proof.
  unfold queryCapsule, querySphere. destruct (_ =? 0); [reflexivity|].
  rewrite (queryLoop_point c radius maxIterations c _ eq_refl); [reflexivity|].
  intros p _. apply pointSegmentAt_exact.
Qed.

(** ** The push from inside a voxel *)

Section Inside.
Context {F : Type} {N : Number F} {O : NumberOrder F}.

Lemma least3_choice (a b c : F) :
  (a <=? a)%num = true -> (b <=? b)%num = true ->
  (if (a <=? b)%num && (a <=? c)%num then a
   else if (b <=? c)%num then b else c)
  = Ref.least3 a b c.
Proof.
  intros Ha Hb. unfold Ref.least3, Ref.least.
  destruct (fleb b c) eqn:Ebc.
  - destruct (fleb a b) eqn:Eab; cbn [andb]; [|reflexivity].
    rewrite (fleb_transitive a b c Eab Ebc). reflexivity.
  - destruct (fleb a c) eqn:Eac; [|rewrite andb_false_r; reflexivity].
    destruct (fleb a b) eqn:Eab; cbn [andb]; [reflexivity|].
    destruct (fleb_comparable a b Ha Hb) as [H|H]; [congruence|].
    rewrite (fleb_transitive b a c H Eac) in Ebc. discriminate.
Qed.

Lemma some_if (b1 b2 : bool) (k1 k2 k3 : Contact F) :
  (if b1 then Some k1 else if b2 then Some k2 else Some k3)
  = Some (if b1 then k1 else if b2 then k2 else k3).
Proof. destruct b1, b2; reflexivity. Qed.

(** The nearest-face branch shared by the two resolvers. *)
Lemma nearest_face_contact (vMin vMax point : PushOut F) (radius : F) :
  escapesAreNumbers vMin vMax point radius ->
  let escapeX := Ref.escape (x vMin) (x vMax) (x point) radius in
  let escapeY := Ref.escape (y vMin) (y vMax) (y point) radius in
  let escapeZ := Ref.escape (z vMin) (z vMax) (z point) radius in
  Ref.alongLeastEscape vMin vMax point radius
    (if (fabs escapeX <=? fabs escapeY)%num && (fabs escapeX <=? fabs escapeZ)%num
     then mkContact escapeX fzero fzero (fabs escapeX)
     else if (fabs escapeY <=? fabs escapeZ)%num
          then mkContact fzero escapeY fzero (fabs escapeY)
          else mkContact fzero fzero escapeZ (fabs escapeZ)).
Proof.
  intros (Hx & Hy & _). cbv zeta. unfold Ref.alongLeastEscape. cbv zeta.
  rewrite <- (least3_choice _ _ _ Hx Hy). clear Hx Hy.
  destruct (_ && _); [cbn; auto|].
  destruct (fleb _ _); cbn; auto.
Qed.

(** C8 (amended): in the resolvers of the collider, for a solid voxel whose
    AABB is within [1e-12] (squared distance [d]) of the shape's defining
    point and for a radius with [d < radius * radius] (the resolvers skip a
    voxel with [d >= radius * radius] before they come to this branch), the
    contact computed is a push along a single axis, by the escape on that
    axis (signed distance to the nearer face plus the radius outward), the
    axis being one of least absolute escape, and the penetration depth is
    [min(|escape_x|, |escape_y|, |escape_z|)]. The sphere resolver does so
    from the sphere centre, the capsule resolver from its segment point.
    The three escapes are numbers, not NaN; the laws of [<=] used are those
    of [NumberOrder], which doubles satisfy. *)
Theorem inside_voxel_least_escape (c : VoxelCollider F)
  (cx cy cz halfHeight radius : F) (ix iy iz : Z) :
  isVoxelSolid c ix iy iz = true ->
  (forall point,
      point = mkPushOut cx cy cz ->
      let d := Ref.distSqToBox (voxelMin c ix iy iz) (voxelMax c ix iy iz) point in
      (d <=? ftiny)%num = true -> (d >=? radius * radius)%num = false ->
      escapesAreNumbers (voxelMin c ix iy iz) (voxelMax c ix iy iz) point radius ->
      exists k,
        sphereVoxel c cx cy cz radius ix iy iz = Some k
        /\ Ref.alongLeastEscape (voxelMin c ix iy iz) (voxelMax c ix iy iz)
                                point radius k)
  /\ (forall point,
        point = segmentPoint c cx cy cz halfHeight ix iy iz ->
        let d := Ref.distSqToBox (voxelMin c ix iy iz) (voxelMax c ix iy iz) point in
        (d <=? ftiny)%num = true -> (d >=? radius * radius)%num = false ->
        escapesAreNumbers (voxelMin c ix iy iz) (voxelMax c ix iy iz) point radius ->
        exists k,
          capsuleVoxel c cx cy cz halfHeight radius ix iy iz = Some k
          /\ Ref.alongLeastEscape (voxelMin c ix iy iz) (voxelMax c ix iy iz)
                                  point radius k).
Proof.
  intros Hs. split.
  - intros point -> d Hin Hpen Hnum.
    unfold sphereVoxel. rewrite Hs. cbn [negb]. cbv zeta.
    unfold d in Hin, Hpen. unfold Ref.distSqToBox, Ref.clamp in Hin, Hpen.
    cbn [x y z voxelMin voxelMax] in Hin, Hpen.
    rewrite Hpen. rewrite (fleb_excludes_gt _ _ Hin). rewrite some_if.
    eexists. split; [reflexivity|].
    apply (nearest_face_contact (voxelMin c ix iy iz) (voxelMax c ix iy iz)
             (mkPushOut cx cy cz) radius Hnum).
  - intros point -> d Hin Hpen Hnum.
    unfold capsuleVoxel. rewrite Hs. cbn [negb]. cbv zeta.
    unfold d in Hin, Hpen. unfold Ref.distSqToBox, Ref.clamp, segmentPoint in Hin, Hpen.
    cbn [x y z voxelMin voxelMax] in Hin, Hpen.
    rewrite Hpen. rewrite (fleb_excludes_gt _ _ Hin). rewrite some_if.
    eexists. split; [reflexivity|].
    apply (nearest_face_contact (voxelMin c ix iy iz) (voxelMax c ix iy iz)
             (segmentPoint c cx cy cz halfHeight ix iy iz) radius Hnum).
Qed.

End Inside.

(** ** The rationals satisfy the laws *)

#[export] Instance OrderLaws_Q : OrderLaws Q.
Proof.
  constructor; cbn [fleb fltb Number_Q].
  - intros a b. rewrite !Qle_bool_iff.
    destruct (Qlt_le_dec a b) as [H|H]; [left; apply Qlt_le_weak; exact H|right; exact H].
  - intros a b c. rewrite !Qle_bool_iff. apply Qle_trans.
  - intros a b H. unfold Qltb. rewrite H. reflexivity.
Qed.

#[export] Instance ZeroLaws_Q : ZeroLaws Q.
Proof.
  constructor; cbn [fadd fsub fzero fmax fmin Number_Q].
  - intros [n d]. unfold Qplus. cbn [Qnum Qden].
    rewrite Z.mul_1_r, Z.add_0_r, Pos.mul_1_r. reflexivity.
  - intros [n d]. unfold Qminus, Qplus, Qopp. cbn [Qnum Qden Z.opp].
    rewrite Z.mul_1_r, Z.add_0_r, Pos.mul_1_r. reflexivity.
  - intros a b. unfold Qmax, Qmin, GenericMinMax.gmax, GenericMinMax.gmin.
    destruct (a ?= b)%Q eqn:E; try rewrite E; try reflexivity.
    + destruct (a ?= a)%Q; reflexivity.
    + destruct (a ?= a)%Q; reflexivity.
Qed.

#[export] Instance NumberOrder_Q : NumberOrder Q.
Proof.
  constructor.
  - intros a b _ _. apply fleb_total.
  - apply fleb_trans.
  - apply fleb_not_gt.
Qed.

(** ** IEEE doubles: the order, the zeros and NaN

    From the specification of the comparison, the addition and the
    subtraction of binary64 ([SpecFloat]). *)

Lemma SFcompare_antisym (a b : SpecFloat.spec_float) :
  SpecFloat.SFcompare b a = option_map CompOpp (SpecFloat.SFcompare a b).
Proof.
  destruct a as [sa|sa| |sa ma ea], b as [sb|sb| |sb mb eb]; cbn;
    try reflexivity;
    try (destruct sa; reflexivity); try (destruct sb; reflexivity);
    try (destruct sa, sb; reflexivity).
  rewrite (Z.compare_antisym ea eb).
  assert (E : PosDef.Pos.compare_cont Eq mb ma
              = CompOpp (PosDef.Pos.compare_cont Eq ma mb))
    by (symmetry; apply (Pos.compare_cont_antisym ma mb Eq)).
  rewrite E.
  destruct sa, sb; try reflexivity;
    destruct (ea ?= eb); cbn; try reflexivity.
Qed.

Lemma SFleb_total (a b : SpecFloat.spec_float) :
  SpecFloat.SFleb a a = true -> SpecFloat.SFleb b b = true ->
  SpecFloat.SFleb a b = true \/ SpecFloat.SFleb b a = true.
Proof.
  unfold SpecFloat.SFleb. rewrite (SFcompare_antisym a b).
  destruct a as [sa|sa| |sa ma ea], b as [sb|sb| |sb mb eb];
    try discriminate; intros _ _.
  all: destruct (SpecFloat.SFcompare _ _) as [[| |]|] eqn:E; cbn; auto.
  all: cbn in E; discriminate E.
Qed.

Lemma SFleb_not_gt (a b : SpecFloat.spec_float) :
  SpecFloat.SFleb a b = true -> SpecFloat.SFltb b a = false.
Proof.
  unfold SpecFloat.SFleb, SpecFloat.SFltb. rewrite (SFcompare_antisym a b).
  destruct (SpecFloat.SFcompare a b) as [[| |]|]; cbn; congruence.
Qed.

(** The order by exponent, then mantissa, is transitive. *)
Lemma lex_trans (e1 e2 e3 : Z) (m1 m2 m3 : positive) :
  match e1 ?= e2 with Eq => Pos.compare m1 m2 | c => c end <> Gt ->
  match e2 ?= e3 with Eq => Pos.compare m2 m3 | c => c end <> Gt ->
  match e1 ?= e3 with Eq => Pos.compare m1 m3 | c => c end <> Gt.
Proof.
  destruct (Z.compare_spec e1 e2), (Z.compare_spec e2 e3), (Z.compare_spec e1 e3);
    subst; try lia; try congruence.
  destruct (Pos.compare_spec m1 m2), (Pos.compare_spec m2 m3), (Pos.compare_spec m1 m3);
    subst; try lia; congruence.
Qed.

Lemma SFleb_trans (a b c : SpecFloat.spec_float) :
  SpecFloat.SFleb a b = true -> SpecFloat.SFleb b c = true ->
  SpecFloat.SFleb a c = true.
Proof.
  unfold SpecFloat.SFleb.
  destruct a as [sa|sa| |sa ma ea], b as [sb|sb| |sb mb eb], c as [sc|sc| |sc mc ec];
    cbn; try discriminate; try reflexivity;
    try (destruct sa; try discriminate; try reflexivity;
         destruct sb; try discriminate; try reflexivity;
         destruct sc; try discriminate; reflexivity);
    try (destruct sa, sb; try discriminate; reflexivity);
    try (destruct sa, sc; try discriminate; reflexivity);
    try (destruct sb, sc; try discriminate; try reflexivity; destruct sa; try discriminate; reflexivity).
  all: try (destruct sa, sb, sc; try discriminate; try reflexivity).
  - (* all negative *)
    change (PosDef.Pos.compare_cont Eq) with Pos.compare.
    pose proof (lex_trans ec eb ea mc mb ma) as L.
    rewrite (Z.compare_antisym ea eb), (Z.compare_antisym eb ec), (Z.compare_antisym ea ec) in L.
    rewrite (Pos.compare_antisym ma mb), (Pos.compare_antisym mb mc), (Pos.compare_antisym ma mc) in L.
    destruct (ea ?= eb), (eb ?= ec), (ea ?= ec); cbn in *;
      destruct (Pos.compare ma mb), (Pos.compare mb mc), (Pos.compare ma mc); cbn in *;
      try discriminate; try reflexivity; intros; exfalso; apply L; congruence.
  - change (PosDef.Pos.compare_cont Eq) with Pos.compare.
    pose proof (lex_trans ea eb ec ma mb mc) as L.
    destruct (ea ?= eb), (eb ?= ec), (ea ?= ec); cbn in *;
      destruct (Pos.compare ma mb), (Pos.compare mb mc), (Pos.compare ma mc); cbn in *;
      try discriminate; try reflexivity; intros; exfalso; apply L; congruence.
Qed.

#[export] Instance NumberOrder_double : NumberOrder PrimFloat.float.
Proof.
  constructor; cbn [fleb fltb Double.Number_double].
  - intros a b. rewrite !FloatAxioms.leb_spec. apply SFleb_total.
  - intros a b c. rewrite !FloatAxioms.leb_spec. apply SFleb_trans.
  - intros a b. rewrite FloatAxioms.leb_spec, FloatAxioms.ltb_spec. apply SFleb_not_gt.
Qed.








Lemma inside_voxel_least_escape_witness :
  (exists k,
      sphereVoxel Double.unitVoxelGrid Double.half Double.threeQuarters
                  Double.half Double.half 0 0 0 = Some k
      /\ Ref.alongLeastEscape (voxelMin Double.unitVoxelGrid 0 0 0)
           (voxelMax Double.unitVoxelGrid 0 0 0)
           (mkPushOut Double.half Double.threeQuarters Double.half)
           Double.half k)
  /\ (exists k,
        capsuleVoxel Double.unitVoxelGrid Double.half Double.threeQuarters
                     Double.half Double.quarter Double.half 0 0 0 = Some k
        /\ Ref.alongLeastEscape (voxelMin Double.unitVoxelGrid 0 0 0)
             (voxelMax Double.unitVoxelGrid 0 0 0)
             (segmentPoint Double.unitVoxelGrid Double.half Double.threeQuarters
                           Double.half Double.quarter 0 0 0)
             Double.half k).
Proof.
  split.
  - apply (proj1 (inside_voxel_least_escape Double.unitVoxelGrid
                    Double.half Double.threeQuarters Double.half
                    Double.quarter Double.half 0 0 0 eq_refl)
                 (mkPushOut Double.half Double.threeQuarters Double.half)
                 eq_refl);
      vm_compute; try reflexivity; repeat split.
  - apply (proj2 (inside_voxel_least_escape Double.unitVoxelGrid
                    Double.half Double.threeQuarters Double.half
                    Double.quarter Double.half 0 0 0 eq_refl)
                 _ eq_refl);
      vm_compute; try reflexivity; repeat split.
Defined.

(** The same sphere and capsule on doubles: the sphere, centred at
    (0.5, 0.75, 0.5), is pushed by (0, 0.75, 0), a quarter to the upper
    face plus the radius; the capsule, whose segment point is the centre of
    the voxel, by (1, 0, 0). *)
Lemma inside_voxel_on_doubles :
  sphereVoxel Double.unitVoxelGrid Double.half Double.threeQuarters
              Double.half Double.half 0 0 0
  = Some (mkContact PrimFloat.zero Double.threeQuarters PrimFloat.zero
                    Double.threeQuarters)
  /\ capsuleVoxel Double.unitVoxelGrid Double.half Double.threeQuarters
                  Double.half Double.quarter Double.half 0 0 0
     = Some (mkContact PrimFloat.one PrimFloat.zero PrimFloat.zero PrimFloat.one).
Proof. split; vm_compute; reflexivity. Qed.

(** C8, as stated, at radius 0: the point (0.5, 0.75, 0.5) lies inside the
    solid voxel (0, 0, 0) of [unitVoxelGrid], at squared distance 0 from its
    AABB, and the least escape is 0.25, along Y. The sphere resolver skips
    the voxel ([distSq >= radiusSq], both 0) and computes no contact, the
    capsule resolver does the same from its segment point, and
    [querySphere] reports no collision and leaves [out] alone, for a point
    that [queryPoint] finds solid. *)
Lemma inside_voxel_skipped_without_radius :
  isVoxelSolid Double.unitVoxelGrid 0 0 0 = true
  /\ (Ref.distSqToBox (voxelMin Double.unitVoxelGrid 0 0 0)
        (voxelMax Double.unitVoxelGrid 0 0 0)
        (mkPushOut Double.half Double.threeQuarters Double.half) <=? ftiny)%num = true
  /\ Ref.alongLeastEscape (voxelMin Double.unitVoxelGrid 0 0 0)
       (voxelMax Double.unitVoxelGrid 0 0 0)
       (mkPushOut Double.half Double.threeQuarters Double.half) fzero
       (mkContact fzero Double.quarter fzero Double.quarter)
  /\ sphereVoxel Double.unitVoxelGrid Double.half Double.threeQuarters Double.half
                 fzero 0 0 0 = None
  /\ capsuleVoxel Double.unitVoxelGrid Double.half Double.threeQuarters Double.half
                  Double.quarter fzero 0 0 0 = None
  /\ querySphere Double.unitVoxelGrid Double.half Double.threeQuarters Double.half
                 fzero Double.origin
     = (false, Double.unitVoxelGrid, Double.origin)
  /\ queryPoint Double.unitVoxelGrid Double.half Double.threeQuarters Double.half = true.
Proof.
  split; [vm_compute; reflexivity|]. split; [vm_compute; reflexivity|].
  split.
  - unfold Ref.alongLeastEscape. cbv zeta.
    split; [vm_compute; reflexivity|]. right. left. vm_compute. reflexivity.
  - repeat split; vm_compute; reflexivity.
Qed.




(** ** The overlay's block lookup against the traversal *)

Lemma gpu_step_all :
  forallb (fun m => forallb (gpu_step_ok m) (zrange 0 7)) (zrange 0 255) = true.
Proof. vm_compute. reflexivity. Qed.

Lemma gpu_step (m o : Z) :
  0 <= m < 256 -> 0 <= o < 8 ->
  (Z.land m (WGSL.shl 1 o) =? 0) = (band m (shl 1 o) =? 0)
  /\ WGSL.countOneBits (Z.land m (WGSL.sub (WGSL.shl 1 o) 1))
     = popcount (band m (shl 1 o - 1)).
Proof.
  intros Hm Ho.
  pose proof gpu_step_all as H.
  rewrite forallb_forall in H.
  specialize (H m). rewrite zrange_In in H. specialize (H ltac:(lia)).
  rewrite forallb_forall in H.
  specialize (H o). rewrite zrange_In in H. specialize (H ltac:(lia)).
  unfold gpu_step_ok in H.
  apply andb_prop in H. destruct H as [H1 H2].
  apply Bool.eqb_prop in H1. apply Z.eqb_eq in H2. auto.
Qed.

Lemma gpu_octant_value (bx by_ bz : bool) :
  Z.lor (Z.lor (WGSL.shl (Z.b2z bz) 2) (WGSL.shl (Z.b2z by_) 1)) (Z.b2z bx)
  = 4 * Z.b2z bz + 2 * Z.b2z by_ + Z.b2z bx.
Proof. destruct bx, by_, bz; reflexivity. Qed.

Lemma gpu_load_read (oob : Z) (arr : list Z) (i : Z) :
  0 <= i < Z.of_nat (length arr) ->
  WGSL.load oob (WGSL.uploadBuffer arr) i = read_u32 arr i.
Proof.
  intros Hi. unfold WGSL.load, read_u32, typed_get, WGSL.uploadBuffer, WGSL.u32.
  destruct arr as [|a arr]; [cbn in Hi; lia|].
  destruct (Z.ltb_spec i 0); [lia|].
  destruct (nth_error (a :: arr) (Z.to_nat i)) as [v|] eqn:E.
  - rewrite ushr_0. reflexivity.
  - apply nth_error_None in E. lia.
Qed.

Lemma land_1_bit (s : Z) : Z.land s 1 = Z.b2z (Z.testbit s 0).
Proof.
  change 1 with (Z.ones 1). rewrite Z.land_ones by lia.
  change (2 ^ 1) with 2. symmetry. apply Z.bit0_mod.
Qed.

Lemma band_1_bit (s : Z) : band s 1 = Z.b2z (Z.testbit s 0).
Proof.
  change 1 with (Z.ones 1) at 1. rewrite band_ones by lia.
  change (2 ^ 1) with 2. symmetry. apply Z.bit0_mod.
Qed.

Lemma gpu_shr_ushr (b level : Z) : WGSL.shr (WGSL.u32 b) level = ushr b level.
Proof. reflexivity. Qed.

Lemma gpu_childMask (node : Z) :
  0 <= node < 2 ^ 32 ->
  Z.land (WGSL.shr node 24) 0xFF = band (ushr node 24) 0xFF.
Proof.
  intros Hn. destruct (childMask_value node Hn) as [-> _].
  unfold WGSL.shr. change (24 mod 32) with 24.
  rewrite Z.shiftr_div_pow2 by lia.
  change 0xFF with (Z.ones 8). apply Z.land_ones. lia.
Qed.

Lemma gpu_baseOffset (node : Z) : Z.land node 0x00FFFFFF = band node 0x00FFFFFF.
Proof.
  destruct (baseOffset_value node) as [-> _].
  change 0x00FFFFFF with (Z.ones 24). apply Z.land_ones. lia.
Qed.

Lemma u32_small (a : Z) : 0 <= a < 2 ^ 32 -> WGSL.u32 a = a.
Proof. intros H. unfold WGSL.u32. apply Z.mod_small. exact H. Qed.

Section OverlayAgreement.
Context {F : Type}.
Variable oob : Z.
Variable c : VoxelCollider F.
Variables bx by_ bz : Z.

Let inside (i : Z) : Prop := 0 <= i < Z.of_nat (length (nodes c)).

Lemma queryBlockLeaf_walk (i : Z) :
  inside i ->
  queryBlockLeaf oob c i = encodeOutcome (snd (walk c bx by_ bz 0 i)).
Proof.
  intros Hi. unfold queryBlockLeaf, gpu_nodes. cbn [walk].
  rewrite gpu_load_read by exact Hi. rewrite SOLID_LEAF_MARKER_value.
  destruct (_ =? _); [reflexivity|]. cbn [snd encodeOutcome].
  rewrite gpu_baseOffset.
  destruct (baseOffset_value (read_u32 (nodes c) i)) as [_ Hb].
  unfold WGSL.add. rewrite u32_small by lia. reflexivity.
Qed.

(** One pass of the two loop bodies, from the same node word. *)
Lemma gpu_body (node level : Z) :
  0 <= node < 2 ^ 32 ->
  let childMask := band (ushr node 24) 0xFF in
  let octant := bor (bor (shl (band (ushr bz level) 1) 2)
                         (shl (band (ushr by_ level) 1) 1))
                    (band (ushr bx level) 1) in
  let goctant := Z.lor (Z.lor (WGSL.shl (Z.land (WGSL.shr (WGSL.u32 bz) level) 1) 2)
                              (WGSL.shl (Z.land (WGSL.shr (WGSL.u32 by_) level) 1) 1))
                       (Z.land (WGSL.shr (WGSL.u32 bx) level) 1) in
  goctant = octant
  /\ (Z.land childMask (WGSL.shl 1 octant) =? 0) = (band childMask (shl 1 octant) =? 0)
  /\ WGSL.add (Z.land node 0x00FFFFFF)
              (WGSL.countOneBits (Z.land childMask (WGSL.sub (WGSL.shl 1 octant) 1)))
     = band node 0x00FFFFFF + popcount (band childMask (shl 1 octant - 1)).
Proof.
  intros Hn. cbv zeta.
  rewrite !gpu_shr_ushr, !land_1_bit, !band_1_bit.
  rewrite gpu_octant_value, octant_of_bits_value.
  split; [reflexivity|].
  destruct (childMask_value node Hn) as [_ Hm].
  destruct (gpu_step _ _ Hm (octant_range (Z.testbit (ushr bx level) 0)
                                          (Z.testbit (ushr by_ level) 0)
                                          (Z.testbit (ushr bz level) 0))) as [E1 E2].
  destruct (mask_step _ _ Hm (octant_range (Z.testbit (ushr bx level) 0)
                                           (Z.testbit (ushr by_ level) 0)
                                           (Z.testbit (ushr bz level) 0)))
    as (_ & E3 & Hp).
  split; [exact E1|].
  rewrite E2, gpu_baseOffset.
  destruct (baseOffset_value node) as [_ Hb].
  assert (Hc : Ref.childrenBelow (band (ushr node 24) 255)
                 (4 * Z.b2z (Z.testbit (ushr bz level) 0)
                  + 2 * Z.b2z (Z.testbit (ushr by_ level) 0)
                  + Z.b2z (Z.testbit (ushr bx level) 0)) <= 8).
  { unfold Ref.childrenBelow.
    pose proof (filter_length_le (Z.testbit (band (ushr node 24) 255))
                  (zrange 0 (4 * Z.b2z (Z.testbit (ushr bz level) 0)
                             + 2 * Z.b2z (Z.testbit (ushr by_ level) 0)
                             + Z.b2z (Z.testbit (ushr bx level) 0) - 1))) as Hf.
    unfold zrange in Hf at 2. rewrite length_map, length_seq in Hf.
    pose proof (octant_range (Z.testbit (ushr bx level) 0)
                  (Z.testbit (ushr by_ level) 0) (Z.testbit (ushr bz level) 0)).
    lia. }
  rewrite E3 in *. unfold WGSL.add. apply u32_small. lia.
Qed.

(** The loop of [queryBlock] unfolded once. *)
Lemma queryBlockLoop_eq (n : nat) (level i : Z) :
  queryBlockLoop oob c bx by_ bz n level i
  = let node := WGSL.load oob (gpu_nodes c) i in
    if node =? 0xFF000000 then (1, 0)
    else
      let childMask := Z.land (WGSL.shr node 24) 0xFF in
      if childMask =? 0 then (WGSL.add 2 (Z.land node 0x00FFFFFF), 0)
      else
        let octant :=
          Z.lor (Z.lor (WGSL.shl (Z.land (WGSL.shr (WGSL.u32 bz) level) 1) 2)
                       (WGSL.shl (Z.land (WGSL.shr (WGSL.u32 by_) level) 1) 1))
                (Z.land (WGSL.shr (WGSL.u32 bx) level) 1) in
        if Z.land childMask (WGSL.shl 1 octant) =? 0 then (0, level)
        else
          let nodeIndex :=
            WGSL.add (Z.land node 0x00FFFFFF)
                     (WGSL.countOneBits
                        (Z.land childMask (WGSL.sub (WGSL.shl 1 octant) 1))) in
          if level =? 0 then queryBlockLeaf oob c nodeIndex
          else
            match n with
            | S n' => queryBlockLoop oob c bx by_ bz n' (WGSL.sub level 1) nodeIndex
            | O => queryBlockLeaf oob c nodeIndex
            end.
Proof. destruct n; reflexivity. Qed.

Lemma gpuFrom_rest (m : nat) (j : Z) :
  Z.of_nat m < 2 ^ 32 ->
  (if Z.of_nat m =? 0 then queryBlockLeaf oob c j
   else match m with
        | S m' => queryBlockLoop oob c bx by_ bz m' (WGSL.sub (Z.of_nat m) 1) j
        | O => queryBlockLeaf oob c j
        end)
  = gpuFrom oob c bx by_ bz m j.
Proof.
  intros Hm. destruct m as [|m']; [reflexivity|].
  destruct (Z.eqb_spec (Z.of_nat (S m')) 0) as [E|_]; [lia|].
  cbn [gpuFrom].
  replace (WGSL.sub (Z.of_nat (S m')) 1) with (Z.of_nat m')
    by (unfold WGSL.sub; rewrite u32_small; lia).
  reflexivity.
Qed.

Lemma gpuFrom_walk (n : nat) :
  Z.of_nat n <= 2 ^ 32 ->
  forall i,
    Forall inside (fst (walk c bx by_ bz n i)) ->
    gpuFrom oob c bx by_ bz n i = encodeOutcome (snd (walk c bx by_ bz n i)).
Proof.
  induction n as [|m IH]; intros Hn i Hin.
  - apply queryBlockLeaf_walk. cbn [walk] in Hin.
    destruct (_ =? _) in Hin; inversion Hin; assumption.
  - cbn [gpuFrom]. rewrite queryBlockLoop_eq. cbv zeta.
    cbn [walk] in Hin |- *.
    assert (Hi : inside i).
    { destruct (_ =? SOLID_LEAF_MARKER) in Hin; [inversion Hin; assumption|].
      destruct (_ =? 0) in Hin; [inversion Hin; assumption|].
      destruct (_ =? 0) in Hin; [inversion Hin; assumption|].
      destruct (walk _ _ _ _ _ _) in Hin. inversion Hin; assumption. }
    unfold gpu_nodes. rewrite gpu_load_read by exact Hi.
    pose proof (read_u32_range (nodes c) i) as Hr.
    set (node := read_u32 (nodes c) i) in *.
    rewrite SOLID_LEAF_MARKER_value in *.
    destruct (node =? 0xFF000000); [reflexivity|].
    rewrite gpu_childMask by exact Hr.
    destruct (band (ushr node 24) 255 =? 0).
    { cbn [snd encodeOutcome]. rewrite gpu_baseOffset.
      destruct (baseOffset_value node) as [_ Hb].
      unfold WGSL.add. rewrite u32_small by lia. reflexivity. }
    destruct (gpu_body node (Z.of_nat m) Hr) as (Eo & Et & Ei).
    cbv zeta in Eo, Et, Ei. rewrite Eo, Et, Ei.
    destruct (_ =? 0); [reflexivity|].
    rewrite gpuFrom_rest by lia.
    match type of Hin with
    | context [walk c bx by_ bz m ?j] =>
        specialize (IH ltac:(lia) j);
        destruct (walk c bx by_ bz m j) as [visited o]
    end.
    cbn [fst snd] in *. apply IH. inversion Hin; assumption.
Qed.

End OverlayAgreement.

Lemma land_pow2_test (a b : Z) :
  0 <= b -> negb (Z.land a (2 ^ b) =? 0) = Z.testbit a b.
Proof.
  intros Hb. destruct (Z.testbit a b) eqn:E.
  - destruct (Z.eqb_spec (Z.land a (2 ^ b)) 0) as [H0|]; [|reflexivity].
    assert (Ht : Z.testbit (Z.land a (2 ^ b)) b = true).
    { rewrite Z.land_spec, E, Z.pow2_bits_true by lia. reflexivity. }
    rewrite H0, Z.bits_0 in Ht. discriminate.
  - assert (H0 : Z.land a (2 ^ b) = 0).
    { apply Z.bits_inj'. intros i Hi. rewrite Z.land_spec, Z.bits_0.
      rewrite Z.pow2_bits_eqb by lia.
      destruct (Z.eqb_spec b i) as [<-|]; [rewrite E; reflexivity|apply andb_false_r]. }
    rewrite H0. reflexivity.
Qed.

Lemma gpu_shl_1 (b : Z) : 0 <= b < 32 -> WGSL.shl 1 b = 2 ^ b.
Proof.
  intros Hb. unfold WGSL.shl. rewrite (Z.mod_small b 32) by lia.
  rewrite Z.shiftl_1_l. apply u32_small. split.
  - apply Z.pow_nonneg. lia.
  - apply Z.pow_lt_mono_r; lia.
Qed.

(** The voxel test of [main] on the pair [queryBlock] returns, against the
    boolean [isVoxelSolid] returns where the traversal of the voxel ends. *)
Lemma blockVoxelSolid_solidAt {F : Type} (oob : Z) (c : VoxelCollider F)
  (o : Outcome) (bx by_ bz vx vy vz : Z) :
  0 <= vx < 4 -> 0 <= vy < 4 -> 0 <= vz < 4 ->
  match o with
  | LeafNode node => 2 * band node 0x00FFFFFF + 1 < Z.of_nat (length (leafData c))
  | _ => True
  end ->
  blockVoxelSolid oob c (fst (encodeOutcome o)) vx vy vz
  = solidAt c o (4 * bx + vx) (4 * by_ + vy) (4 * bz + vz).
Proof.
  intros Hx Hy Hz Hleaf. destruct o as [| |node|level]; try reflexivity.
  cbn [encodeOutcome fst solidAt]. unfold blockVoxelSolid, checkLeafByIndex.
    destruct (baseOffset_value node) as [_ Hb].
    set (idx := band node 0x00FFFFFF) in *.
    destruct (Z.eqb_spec (2 + idx) 0) as [|_]; [lia|].
    destruct (Z.gtb_spec (2 + idx) 1) as [_|]; [|lia].
    destruct (Z.eqb_spec (2 + idx) 1) as [|_]; [lia|].
    replace (WGSL.sub (2 + idx) 2) with idx
      by (unfold WGSL.sub; rewrite u32_small; lia).
    replace (WGSL.mul idx 2) with (idx * 2)
      by (unfold WGSL.mul; rewrite u32_small; lia).
    replace (WGSL.add (idx * 2) 1) with (idx * 2 + 1)
      by (unfold WGSL.add; rewrite u32_small; lia).
    unfold gpu_leafData. rewrite !gpu_load_read by lia.
    rewrite !(u32_small vx), !(u32_small vy), !(u32_small vz) by lia.
    replace (WGSL.mul vz 16) with (vz * 16)
      by (unfold WGSL.mul; rewrite u32_small; lia).
    replace (WGSL.mul vy 4) with (vy * 4)
      by (unfold WGSL.mul; rewrite u32_small; lia).
    replace (WGSL.add (WGSL.add (vz * 16) (vy * 4)) vx) with (vz * 16 + vy * 4 + vx)
      by (unfold WGSL.add; rewrite (u32_small (vz * 16 + vy * 4)) by lia;
          rewrite u32_small by lia; reflexivity).
    destruct (band_3 (4 * bx + vx)) as [-> _].
    destruct (band_3 (4 * by_ + vy)) as [-> _].
    destruct (band_3 (4 * bz + vz)) as [-> _].
    replace ((4 * bx + vx) mod 4) with vx
      by (rewrite Z.add_comm, Z.mul_comm, Z_mod_plus_full, Z.mod_small; lia).
    replace ((4 * by_ + vy) mod 4) with vy
      by (rewrite Z.add_comm, Z.mul_comm, Z_mod_plus_full, Z.mod_small; lia).
    replace ((4 * bz + vz) mod 4) with vz
      by (rewrite Z.add_comm, Z.mul_comm, Z_mod_plus_full, Z.mod_small; lia).
    set (b := vz * 16 + vy * 4 + vx).
    assert (Hbi : 0 <= b < 64) by (unfold b; lia).
    destruct (Z.ltb_spec b 32).
    + rewrite gpu_shl_1, land_pow2_test by lia.
      rewrite band_ushr_bit, b2z_eqb_1 by lia. reflexivity.
    + replace (WGSL.sub b 32) with (b - 32)
        by (unfold WGSL.sub; rewrite u32_small; lia).
      rewrite gpu_shl_1, land_pow2_test by lia.
      rewrite band_ushr_bit, b2z_eqb_1 by lia. reflexivity.
Qed.

(** C9, as stated, on [rootOnlyGrid] (no tree level): block (0, 0, 0) is in
    range and every read stays inside the two arrays. The CPU traversal
    skips its loop and resolves node 0 as a leaf over leaf index 0, where
    voxel (0, 0, 0) is solid. The loop of [queryBlock] has no entry test:
    its body runs once at level [0u - 1u = 4294967295], takes node 0 for an
    interior node, finds octant 0 absent and reports the block empty. *)
Lemma queryBlock_no_level_disagrees :
  blockInGrid rootOnlyGrid 0 0 0
  /\ readsInside rootOnlyGrid 0 0 0
  /\ snd (traversal rootOnlyGrid 0 0 0) = LeafNode 0x02000000
  /\ ~ leafForm 0x02000000
  /\ isVoxelSolid rootOnlyGrid 0 0 0 = true
  /\ forall oob,
      queryBlock oob rootOnlyGrid 0 0 0 = (0, 4294967295)
      /\ blockVoxelSolid oob rootOnlyGrid (fst (queryBlock oob rootOnlyGrid 0 0 0)) 0 0 0
         = false.
Proof.
  split; [unfold blockInGrid; cbn; lia|].
  split.
  { unfold readsInside. split; [discriminate|]. split.
    - constructor; [cbn; lia|constructor].
    - vm_compute. reflexivity. }
  split; [reflexivity|].
  split; [intros [H|H]; vm_compute in H; discriminate H|].
  split; [reflexivity|].
  intros oob.
  assert (E : queryBlock oob rootOnlyGrid 0 0 0 = (0, 4294967295))
    by (lazy; reflexivity).
  rewrite E. split; reflexivity.
Qed.

(** C9 (amended): on a grid with blocks of 4 voxels and with at least one
    tree level, or none and a root word in leaf form, for a block inside the
    grid and a voxel of it whose CPU traversal stays inside the arrays,
    [queryBlock] returns 1 when the traversal ends on the sentinel, 0 with
    the level when it finds the octant missing, and 2 + the leaf index when
    it ends on a mixed leaf, whatever value an out-of-bounds buffer read
    would produce; and the voxel test of the overlay on that result is
    [isVoxelSolid] of the voxel. *)
Theorem queryBlock_agrees_with_traversal {F : Type} (oob : Z) (c : VoxelCollider F)
  (bx by_ bz vx vy vz : Z) :
  leafSize c = 4 ->
  0 <= treeDepth c < 2 ^ 32 ->
  1 <= treeDepth c \/ leafForm (read_u32 (nodes c) 0) ->
  blockInGrid c bx by_ bz ->
  0 <= vx < 4 -> 0 <= vy < 4 -> 0 <= vz < 4 ->
  readsInside c (4 * bx + vx) (4 * by_ + vy) (4 * bz + vz) ->
  snd (traversal c (4 * bx + vx) (4 * by_ + vy) (4 * bz + vz)) <> NotTraversed
  /\ queryBlock oob c bx by_ bz
     = encodeOutcome (snd (traversal c (4 * bx + vx) (4 * by_ + vy) (4 * bz + vz)))
  /\ blockVoxelSolid oob c (fst (queryBlock oob c bx by_ bz)) vx vy vz
     = isVoxelSolid c (4 * bx + vx) (4 * by_ + vy) (4 * bz + vz).
Proof.
  intros Hl Hd Hroot ((Hbx & Hnx) & (Hby & Hny) & (Hbz & Hnz)) Hx Hy Hz
         (Hne & Hin & Hleaf).
  rewrite isVoxelSolid_traversal.
  unfold traversal in *.
  rewrite <- !orb_assoc in *. rewrite range_guard' in * by lia.
  assert (E0 : (Z.of_nat (length (nodes c)) =? 0) = false).
  { destruct (nodes c); [contradiction|reflexivity]. }
  rewrite E0 in *. cbn [orb] in *.
  rewrite Hl in *.
  replace ((4 * bx + vx) / 4) with bx in *
    by (rewrite Z.add_comm, Z.mul_comm, Z_div_plus_full, Z.div_small; lia).
  replace ((4 * by_ + vy) / 4) with by_ in *
    by (rewrite Z.add_comm, Z.mul_comm, Z_div_plus_full, Z.div_small; lia).
  replace ((4 * bz + vz) / 4) with bz in *
    by (rewrite Z.add_comm, Z.mul_comm, Z_div_plus_full, Z.div_small; lia).
  assert (Eq : queryBlock oob c bx by_ bz
               = encodeOutcome (snd (walk c bx by_ bz (Z.to_nat (treeDepth c)) 0))).
  { unfold queryBlock. rewrite (u32_small (treeDepth c)) by lia.
    destruct (Z.eq_dec (treeDepth c) 0) as [Ed|Ed].
    - (* no tree level: the body runs once, on a root word in leaf form *)
      destruct Hroot as [Hroot|Hroot]; [lia|].
      rewrite Ed in *. cbn [Z.to_nat] in *. cbn [walk] in Hin |- *.
      assert (Hi : 0 <= 0 < Z.of_nat (length (nodes c))).
      { destruct (_ =? _) in Hin; inversion Hin; assumption. }
      rewrite queryBlockLoop_eq. cbv zeta. unfold gpu_nodes.
      rewrite gpu_load_read by exact Hi.
      pose proof (read_u32_range (nodes c) 0) as Hr.
      set (node := read_u32 (nodes c) 0) in *.
      rewrite SOLID_LEAF_MARKER_value.
      destruct (Z.eqb_spec node 0xFF000000) as [En|En]; [reflexivity|].
      destruct Hroot as [Hs|Hm]; [contradiction|].
      rewrite gpu_childMask by exact Hr. rewrite Hm.
      change (0 =? 0) with true. cbv iota. cbn [snd encodeOutcome].
      rewrite gpu_baseOffset.
      destruct (baseOffset_value node) as [_ Hb].
      unfold WGSL.add. rewrite u32_small by lia. reflexivity.
    - replace (WGSL.sub (treeDepth c) 1) with (treeDepth c - 1)
        by (unfold WGSL.sub; rewrite u32_small; lia).
      pose proof (gpuFrom_walk oob c bx by_ bz (Z.to_nat (treeDepth c)) ltac:(lia) 0 Hin)
        as H.
      replace (Z.to_nat (treeDepth c)) with (S (Z.to_nat (treeDepth c - 1))) in H at 1
        by lia.
      cbn [gpuFrom] in H. rewrite Z2Nat.id in H by lia. exact H. }
  assert (Hnt : snd (walk c bx by_ bz (Z.to_nat (treeDepth c)) 0) <> NotTraversed).
  { apply walk_traversed. }
  split; [exact Hnt|]. split; [exact Eq|].
  rewrite Eq. apply blockVoxelSolid_solidAt; assumption.
Qed.

Lemma queryBlock_agrees_with_traversal_witness :
  snd (traversal unitVoxelGrid (4 * 0 + 0) (4 * 0 + 0) (4 * 0 + 0)) <> NotTraversed
  /\ queryBlock 0 unitVoxelGrid 0 0 0
     = encodeOutcome (snd (traversal unitVoxelGrid (4 * 0 + 0) (4 * 0 + 0) (4 * 0 + 0)))
  /\ blockVoxelSolid 0 unitVoxelGrid (fst (queryBlock 0 unitVoxelGrid 0 0 0)) 0 0 0
     = isVoxelSolid unitVoxelGrid (4 * 0 + 0) (4 * 0 + 0) (4 * 0 + 0).
Proof.
  apply (queryBlock_agrees_with_traversal 0 unitVoxelGrid 0 0 0 0 0 0).
  - reflexivity.
  - cbn. lia.
  - left. cbn. lia.
  - unfold blockInGrid. cbn. lia.
  - lia.
  - lia.
  - lia.
  - unfold readsInside. split; [discriminate|]. split.
    + vm_compute. repeat constructor; discriminate.
    + vm_compute. reflexivity.
Defined.

(** The superseded copy of the resolver ([Older]), which none of the
    controllers or the overlay import: the sphere of radius 1/2 centred at
    (1/2, 3/4, 1/2) has its centre inside the solid voxel (0, 0, 0) of
    [unitVoxelGrid] (squared distance 0 to the voxel's AABB). The least
    absolute escape is 3/4, along Y (1/4 to the upper face plus the radius),
    and this is the contact of the resolver of the collider; the superseded
    copy pushes to the nearest face without the radius and records the push
    (0, 1/4, 0) with depth 1/4, which is also all its [querySphere]
    reports. *)
Lemma older_resolver_escapes_without_radius :
  isVoxelSolid unitVoxelGrid 0 0 0 = true
  /\ (Ref.distSqToBox (voxelMin unitVoxelGrid 0 0 0) (voxelMax unitVoxelGrid 0 0 0)
        (mkPushOut (1 # 2) (3 # 4) (1 # 2)) <=? ftiny)%num = true
  /\ Older.sphereVoxel unitVoxelGrid (1 # 2) (3 # 4) (1 # 2) (1 # 2) 0 0 0
     = Some (mkContact 0%Q (1 # 4) 0%Q (1 # 4))
  /\ ~ Ref.alongLeastEscape (voxelMin unitVoxelGrid 0 0 0) (voxelMax unitVoxelGrid 0 0 0)
         (mkPushOut (1 # 2) (3 # 4) (1 # 2)) (1 # 2)
         (mkContact 0%Q (1 # 4) 0%Q (1 # 4))
  /\ sphereVoxel unitVoxelGrid (1 # 2) (3 # 4) (1 # 2) (1 # 2) 0 0 0
     = Some (mkContact 0%Q (6 # 8) 0%Q (6 # 8))
  /\ observed (Older.querySphere unitVoxelGrid (1 # 2) (3 # 4) (1 # 2) (1 # 2)
                 (mkPushOut 0 0 0)%Q)
     = (true, mkPushOut 0%Q (1 # 4) 0%Q)
  /\ observed (querySphere unitVoxelGrid (1 # 2) (3 # 4) (1 # 2) (1 # 2)
                 (mkPushOut 0 0 0)%Q)
     = (true, mkPushOut 0%Q (6 # 8) 0%Q).
Proof.
  split; [reflexivity|]. split; [reflexivity|]. split; [reflexivity|].
  split; [|split; [reflexivity|split; reflexivity]].
  unfold Ref.alongLeastEscape. intros [H _]. vm_compute in H. discriminate H.
Qed.

(** On doubles [a + 0 = a] fails at the negative zero only; for the centre
    (0.5, -0, 0.5) too the capsule without height reports what the sphere
    reports. *)
Lemma capsule_without_height_at_negative_zero :
  Double.flatCapsuleAtNegativeZero = Double.sphereAtNegativeZero.
Proof. vm_compute. reflexivity. Qed.

(** ** The concrete scenario of the specification, on doubles

    A single solid voxel occupying [0,1]^3 and a sphere of radius 0.5 at
    (0.5, 1.3, 0.5): a collision, with push-out (0, ~0.2, 0). *)
Lemma scenario_pushes_up : Double.scenario_expected = true.
Proof. vm_compute. reflexivity. Qed.

(** * Further properties of the code

    Properties read off the source beyond the statements of the
    specification: each theorem carries its number (X1, X2, ...). *)

(** ** Counting bits *)

Lemma bits_above (a n i : Z) : 0 <= a < 2 ^ n -> n <= i -> Z.testbit a i = false.
Proof.
  intros Ha Hi. destruct (Z.le_gt_cases 0 n) as [Hn|Hn].
  - rewrite <- (Z.mod_small a (2 ^ n)) by lia. apply Z.mod_pow2_bits_high. lia.
  - rewrite Z.pow_neg_r in Ha by lia. lia.
Qed.

Lemma testbit_split (k a r i : Z) :
  0 <= k -> 0 <= a < 2 ^ k -> 0 <= i ->
  Z.testbit (a + 2 ^ k * r) i = if i <? k then Z.testbit a i else Z.testbit r (i - k).
Proof.
  intros Hk Ha Hi.
  assert (Hp : 0 < 2 ^ k) by (apply Z.pow_pos_nonneg; lia).
  destruct (Z.ltb_spec i k).
  - rewrite <- (Z.mod_pow2_bits_low (a + 2 ^ k * r) k i) by lia.
    rewrite (Z.mul_comm (2 ^ k) r), Z_mod_plus_full, Z.mod_small by lia. reflexivity.
  - replace i with ((i - k) + k) at 1 by lia.
    rewrite <- Z.div_pow2_bits by lia.
    rewrite (Z.mul_comm (2 ^ k) r), Z_div_plus_full, Z.div_small by lia.
    rewrite Z.add_0_l. reflexivity.
Qed.

Lemma land_small (a m k : Z) : 0 <= k -> 0 <= a < 2 ^ k -> 0 <= Z.land a m < 2 ^ k.
Proof.
  intros Hk Ha.
  assert (E : Z.land a m = Z.land a m mod 2 ^ k).
  { rewrite <- Z.land_ones by lia. rewrite <- Z.land_assoc, (Z.land_comm m), Z.land_assoc.
    rewrite Z.land_ones, Z.mod_small by lia. reflexivity. }
  rewrite E. apply Z.mod_pos_bound. apply Z.pow_pos_nonneg; lia.
Qed.

Lemma land_shift_nibble (s a r mu M : Z) :
  0 <= s <= 4 -> 0 <= a < 16 -> 0 <= mu < 2 ^ (4 - s) ->
  Z.land ((a + 16 * r) / 2 ^ s) (mu + 16 * M)
  = Z.land (a / 2 ^ s) mu + 16 * Z.land (r / 2 ^ s) M.
Proof.
  intros Hs Ha Hmu.
  assert (Hmu16 : 0 <= mu < 2 ^ 4).
  { split; [lia|]. apply Z.lt_le_trans with (2 ^ (4 - s)); [lia|].
    apply Z.pow_le_mono_r; lia. }
  assert (Hl : 0 <= Z.land (a / 2 ^ s) mu < 2 ^ 4).
  { rewrite Z.land_comm. apply land_small; lia. }
  apply Z.bits_inj'. intros i Hi.
  change 16 with (2 ^ 4).
  rewrite (testbit_split 4 (Z.land (a / 2 ^ s) mu)) by lia.
  rewrite !Z.land_spec.
  rewrite (testbit_split 4 mu) by lia.
  rewrite (Z.div_pow2_bits (a + 2 ^ 4 * r)) by lia.
  rewrite (testbit_split 4 a) by (change (2 ^ 4) with 16; lia).
  destruct (Z.ltb_spec i 4), (Z.ltb_spec (i + s) 4); try lia;
    rewrite ?Z.land_spec, ?Z.div_pow2_bits by lia.
  - reflexivity.
  - rewrite (bits_above a 4 (i + s)) by (change (2 ^ 4) with 16; lia).
    rewrite (bits_above mu (4 - s) i) by lia.
    rewrite andb_false_r. reflexivity.
  - replace (i + s - 4) with (i - 4 + s) by lia. reflexivity.
Qed.

Lemma band_mask (a M : Z) :
  0 <= a < 2 ^ 32 -> 0 <= M < 2 ^ 31 -> band a M = Z.land a M.
Proof.
  intros Ha HM. unfold band. rewrite (ToInt32_small M) by exact HM.
  assert (E : forall x, Z.land x M = Z.land (x mod 2 ^ 32) M).
  { intros x. rewrite <- (Z.land_ones x 32) by lia.
    rewrite <- Z.land_assoc, (Z.land_comm (Z.ones 32)), Z.land_ones by lia.
    rewrite (Z.mod_small M) by lia. reflexivity. }
  rewrite E, ToInt32_mod, Z.mod_small by exact Ha. reflexivity.
Qed.

Lemma land_dig8 (s a0 a1 a2 a3 a4 a5 a6 a7 m0 m1 m2 m3 m4 m5 m6 m7 : Z) :
  0 <= s <= 4 ->
  0 <= a0 < 16 -> 0 <= a1 < 16 -> 0 <= a2 < 16 -> 0 <= a3 < 16 ->
  0 <= a4 < 16 -> 0 <= a5 < 16 -> 0 <= a6 < 16 -> 0 <= a7 < 16 ->
  0 <= m0 < 2 ^ (4 - s) -> 0 <= m1 < 2 ^ (4 - s) -> 0 <= m2 < 2 ^ (4 - s) ->
  0 <= m3 < 2 ^ (4 - s) -> 0 <= m4 < 2 ^ (4 - s) -> 0 <= m5 < 2 ^ (4 - s) ->
  0 <= m6 < 2 ^ (4 - s) -> 0 <= m7 < 2 ^ (4 - s) ->
  Z.land (dig8 a0 a1 a2 a3 a4 a5 a6 a7 / 2 ^ s) (dig8 m0 m1 m2 m3 m4 m5 m6 m7)
  = dig8 (Z.land (a0 / 2 ^ s) m0) (Z.land (a1 / 2 ^ s) m1)
         (Z.land (a2 / 2 ^ s) m2) (Z.land (a3 / 2 ^ s) m3)
         (Z.land (a4 / 2 ^ s) m4) (Z.land (a5 / 2 ^ s) m5)
         (Z.land (a6 / 2 ^ s) m6) (Z.land (a7 / 2 ^ s) m7).
Proof.
  intros. unfold dig8.
  rewrite !land_shift_nibble by assumption.
  rewrite Z.land_0_r. reflexivity.
Qed.

Lemma nibble_count (v : Z) :
  0 <= v < 16 ->
  let d := v - Z.land (v / 2 ^ 1) 5 in
  let p := Z.land (d / 2 ^ 0) 3 + Z.land (d / 2 ^ 2) 3 in
  0 <= d < 16 /\ 0 <= p <= 4
  /\ p = Z.b2z (Z.testbit v 0) + Z.b2z (Z.testbit v 1)
         + Z.b2z (Z.testbit v 2) + Z.b2z (Z.testbit v 3).
Proof.
  intros H.
  assert (E : v = 0 \/ v = 1 \/ v = 2 \/ v = 3 \/ v = 4 \/ v = 5 \/ v = 6 \/ v = 7
              \/ v = 8 \/ v = 9 \/ v = 10 \/ v = 11 \/ v = 12 \/ v = 13 \/ v = 14
              \/ v = 15) by lia.
  repeat (destruct E as [->|E]); try subst v; vm_compute; intuition congruence.
Qed.

Lemma nibble_bit (x k j : Z) :
  0 <= k -> 0 <= j < 4 -> Z.testbit (nibble x k) j = Z.testbit x (j + 4 * k).
Proof.
  intros Hk Hj. unfold nibble. change 16 with (2 ^ 4).
  rewrite Z.mod_pow2_bits_low by lia. apply Z.div_pow2_bits; lia.
Qed.

Lemma nibble_range (x k : Z) : 0 <= nibble x k < 16.
Proof. unfold nibble. apply Z.mod_pos_bound. lia. Qed.

Lemma dig8_nibbles (m : Z) :
  0 <= m < 2 ^ 32 ->
  m = dig8 (nibble m 0) (nibble m 1) (nibble m 2) (nibble m 3)
           (nibble m 4) (nibble m 5) (nibble m 6) (nibble m 7).
Proof.
  intros H. unfold dig8, nibble.
  change (2 ^ (4 * 0)) with 1. change (2 ^ (4 * 1)) with 16.
  change (2 ^ (4 * 2)) with 256. change (2 ^ (4 * 3)) with 4096.
  change (2 ^ (4 * 4)) with 65536. change (2 ^ (4 * 5)) with 1048576.
  change (2 ^ (4 * 6)) with 16777216. change (2 ^ (4 * 7)) with 268435456.
  change (2 ^ 32) with 4294967296 in H.
  Z.div_mod_to_equations; lia.
Qed.

Lemma filter_count {A} (f : A -> bool) (l : list A) :
  Z.of_nat (length (filter f l)) = fold_right (fun i acc => Z.b2z (f i) + acc) 0 l.
Proof.
  induction l as [|a l IH]; [reflexivity|].
  cbn [filter fold_right]. destruct (f a); cbn [length Z.b2z]; lia.
Qed.

Lemma dig8_range (a0 a1 a2 a3 a4 a5 a6 a7 : Z) :
  0 <= a0 < 16 -> 0 <= a1 < 16 -> 0 <= a2 < 16 -> 0 <= a3 < 16 ->
  0 <= a4 < 16 -> 0 <= a5 < 16 -> 0 <= a6 < 16 -> 0 <= a7 < 16 ->
  0 <= dig8 a0 a1 a2 a3 a4 a5 a6 a7 < 2 ^ 32.
Proof. intros. unfold dig8. lia. Qed.

Lemma nibbleCount_bits (v : Z) :
  0 <= v < 16 ->
  0 <= nibbleCount v <= 4
  /\ nibbleCount v = Z.b2z (Z.testbit v 0) + Z.b2z (Z.testbit v 1)
                     + Z.b2z (Z.testbit v 2) + Z.b2z (Z.testbit v 3).
Proof. intros H. destruct (nibble_count v H) as (_ & P & C). split; assumption. Qed.

Lemma popcount_dig8 (v0 v1 v2 v3 v4 v5 v6 v7 : Z) :
  0 <= v0 < 16 -> 0 <= v1 < 16 -> 0 <= v2 < 16 -> 0 <= v3 < 16 ->
  0 <= v4 < 16 -> 0 <= v5 < 16 -> 0 <= v6 < 16 -> 0 <= v7 < 16 ->
  popcount (dig8 v0 v1 v2 v3 v4 v5 v6 v7)
  = nibbleCount v0 + nibbleCount v1 + nibbleCount v2 + nibbleCount v3
    + nibbleCount v4 + nibbleCount v5 + nibbleCount v6 + nibbleCount v7.
Proof.
  intros R0 R1 R2 R3 R4 R5 R6 R7.
  destruct (nibble_count _ R0) as (D0 & P0 & _), (nibble_count _ R1) as (D1 & P1 & _),
    (nibble_count _ R2) as (D2 & P2 & _), (nibble_count _ R3) as (D3 & P3 & _),
    (nibble_count _ R4) as (D4 & P4 & _), (nibble_count _ R5) as (D5 & P5 & _),
    (nibble_count _ R6) as (D6 & P6 & _), (nibble_count _ R7) as (D7 & P7 & _).
  fold (nibbleCount v0) in P0. fold (nibbleCount v1) in P1.
  fold (nibbleCount v2) in P2. fold (nibbleCount v3) in P3.
  fold (nibbleCount v4) in P4. fold (nibbleCount v5) in P5.
  fold (nibbleCount v6) in P6. fold (nibbleCount v7) in P7.
  set (w := dig8 v0 v1 v2 v3 v4 v5 v6 v7).
  assert (Hw : 0 <= w < 2 ^ 32) by (apply dig8_range; assumption).
  (* n - ((n >>> 1) & 0x55555555) *)
  set (w1 := dig8 (v0 - Z.land (v0 / 2 ^ 1) 5) (v1 - Z.land (v1 / 2 ^ 1) 5)
                  (v2 - Z.land (v2 / 2 ^ 1) 5) (v3 - Z.land (v3 / 2 ^ 1) 5)
                  (v4 - Z.land (v4 / 2 ^ 1) 5) (v5 - Z.land (v5 / 2 ^ 1) 5)
                  (v6 - Z.land (v6 / 2 ^ 1) 5) (v7 - Z.land (v7 / 2 ^ 1) 5)).
  assert (E1 : w - band (ushr w 1) 0x55555555 = w1).
  { rewrite (ushr_div w 1), (Z.mod_small w) by lia.
    rewrite band_mask by (lia || (Z.div_mod_to_equations; lia)).
    change 0x55555555 with (dig8 5 5 5 5 5 5 5 5).
    unfold w at 2. rewrite land_dig8 by (assumption || (change (2 ^ (4 - 1)) with 8; lia)).
    unfold w, w1, dig8. ring. }
  assert (Hw1 : 0 <= w1 < 2 ^ 32) by (apply dig8_range; assumption).
  (* (n & 0x33333333) + ((n >>> 2) & 0x33333333) *)
  set (w2 := dig8 (nibbleCount v0) (nibbleCount v1) (nibbleCount v2) (nibbleCount v3)
                  (nibbleCount v4) (nibbleCount v5) (nibbleCount v6) (nibbleCount v7)).
  assert (E2 : band w1 0x33333333 + band (ushr w1 2) 0x33333333 = w2).
  { rewrite (ushr_div w1 2), (Z.mod_small w1) by lia.
    rewrite !band_mask by (lia || (Z.div_mod_to_equations; lia)).
    change 0x33333333 with (dig8 3 3 3 3 3 3 3 3).
    rewrite <- (Z.div_1_r w1) at 1. change 1 with (2 ^ 0) at 1.
    unfold w1.
    rewrite !land_dig8
      by (assumption || lia || (change (2 ^ (4 - 2)) with 4; lia)
          || (change (2 ^ (4 - 0)) with 16; lia)).
    unfold w2, nibbleCount, dig8. ring. }
  assert (Hw2 : 0 <= w2 < 2 ^ 32) by (apply dig8_range; lia).
  (* ((n + (n >>> 4)) & 0x0F0F0F0F) * 0x01010101 >>> 24 *)
  unfold popcount. fold w. rewrite ushr_0, (Z.mod_small w) by lia.
  rewrite E1, E2.
  rewrite (ushr_div w2 4), (Z.mod_small w2) by lia.
  unfold w2. clear E1 E2 Hw2 w2 Hw1 w1 Hw w D0 D1 D2 D3 D4 D5 D6 D7.
  generalize dependent (nibbleCount v0). intros p0 P0.
  generalize dependent (nibbleCount v1). intros p1 P1.
  generalize dependent (nibbleCount v2). intros p2 P2.
  generalize dependent (nibbleCount v3). intros p3 P3.
  generalize dependent (nibbleCount v4). intros p4 P4.
  generalize dependent (nibbleCount v5). intros p5 P5.
  generalize dependent (nibbleCount v6). intros p6 P6.
  generalize dependent (nibbleCount v7). intros p7 P7.
  set (w2 := dig8 p0 p1 p2 p3 p4 p5 p6 p7).
  assert (E3 : w2 + w2 / 2 ^ 4
               = dig8 (p0 + p1) (p1 + p2) (p2 + p3) (p3 + p4) (p4 + p5) (p5 + p6)
                      (p6 + p7) p7 / 2 ^ 0).
  { unfold w2, dig8. change (2 ^ 4) with 16. change (2 ^ 0) with 1.
    Z.div_mod_to_equations; lia. }
  rewrite band_mask
    by (try lia; rewrite E3; unfold dig8; change (2 ^ 0) with 1;
        rewrite Z.div_1_r; lia).
  rewrite E3. change 0x0F0F0F0F with (dig8 15 0 15 0 15 0 15 0).
  rewrite land_dig8 by (change (2 ^ (4 - 0)) with 16; lia).
  change (2 ^ 0) with 1. rewrite !Z.div_1_r, !Z.land_0_r.
  change 15 with (Z.ones 4). rewrite !Z.land_ones by lia.
  change (2 ^ 4) with 16. rewrite !Z.mod_small by lia.
  rewrite ushr_div by lia.
  remember (p0 + p1) as c0 eqn:E0. remember (p2 + p3) as c1 eqn:E1.
  remember (p4 + p5) as c2 eqn:E2. remember (p6 + p7) as c3 eqn:E4.
  replace (dig8 c0 0 c1 0 c2 0 c3 0 * 0x01010101)
    with ((c0 + 256 * (c0 + c1) + 65536 * (c0 + c1 + c2)
           + (c0 + c1 + c2 + c3) * 2 ^ 24)
          + (c1 + c2 + c3 + 256 * (c2 + c3) + 65536 * c3) * 2 ^ 32)
    by (unfold dig8; ring).
  rewrite Z_mod_plus_full, Z.mod_small by lia.
  rewrite Z_div_plus_full, Z.div_small by lia.
  lia.
Qed.

Lemma popcount_ToUint32 (n : Z) : popcount n = popcount (n mod 2 ^ 32).
Proof. unfold popcount. rewrite !ushr_0, Z.mod_mod by lia. reflexivity. Qed.

(** X1: [popcount(n)] is the number of one bits among the low 32 bits of
    [n], for every integer [n]; it is the [countOneBits] the overlay applies
    to the same masks. *)
Theorem popcount_counts_bits (n : Z) : popcount n = WGSL.countOneBits n.
Proof.
  rewrite popcount_ToUint32.
  set (m := n mod 2 ^ 32).
  assert (Hm : 0 <= m < 2 ^ 32) by (apply Z.mod_pos_bound; lia).
  rewrite (dig8_nibbles m Hm).
  rewrite popcount_dig8 by apply nibble_range.
  unfold WGSL.countOneBits. rewrite filter_count.
  change (zrange 0 31) with
    [0;1;2;3;4;5;6;7;8;9;10;11;12;13;14;15;16;17;18;19;20;21;22;23;24;25;26;27;28;29;30;31].
  cbn [fold_right].
  assert (Hb : forall i, 0 <= i < 32 -> Z.testbit n i = Z.testbit m i).
  { intros i Hi. unfold m. symmetry. apply Z.mod_pow2_bits_low. lia. }
  rewrite !Hb by lia.
  destruct (nibbleCount_bits _ (nibble_range m 0)) as [_ ->].
  destruct (nibbleCount_bits _ (nibble_range m 1)) as [_ ->].
  destruct (nibbleCount_bits _ (nibble_range m 2)) as [_ ->].
  destruct (nibbleCount_bits _ (nibble_range m 3)) as [_ ->].
  destruct (nibbleCount_bits _ (nibble_range m 4)) as [_ ->].
  destruct (nibbleCount_bits _ (nibble_range m 5)) as [_ ->].
  destruct (nibbleCount_bits _ (nibble_range m 6)) as [_ ->].
  destruct (nibbleCount_bits _ (nibble_range m 7)) as [_ ->].
  rewrite !nibble_bit by lia.
  cbn [Z.add Z.mul Pos.add Pos.mul Pos.succ]. lia.
Qed.

(** ** The descent on arrays that end early *)

Lemma octant_value_range (blockX blockY blockZ level : Z) :
  0 <= bor (bor (shl (band (ushr blockZ level) 1) 2)
                (shl (band (ushr blockY level) 1) 1))
           (band (ushr blockX level) 1) < 8.
Proof.
  rewrite !band_1_bit, octant_of_bits_value. apply octant_range.
Qed.

Lemma childrenBelow_range (m o : Z) : 0 <= o -> 0 <= Ref.childrenBelow m o <= o.
Proof.
  intros Ho. unfold Ref.childrenBelow.
  pose proof (filter_length_le (Z.testbit m) (zrange 0 (o - 1))) as Hf.
  unfold zrange in Hf at 2. rewrite length_map, length_seq in Hf. lia.
Qed.

Lemma child_index_range (node blockX blockY blockZ level : Z) :
  0 <= node < 2 ^ 32 ->
  let childMask := band (ushr node 24) 0xFF in
  let octant := bor (bor (shl (band (ushr blockZ level) 1) 2)
                         (shl (band (ushr blockY level) 1) 1))
                    (band (ushr blockX level) 1) in
  0 <= band node 0x00FFFFFF + popcount (band childMask (shl 1 octant - 1))
    < 2 ^ 24 + 7.
Proof.
  intros Hn. cbv zeta.
  destruct (baseOffset_value node) as [_ Hb].
  destruct (childMask_value node Hn) as [_ Hm].
  pose proof (octant_value_range blockX blockY blockZ level) as Ho.
  destruct (mask_step _ _ Hm Ho) as (_ & E & Hp). rewrite E in *.
  pose proof (childrenBelow_range (band (ushr node 24) 255) _ (proj1 Ho)). lia.
Qed.

Lemma walk_bounded {F : Type} (c : VoxelCollider F) (blockX blockY blockZ : Z)
  (n : nat) :
  forall i, 0 <= i < 2 ^ 24 + 7 ->
    (length (fst (walk c blockX blockY blockZ n i)) <= S n)%nat
    /\ Forall (fun j => 0 <= j < 2 ^ 24 + 7) (fst (walk c blockX blockY blockZ n i)).
Proof.
  induction n as [|n IH]; intros i Hi; cbn [walk].
  - destruct (_ =? _); cbn [fst length]; split; try lia; repeat constructor; lia.
  - destruct (_ =? SOLID_LEAF_MARKER);
      [cbn [fst length]; split; [lia|repeat constructor; lia]|].
    destruct (_ =? 0); [cbn [fst length]; split; [lia|repeat constructor; lia]|].
    destruct (_ =? 0); [cbn [fst length]; split; [lia|repeat constructor; lia]|].
    pose proof (child_index_range (read_u32 (nodes c) i) blockX blockY blockZ
                  (Z.of_nat n) (read_u32_range _ _)) as Hc.
    cbv zeta in Hc.
    match goal with
    | |- context [walk c blockX blockY blockZ n ?j] =>
        destruct (IH j Hc) as [Hl Hf];
        destruct (walk c blockX blockY blockZ n j) as [visited o]
    end.
    cbn [fst length] in *. split; [lia|]. constructor; [lia|exact Hf].
Qed.

(** X2: a lookup reads at most [treeDepth + 1] node words, each at a
    position from 0 to 2^24 + 6, whatever the arrays hold (a node array
    whose child offsets form a cycle included); its answer is the one read
    off the place where the descent ends. *)
Theorem traversal_reads_bounded {F : Type} (c : VoxelCollider F) (ix iy iz : Z) :
  (length (fst (traversal c ix iy iz)) <= S (Z.to_nat (treeDepth c)))%nat
  /\ Forall (fun j => 0 <= j < 2 ^ 24 + 7) (fst (traversal c ix iy iz))
  /\ isVoxelSolid c ix iy iz = solidAt c (snd (traversal c ix iy iz)) ix iy iz.
Proof.
  split; [|split; [|apply isVoxelSolid_traversal]].
  - unfold traversal. destruct (_ || _); [cbn [fst length]; lia|].
    apply walk_bounded. lia.
  - unfold traversal. destruct (_ || _); [constructor|].
    apply walk_bounded. lia.
Qed.

Lemma walk_outside {F : Type} (c : VoxelCollider F) (blockX blockY blockZ p : Z)
  (n : nat) :
  typed_get (nodes c) p = None ->
  forall i, In p (fst (walk c blockX blockY blockZ n i)) ->
  snd (walk c blockX blockY blockZ n i) = LeafNode 0
  /\ exists before, fst (walk c blockX blockY blockZ n i) = before ++ [p].
Proof.
  intros Hp.
  assert (Hr : read_u32 (nodes c) p = 0) by (unfold read_u32; rewrite Hp; reflexivity).
  assert (Hm0 : (band (ushr 0 24) 255 =? 0) = true) by (vm_compute; reflexivity).
  induction n as [|n IH]; intros i; cbn [walk].
  - destruct (Z.eqb_spec (read_u32 (nodes c) i) SOLID_LEAF_MARKER) as [E|E];
      cbn [fst snd]; intros [<-|[]].
    + rewrite Hr, SOLID_LEAF_MARKER_value in E. discriminate E.
    + rewrite Hr. split; [reflexivity|]. exists []. reflexivity.
  - destruct (Z.eqb_spec (read_u32 (nodes c) i) SOLID_LEAF_MARKER) as [E|E].
    { cbn [fst snd]. intros [<-|[]]. rewrite Hr, SOLID_LEAF_MARKER_value in E. discriminate E. }
    destruct (band (ushr (read_u32 (nodes c) i) 24) 255 =? 0) eqn:Em.
    { cbn [fst snd]. intros [<-|[]]. rewrite Hr.
      split; [reflexivity|]. exists []. reflexivity. }
    match goal with
    | |- context [if ?b then ([i], MissingOctant _) else _] => destruct b
    end.
    { cbn [fst snd]. intros [<-|[]]. rewrite Hr, Hm0 in Em. discriminate Em. }
    match goal with
    | |- context [walk c blockX blockY blockZ n ?j] =>
        specialize (IH j); destruct (walk c blockX blockY blockZ n j) as [visited o]
    end.
    cbn [fst snd] in *.
    intros [<-|Hin]; [rewrite Hr, Hm0 in Em; discriminate Em|].
    destruct (IH Hin) as [Ho [before Hb]].
    split; [exact Ho|]. exists (i :: before). rewrite Hb. reflexivity.
Qed.

(** X3: a child position outside the node array raises no error: the word
    read there is 0, a mixed leaf with leaf index 0. The descent ends on it
    and the voxel is solid exactly when its bit is set in the first mask of
    [leafData]. *)
Theorem node_outside_array_is_leaf_zero {F : Type} (c : VoxelCollider F)
  (ix iy iz p : Z) :
  typed_get (nodes c) p = None ->
  In p (fst (traversal c ix iy iz)) ->
  snd (traversal c ix iy iz) = LeafNode 0
  /\ (exists before, fst (traversal c ix iy iz) = before ++ [p])
  /\ isVoxelSolid c ix iy iz = checkLeafByIndex c 0 ix iy iz.
Proof.
  intros Hp Hin. rewrite isVoxelSolid_traversal.
  unfold traversal in *. destruct (_ || _); [destruct Hin|].
  destruct (walk_outside c _ _ _ p _ Hp 0 Hin) as [Ho Hb].
  rewrite Ho. auto.
Qed.

Lemma node_outside_array_is_leaf_zero_witness :
  snd (traversal truncatedGrid 0 0 0) = LeafNode 0
  /\ (exists before, fst (traversal truncatedGrid 0 0 0) = before ++ [5])
  /\ isVoxelSolid truncatedGrid 0 0 0 = checkLeafByIndex truncatedGrid 0 0 0 0.
Proof.
  apply node_outside_array_is_leaf_zero.
  - reflexivity.
  - vm_compute. auto.
Defined.

(** X4: a mixed leaf whose mask lies outside [leafData] has no solid
    voxel: both words read as 0. *)
Theorem leaf_outside_array_is_empty {F : Type} (c : VoxelCollider F)
  (node ix iy iz : Z) :
  Z.of_nat (length (leafData c)) <= 2 * band node 0x00FFFFFF ->
  checkLeafByIndex c node ix iy iz = false.
Proof.
  intros H. unfold checkLeafByIndex.
  destruct (baseOffset_value node) as [_ Hb].
  assert (Hout : forall j, Z.of_nat (length (leafData c)) <= j ->
                   read_u32 (leafData c) j = 0).
  { intros j Hj. unfold read_u32, typed_get.
    destruct (Z.ltb_spec j 0); [reflexivity|].
    destruct (nth_error (leafData c) (Z.to_nat j)) eqn:E; [|reflexivity].
    assert (nth_error (leafData c) (Z.to_nat j) <> None) by congruence.
    apply nth_error_Some in H1. lia. }
  rewrite !Hout by lia.
  assert (E0 : forall s, (band (ushr 0 s) 1 =? 1) = false).
  { intros s. rewrite band_1_bit. unfold ushr, ToUint32.
    rewrite Z.mod_0_l, Z.shiftr_0_l by lia. reflexivity. }
  rewrite !E0. destruct (_ <? 32); reflexivity.
Qed.

Lemma leaf_outside_array_is_empty_witness :
  checkLeafByIndex unitVoxelGrid 0x00000001 0 0 0 = false.
Proof. apply leaf_outside_array_is_empty. vm_compute. discriminate. Defined.

(** ** An empty octant empties its cell *)

Lemma cell_bit_js (b b' L l : Z) :
  0 <= L <= l -> l < 32 -> b / 2 ^ L = b' / 2 ^ L ->
  band (ushr b l) 1 = band (ushr b' l) 1.
Proof.
  intros HL Hl E. rewrite !band_ushr_bit by lia. f_equal.
  replace l with ((l - L) + L) by lia.
  rewrite <- !Z.div_pow2_bits by lia. rewrite E. reflexivity.
Qed.

Lemma walk_missing_level {F : Type} (c : VoxelCollider F) (bx by_ bz L : Z)
  (n : nat) :
  forall i, snd (walk c bx by_ bz n i) = MissingOctant L -> 0 <= L < Z.of_nat n.
Proof.
  induction n as [|n IH]; intros i; cbn [walk].
  - destruct (_ =? _); discriminate.
  - destruct (_ =? SOLID_LEAF_MARKER); [discriminate|].
    destruct (_ =? 0); [discriminate|].
    match goal with
    | |- context [if ?b then ([i], MissingOctant _) else _] => destruct b
    end.
    + cbn [snd]. intros E. inversion E. lia.
    + match goal with
      | |- context [walk c bx by_ bz n ?j] =>
          specialize (IH j); destruct (walk c bx by_ bz n j) as [visited o]
      end.
      cbn [snd] in *. intros E. specialize (IH E). lia.
Qed.

Lemma walk_cell {F : Type} (c : VoxelCollider F) (bx by_ bz bx' by' bz' L : Z)
  (n : nat) :
  bx / 2 ^ L = bx' / 2 ^ L -> by_ / 2 ^ L = by' / 2 ^ L -> bz / 2 ^ L = bz' / 2 ^ L ->
  Z.of_nat n <= 32 ->
  forall i,
    snd (walk c bx by_ bz n i) = MissingOctant L ->
    walk c bx' by' bz' n i = walk c bx by_ bz n i.
Proof.
  intros Ex Ey Ez. induction n as [|n IH]; intros Hn i H.
  - reflexivity.
  - pose proof (walk_missing_level c bx by_ bz L (S n) i H) as HL.
    assert (HLn : L <= Z.of_nat n) by lia.
    revert H. cbn [walk].
    rewrite (cell_bit_js bx bx' L (Z.of_nat n)), (cell_bit_js by_ by' L (Z.of_nat n)),
      (cell_bit_js bz bz' L (Z.of_nat n)) by (lia || assumption).
    destruct (_ =? SOLID_LEAF_MARKER); [reflexivity|].
    destruct (_ =? 0); [reflexivity|].
    match goal with
    | |- context [if ?b then ([i], MissingOctant _) else _] => destruct b
    end; [reflexivity|].
    match goal with
    | |- context [walk c bx by_ bz n ?j] =>
        specialize (IH ltac:(lia) j);
        destruct (walk c bx by_ bz n j) as [visited o] eqn:Ew
    end.
    cbn [snd] in *. intros E. rewrite (IH E). reflexivity.
Qed.

(** X5: with at most 32 tree levels, when the descent for a voxel finds
    the octant missing at level [L], every voxel of the grid whose block
    lies in the same cell of [2^L] blocks per axis takes the same path and
    is not solid. *)
Theorem missing_octant_empties_cell {F : Type} (c : VoxelCollider F)
  (ix iy iz jx jy jz L : Z) :
  treeDepth c <= 32 ->
  snd (traversal c ix iy iz) = MissingOctant L ->
  0 <= jx < numVoxelsX c -> 0 <= jy < numVoxelsY c -> 0 <= jz < numVoxelsZ c ->
  (jx / leafSize c) / 2 ^ L = (ix / leafSize c) / 2 ^ L ->
  (jy / leafSize c) / 2 ^ L = (iy / leafSize c) / 2 ^ L ->
  (jz / leafSize c) / 2 ^ L = (iz / leafSize c) / 2 ^ L ->
  0 <= L < treeDepth c
  /\ traversal c jx jy jz = traversal c ix iy iz
  /\ isVoxelSolid c jx jy jz = false.
Proof.
  intros Hd H Hx Hy Hz Ex Ey Ez.
  rewrite isVoxelSolid_traversal.
  unfold traversal in *.
  destruct ((Z.of_nat (length (nodes c)) =? 0) || (ix <? 0) || (iy <? 0) || (iz <? 0)
            || (ix >=? numVoxelsX c) || (iy >=? numVoxelsY c) || (iz >=? numVoxelsZ c))
    eqn:Eg; [discriminate H|].
  assert (En : (Z.of_nat (length (nodes c)) =? 0) = false).
  { repeat (apply orb_false_elim in Eg; destruct Eg as [Eg _]). exact Eg. }
  rewrite En. rewrite <- !orb_assoc. rewrite range_guard' by lia. cbn [orb].
  pose proof (walk_missing_level c _ _ _ L _ 0 H) as HL.
  assert (Ew : walk c (jx / leafSize c) (jy / leafSize c) (jz / leafSize c)
                 (Z.to_nat (treeDepth c)) 0
               = walk c (ix / leafSize c) (iy / leafSize c) (iz / leafSize c)
                   (Z.to_nat (treeDepth c)) 0).
  { apply (walk_cell c _ _ _ _ _ _ L); try (symmetry; assumption); [lia|exact H]. }
  rewrite Ew, H. split; [lia|]. split; reflexivity.
Qed.

Lemma missing_octant_empties_cell_witness :
  0 <= 1 < treeDepth twoLevelGrid
  /\ traversal twoLevelGrid 15 7 7 = traversal twoLevelGrid 8 0 0
  /\ isVoxelSolid twoLevelGrid 15 7 7 = false.
Proof.
  apply (missing_octant_empties_cell twoLevelGrid 8 0 0 15 7 7 1);
    try (cbn; lia); reflexivity.
Defined.

(** ** Decoding, further *)

Lemma byte_range (b : Byte.byte) : 0 <= Z.of_N (Byte.to_N b) < 2 ^ 8.
Proof.
  pose proof (Byte.to_N_bounded b) as H. change (2 ^ 8) with 256. lia.
Qed.

Lemma Uint32Array_of_buffer_spec (n : nat) :
  forall buffer, (length buffer < n)%nat ->
    match Uint32Array_of_buffer buffer with
    | Some view =>
        (length buffer = 4 * length view)%nat
        /\ Forall (fun w => 0 <= w < 2 ^ 32) view
    | None => (length buffer mod 4 <> 0)%nat
    end.
Proof.
  induction n as [|n IH]; intros buffer Hn; [lia|].
  destruct buffer as [|b0 [|b1 [|b2 [|b3 rest]]]]; cbn [Uint32Array_of_buffer].
  - split; [reflexivity|constructor].
  - cbn. lia.
  - cbn. lia.
  - cbn. lia.
  - specialize (IH rest). cbn [length] in Hn. specialize (IH ltac:(lia)).
    destruct (Uint32Array_of_buffer rest) as [ws|].
    + destruct IH as [Hl Hf]. split; [cbn [length]; lia|].
      constructor; [|exact Hf].
      pose proof (byte_range b0). pose proof (byte_range b1).
      pose proof (byte_range b2). pose proof (byte_range b3).
      change (2 ^ 8) with 256 in *. change (2 ^ 16) with 65536.
      change (2 ^ 24) with 16777216. change (2 ^ 32) with 4294967296. lia.
    + cbn [length].
      replace (S (S (S (S (length rest))))) with (length rest + 1 * 4)%nat by lia.
      rewrite Nat.Div0.mod_add. exact IH.
Qed.

Lemma Uint32Array_of_buffer_Some (buffer : list Byte.byte) :
  (exists view, Uint32Array_of_buffer buffer = Some view)
  <-> (length buffer mod 4 = 0)%nat.
Proof.
  pose proof (Uint32Array_of_buffer_spec (S (length buffer)) buffer ltac:(lia)) as H.
  destruct (Uint32Array_of_buffer buffer) as [view|].
  - destruct H as [Hl _]. split; [|eauto]. intros _. rewrite Hl.
    rewrite Nat.mul_comm. apply Nat.Div0.mod_mul.
  - split; [intros [v Hv]; discriminate|]. intros E. contradiction.
Qed.

(** X6: the failures [load] raises itself, and what its success takes.
    A metadata response that is not ok makes [load] fail with its metadata
    error, whatever the binary response holds, and nothing else does; the
    binary error is raised only when the metadata response is ok and the
    binary response is not; the RangeError only when both are ok and the
    byte length is not a multiple of 4; and a collider is constructed only
    when both responses are ok and the byte length is a multiple of 4. *)
Theorem load_outcome {F : Type} {N : Number F}
  (metaResponse : Response (VoxelMetadata F))
  (binResponse : Response (list Byte.byte)) :
  (ok metaResponse = false ->
   load metaResponse binResponse = inl FetchMetadataFailed)
  /\ (load metaResponse binResponse = inl FetchMetadataFailed ->
      ok metaResponse = false)
  /\ (load metaResponse binResponse = inl FetchBinaryFailed ->
      ok metaResponse = true /\ ok binResponse = false)
  /\ (load metaResponse binResponse = inl RangeError ->
      ok metaResponse = true /\ ok binResponse = true
      /\ (length (body binResponse) mod 4 <> 0)%nat)
  /\ (forall c, load metaResponse binResponse = inr c ->
      ok metaResponse = true /\ ok binResponse = true
      /\ (length (body binResponse) mod 4 = 0)%nat).
Proof.
  unfold load.
  pose proof (Uint32Array_of_buffer_Some (body binResponse)) as HS.
  destruct (ok metaResponse); cbn [negb].
  2: { repeat split; try reflexivity; try discriminate; intros; discriminate. }
  destruct (ok binResponse); cbn [negb].
  2: { repeat split; try reflexivity; try discriminate; intros; discriminate. }
  destruct (Uint32Array_of_buffer (body binResponse)) as [view|].
  - assert (E : (length (body binResponse) mod 4 = 0)%nat) by (apply HS; eauto).
    repeat split; try reflexivity; try discriminate; auto.
  - assert (E : (length (body binResponse) mod 4 <> 0)%nat).
    { intros E. apply HS in E. destruct E as [v Hv]. discriminate. }
    repeat split; try reflexivity; try discriminate; auto.
Qed.

Lemma load_outcome_witness :
  load (mkResponse false shortMetadata) (mkResponse true shortBuffer)
  = inl FetchMetadataFailed.
Proof.
  apply (proj1 (load_outcome (mkResponse false shortMetadata)
                  (mkResponse true shortBuffer))).
  reflexivity.
Defined.

Lemma firstn_app_skipn {A : Type} (a b : nat) (l : list A) :
  firstn a l ++ firstn b (skipn a l) = firstn (a + b) l.
Proof.
  revert l. induction a as [|a IH]; intros l; [reflexivity|].
  destruct l as [|h l]; cbn [firstn skipn Nat.add app].
  - rewrite firstn_nil. reflexivity.
  - rewrite IH. reflexivity.
Qed.

(** Where [slice] starts and ends. *)
Lemma slice_bounds (arr : list Z) (start stop : Z) :
  exists a b : nat,
    slice arr start stop = firstn b (skipn a arr)
    /\ (a <= length arr)%nat
    /\ Z.of_nat a = (if start <? 0 then Z.max (Z.of_nat (length arr) + start) 0
                     else Z.min start (Z.of_nat (length arr))).
Proof.
  unfold slice.
  set (k := if start <? 0 then _ else _).
  exists (Z.to_nat k). eexists. split; [reflexivity|].
  assert (0 <= k <= Z.of_nat (length arr)).
  { unfold k. destruct (start <? 0) eqn:E; [apply Z.ltb_lt in E|apply Z.ltb_ge in E]; lia. }
  lia.
Qed.

(** X7: in a loaded grid [nodes] followed by [leafData] is a prefix of the
    words of the file, for any [nodeCount] and [leafDataCount], negative
    ones included: [leafData] starts at the word where [nodes] ends. Every
    word is a [u32] and the file has four bytes per word. *)
Theorem load_arrays_are_consecutive {F : Type} {N : Number F}
  (metaResponse : Response (VoxelMetadata F))
  (binResponse : Response (list Byte.byte)) (c : VoxelCollider F) :
  load metaResponse binResponse = inr c ->
  exists view,
    Uint32Array_of_buffer (body binResponse) = Some view
    /\ (length (body binResponse) = 4 * length view)%nat
    /\ Forall (fun w => 0 <= w < 2 ^ 32) view
    /\ nodes c ++ leafData c
       = firstn (length (nodes c) + length (leafData c)) view.
Proof.
  unfold load. destruct (ok metaResponse); [|discriminate].
  destruct (ok binResponse); [|discriminate]. cbn [negb].
  pose proof (Uint32Array_of_buffer_spec (S (length (body binResponse)))
                (body binResponse) ltac:(lia)) as HS.
  destruct (Uint32Array_of_buffer (body binResponse)) as [view|]; [|discriminate].
  destruct HS as [Hl Hf]. intros E. injection E as <-.
  exists view. split; [reflexivity|]. split; [exact Hl|]. split; [exact Hf|].
  destruct (new_VoxelCollider_arrays (body metaResponse)
              (slice view 0 (nodeCount (body metaResponse)))
              (slice view (nodeCount (body metaResponse))
                     (nodeCount (body metaResponse) + leafDataCount (body metaResponse))))
    as [-> ->].
  set (nc := nodeCount (body metaResponse)).
  set (lc := leafDataCount (body metaResponse)).
  set (len := Z.of_nat (length view)).
  set (k := if nc <? 0 then Z.max (len + nc) 0 else Z.min nc len).
  assert (Hk : 0 <= k <= len).
  { unfold k. destruct (nc <? 0) eqn:E; [apply Z.ltb_lt in E|apply Z.ltb_ge in E]; lia. }
  assert (E1 : slice view 0 nc = firstn (Z.to_nat k) view).
  { unfold slice. fold len. cbn [Z.ltb Z.compare]. fold k.
    replace (Z.min 0 len) with 0 by lia. cbn [Z.to_nat skipn].
    rewrite Z.sub_0_r, Z.max_l by lia. reflexivity. }
  assert (E2 : exists b, slice view nc (nc + lc) = firstn b (skipn (Z.to_nat k) view)).
  { unfold slice. fold len. fold k. eexists. reflexivity. }
  destruct E2 as [b E2]. rewrite E1, E2.
  rewrite firstn_app_skipn.
  rewrite !length_firstn, length_skipn.
  replace (Nat.min (Z.to_nat k) (length view)) with (Z.to_nat k) by lia.
  destruct (Nat.le_ge_cases b (length view - Z.to_nat k)) as [Hb|Hb].
  - rewrite (Nat.min_l b) by exact Hb. reflexivity.
  - rewrite (Nat.min_r b) by exact Hb.
    rewrite !firstn_all2 by lia. reflexivity.
Qed.

Lemma load_arrays_are_consecutive_witness :
  exists view,
    Uint32Array_of_buffer
      (body (mkResponse true (shortBuffer ++ shortBuffer ++ shortBuffer ++ shortBuffer)))
    = Some view
    /\ (length (body (mkResponse true
                        (shortBuffer ++ shortBuffer ++ shortBuffer ++ shortBuffer)))
        = 4 * length view)%nat
    /\ Forall (fun w => 0 <= w < 2 ^ 32) view
    /\ nodes (new_VoxelCollider shortMetadata [7; 7] [7; 7])
       ++ leafData (new_VoxelCollider shortMetadata [7; 7] [7; 7])
       = firstn (length (nodes (new_VoxelCollider shortMetadata [7; 7] [7; 7]))
                 + length (leafData (new_VoxelCollider shortMetadata [7; 7] [7; 7])))
                view.
Proof.
  apply (load_arrays_are_consecutive (mkResponse true shortMetadata)
           (mkResponse true (shortBuffer ++ shortBuffer ++ shortBuffer ++ shortBuffer))).
  reflexivity.
Defined.

(** ** What a resolver reports *)

Section ScanFacts.
Context {F : Type} {N : Number F}.

Lemma fold_left_flat_map {A B C : Type} (g : A -> C -> A) (h : B -> list C)
  (l : list B) (a : A) :
  fold_left g (flat_map h l) a = fold_left (fun a b => fold_left g (h b) a) l a.
Proof.
  revert a. induction l as [|b l IH]; intros a; cbn [flat_map fold_left].
  - reflexivity.
  - rewrite fold_left_app. apply IH.
Qed.

Lemma fold_left_map {A B C : Type} (g : A -> C -> A) (h : B -> C)
  (l : list B) (a : A) :
  fold_left g (map h l) a = fold_left (fun a b => g a (h b)) l a.
Proof.
  revert a. induction l as [|b l IH]; intros a; cbn [map fold_left].
  - reflexivity.
  - apply IH.
Qed.

(** The three nested loops as one pass over the voxels in loop order. *)
Lemma scan_flatten (f : Z -> Z -> Z -> option (Contact F)) (xs ys zs : list Z)
  (b0 : Best F) :
  fold_left (fun b iz =>
    fold_left (fun b iy =>
      fold_left (fun b ix => consider b (f ix iy iz)) xs b) ys b) zs b0
  = fold_left consider
      (map (fun '(ix, iy, iz) => f ix iy iz) (voxelsOf xs ys zs)) b0.
Proof.
  unfold voxelsOf. rewrite fold_left_map, fold_left_flat_map.
  apply fold_left_ext. intros b iz.
  rewrite fold_left_flat_map. apply fold_left_ext. intros b' iy.
  rewrite fold_left_map. reflexivity.
Qed.

Lemma voxelsOf_In (lo1 hi1 lo2 hi2 lo3 hi3 ix iy iz : Z) :
  In (ix, iy, iz) (voxelsOf (zrange lo1 hi1) (zrange lo2 hi2) (zrange lo3 hi3))
  <-> lo1 <= ix <= hi1 /\ lo2 <= iy <= hi2 /\ lo3 <= iz <= hi3.
Proof.
  unfold voxelsOf. rewrite in_flat_map. split.
  - intros (z0 & Hz & H). rewrite in_flat_map in H. destruct H as (y0 & Hy & H).
    rewrite in_map_iff in H. destruct H as (x0 & E & Hx). inversion E; subst.
    rewrite zrange_In in Hx, Hy, Hz. auto.
  - intros (Hx & Hy & Hz). exists iz. rewrite zrange_In. split; [exact Hz|].
    rewrite in_flat_map. exists iy. rewrite zrange_In. split; [exact Hy|].
    rewrite in_map_iff. exists ix. rewrite zrange_In. auto.
Qed.

(** Nothing deeper than the running best: the locals stay as they are. *)
Lemma consider_fold_fixed (ks : list (option (Contact F))) (b0 : Best F) :
  (forall k, In (Some k) ks -> (penetration k >? bestPenetration b0)%num = false) ->
  fold_left consider ks b0 = b0.
Proof.
  induction ks as [|k0 ks IH]; intros H; cbn [fold_left]; [reflexivity|].
  assert (E : consider b0 k0 = b0).
  { destruct k0 as [k|]; [|reflexivity]. cbn [consider].
    rewrite (H k) by (left; reflexivity). reflexivity. }
  rewrite E. apply IH. intros k Hk. apply H. right. exact Hk.
Qed.

Context {SL : StrictLaws F}.

Lemma consider_fold_spec (ks : list (option (Contact F))) :
  forall b0 : Best F,
  let b := fold_left consider ks b0 in
  (forall k, In (Some k) ks -> (penetration k >? bestPenetration b)%num = false)
  /\ (forall p, (p >? bestPenetration b0)%num = false ->
                (p >? bestPenetration b)%num = false)
  /\ (b = b0
      \/ exists k, In (Some k) ks
           /\ b = mkBest (ct_px k) (ct_py k) (ct_pz k) (penetration k) true
           /\ (penetration k >? bestPenetration b0)%num = true).
Proof.
  induction ks as [|k0 ks IH]; intros b0; cbn [fold_left].
  - cbv zeta. split; [intros k []|]. split; [auto|]. left. reflexivity.
  - destruct (IH (consider b0 k0)) as (H1 & H2 & H3). cbv zeta in *.
    assert (Hmono : forall p, (p >? bestPenetration b0)%num = false ->
                      (p >? bestPenetration (consider b0 k0))%num = false).
    { intros p Hp. destruct k0 as [k|]; [|exact Hp]. cbn [consider].
      destruct (penetration k >? bestPenetration b0)%num eqn:E; [|exact Hp].
      cbn [bestPenetration].
      destruct (p >? penetration k)%num eqn:E2; [|reflexivity].
      rewrite (fltb_trans _ _ _ E E2) in Hp. discriminate. }
    split; [|split].
    + intros k [->|Hk]; [|apply H1; exact Hk].
      apply H2. cbn [consider].
      destruct (penetration k >? bestPenetration b0)%num eqn:E; [|exact E].
      cbn [bestPenetration]. apply fltb_irrefl.
    + intros p Hp. apply H2, Hmono, Hp.
    + destruct H3 as [E|(k & Hk & E & Hgt)].
      * rewrite E. destruct k0 as [k|]; [|left; reflexivity]. cbn [consider].
        destruct (penetration k >? bestPenetration b0)%num eqn:E2; [|left; reflexivity].
        right. exists k. split; [left; reflexivity|]. split; [reflexivity|exact E2].
      * right. exists k. split; [right; exact Hk|]. split; [exact E|].
        destruct (penetration k >? bestPenetration b0)%num eqn:E2; [reflexivity|].
        rewrite (Hmono _ E2) in Hgt. discriminate.
Qed.

End ScanFacts.

Section Deepest.
Context {F : Type} {N : Number F}.

Lemma sphereScan_flat (c : VoxelCollider F) (cx cy cz radius : F) :
  sphereScan c cx cy cz radius
  = fold_left consider
      (map (fun '(ix, iy, iz) => sphereVoxel c cx cy cz radius ix iy iz)
           (voxelsOf
              (zrange (ffloor ((cx - radius - gridMinX c) / voxelResolution c)%num)
                      (ffloor ((cx + radius - gridMinX c) / voxelResolution c)%num))
              (zrange (ffloor ((cy - radius - gridMinY c) / voxelResolution c)%num)
                      (ffloor ((cy + radius - gridMinY c) / voxelResolution c)%num))
              (zrange (ffloor ((cz - radius - gridMinZ c) / voxelResolution c)%num)
                      (ffloor ((cz + radius - gridMinZ c) / voxelResolution c)%num))))
      (mkBest fzero fzero fzero PENETRATION_EPSILON false).
Proof. unfold sphereScan. cbv zeta. apply scan_flatten. Qed.

Lemma capsuleScan_flat (c : VoxelCollider F) (cx cy cz halfHeight radius : F) :
  capsuleScan c cx cy cz halfHeight radius
  = fold_left consider
      (map (fun '(ix, iy, iz) => capsuleVoxel c cx cy cz halfHeight radius ix iy iz)
           (voxelsOf
              (zrange (ffloor ((cx - radius - gridMinX c) / voxelResolution c)%num)
                      (ffloor ((cx + radius - gridMinX c) / voxelResolution c)%num))
              (zrange (ffloor ((cy - halfHeight - radius - gridMinY c)
                               / voxelResolution c)%num)
                      (ffloor ((cy + halfHeight + radius - gridMinY c)
                               / voxelResolution c)%num))
              (zrange (ffloor ((cz - radius - gridMinZ c) / voxelResolution c)%num)
                      (ffloor ((cz + radius - gridMinZ c) / voxelResolution c)%num))))
      (mkBest fzero fzero fzero PENETRATION_EPSILON false).
Proof. unfold capsuleScan. cbv zeta. apply scan_flatten. Qed.

Lemma In_contacts (f : Z -> Z -> Z -> option (Contact F))
  (lo1 hi1 lo2 hi2 lo3 hi3 : Z) (k : Contact F) :
  In (Some k) (map (fun '(ix, iy, iz) => f ix iy iz)
                   (voxelsOf (zrange lo1 hi1) (zrange lo2 hi2) (zrange lo3 hi3)))
  <-> exists ix iy iz,
        (lo1 <= ix <= hi1 /\ lo2 <= iy <= hi2 /\ lo3 <= iz <= hi3)
        /\ f ix iy iz = Some k.
Proof.
  rewrite in_map_iff. split.
  - intros ([[ix iy] iz] & E & H). apply voxelsOf_In in H.
    exists ix, iy, iz. auto.
  - intros (ix & iy & iz & H & E). exists (ix, iy, iz).
    split; [exact E|]. apply voxelsOf_In. exact H.
Qed.

(** What the scan leaves in its locals, for any loop body. *)
Lemma scan_deepest {SL : StrictLaws F} (f : Z -> Z -> Z -> option (Contact F))
  (lo1 hi1 lo2 hi2 lo3 hi3 : Z) :
  let inRange ix iy iz := lo1 <= ix <= hi1 /\ lo2 <= iy <= hi2 /\ lo3 <= iz <= hi3 in
  let best :=
    fold_left consider
      (map (fun '(ix, iy, iz) => f ix iy iz)
           (voxelsOf (zrange lo1 hi1) (zrange lo2 hi2) (zrange lo3 hi3)))
      (mkBest fzero fzero fzero PENETRATION_EPSILON false) in
  if found best
  then exists ix iy iz k,
         inRange ix iy iz /\ f ix iy iz = Some k
         /\ best = mkBest (ct_px k) (ct_py k) (ct_pz k) (penetration k) true
         /\ (penetration k >? PENETRATION_EPSILON)%num = true
         /\ forall ix' iy' iz' k',
              inRange ix' iy' iz' -> f ix' iy' iz' = Some k' ->
              (penetration k' >? penetration k)%num = false
  else best = mkBest fzero fzero fzero PENETRATION_EPSILON false
       /\ forall ix iy iz k,
            inRange ix iy iz -> f ix iy iz = Some k ->
            (penetration k >? PENETRATION_EPSILON)%num = false.
Proof.
  cbv zeta.
  destruct (consider_fold_spec
              (map (fun '(ix, iy, iz) => f ix iy iz)
                 (voxelsOf (zrange lo1 hi1) (zrange lo2 hi2) (zrange lo3 hi3)))
              (mkBest fzero fzero fzero PENETRATION_EPSILON false))
    as (H1 & _ & H3).
  cbv zeta in *.
  destruct H3 as [E|(k & Hk & E & Hgt)].
  - rewrite E in *. cbn [found bestPenetration] in *. split; [reflexivity|].
    intros ix iy iz k Hr Hf. apply H1. apply In_contacts. exists ix, iy, iz. auto.
  - rewrite E in *. cbn [found bestPenetration] in *.
    apply In_contacts in Hk. destruct Hk as (ix & iy & iz & Hr & Hf).
    exists ix, iy, iz, k. repeat split; try assumption; try apply Hr.
    intros ix' iy' iz' k' Hr' Hf'. apply H1. apply In_contacts.
    exists ix', iy', iz'. auto.
Qed.

Context {SL : StrictLaws F}.

(** X8: when [resolveDeepestPenetration] returns true, [_push] holds the
    push of a solid voxel of the scanned range whose penetration exceeds
    [PENETRATION_EPSILON] and is exceeded by that of no voxel of the range;
    when it returns false the object is as it was and no voxel of the range
    penetrates by more than [PENETRATION_EPSILON]. *)
Theorem sphere_resolver_reports_deepest (c : VoxelCollider F) (cx cy cz radius : F) :
  let r := resolveDeepestPenetration c cx cy cz radius in
  if fst r
  then exists ix iy iz k,
         inSphereRange c cx cy cz radius ix iy iz
         /\ isVoxelSolid c ix iy iz = true
         /\ sphereVoxel c cx cy cz radius ix iy iz = Some k
         /\ snd r = set_push c (mkPushOut (ct_px k) (ct_py k) (ct_pz k))
         /\ (penetration k >? PENETRATION_EPSILON)%num = true
         /\ forall ix' iy' iz' k',
              inSphereRange c cx cy cz radius ix' iy' iz' ->
              sphereVoxel c cx cy cz radius ix' iy' iz' = Some k' ->
              (penetration k' >? penetration k)%num = false
  else snd r = c
       /\ forall ix iy iz k,
            inSphereRange c cx cy cz radius ix iy iz ->
            sphereVoxel c cx cy cz radius ix iy iz = Some k ->
            (penetration k >? PENETRATION_EPSILON)%num = false.
Proof.
  cbv zeta. unfold resolveDeepestPenetration. rewrite sphereScan_flat.
  pose proof (scan_deepest (sphereVoxel c cx cy cz radius)
                (ffloor ((cx - radius - gridMinX c) / voxelResolution c)%num)
                (ffloor ((cx + radius - gridMinX c) / voxelResolution c)%num)
                (ffloor ((cy - radius - gridMinY c) / voxelResolution c)%num)
                (ffloor ((cy + radius - gridMinY c) / voxelResolution c)%num)
                (ffloor ((cz - radius - gridMinZ c) / voxelResolution c)%num)
                (ffloor ((cz + radius - gridMinZ c) / voxelResolution c)%num)) as H.
  cbv zeta in H.
  destruct (found _); cbn [fst snd].
  - destruct H as (ix & iy & iz & k & Hr & Hf & E & Hgt & Hmax).
    exists ix, iy, iz, k. split; [exact Hr|]. split.
    { unfold sphereVoxel in Hf. destruct (isVoxelSolid c ix iy iz); [reflexivity|].
      discriminate. }
    split; [exact Hf|]. split; [rewrite E; reflexivity|]. split; [exact Hgt|].
    exact Hmax.
  - destruct H as [_ H]. split; [reflexivity|exact H].
Qed.

(** X9: the same for [resolveDeepestPenetrationCapsule]. *)
Theorem capsule_resolver_reports_deepest (c : VoxelCollider F)
  (cx cy cz halfHeight radius : F) :
  let r := resolveDeepestPenetrationCapsule c cx cy cz halfHeight radius in
  if fst r
  then exists ix iy iz k,
         inCapsuleRange c cx cy cz halfHeight radius ix iy iz
         /\ isVoxelSolid c ix iy iz = true
         /\ capsuleVoxel c cx cy cz halfHeight radius ix iy iz = Some k
         /\ snd r = set_push c (mkPushOut (ct_px k) (ct_py k) (ct_pz k))
         /\ (penetration k >? PENETRATION_EPSILON)%num = true
         /\ forall ix' iy' iz' k',
              inCapsuleRange c cx cy cz halfHeight radius ix' iy' iz' ->
              capsuleVoxel c cx cy cz halfHeight radius ix' iy' iz' = Some k' ->
              (penetration k' >? penetration k)%num = false
  else snd r = c
       /\ forall ix iy iz k,
            inCapsuleRange c cx cy cz halfHeight radius ix iy iz ->
            capsuleVoxel c cx cy cz halfHeight radius ix iy iz = Some k ->
            (penetration k >? PENETRATION_EPSILON)%num = false.
Proof.
  cbv zeta. unfold resolveDeepestPenetrationCapsule. rewrite capsuleScan_flat.
  pose proof (scan_deepest (capsuleVoxel c cx cy cz halfHeight radius)
                (ffloor ((cx - radius - gridMinX c) / voxelResolution c)%num)
                (ffloor ((cx + radius - gridMinX c) / voxelResolution c)%num)
                (ffloor ((cy - halfHeight - radius - gridMinY c) / voxelResolution c)%num)
                (ffloor ((cy + halfHeight + radius - gridMinY c) / voxelResolution c)%num)
                (ffloor ((cz - radius - gridMinZ c) / voxelResolution c)%num)
                (ffloor ((cz + radius - gridMinZ c) / voxelResolution c)%num)) as H.
  cbv zeta in H.
  destruct (found _); cbn [fst snd].
  - destruct H as (ix & iy & iz & k & Hr & Hf & E & Hgt & Hmax).
    exists ix, iy, iz, k. split; [exact Hr|]. split.
    { unfold capsuleVoxel in Hf. destruct (isVoxelSolid c ix iy iz); [reflexivity|].
      discriminate. }
    split; [exact Hf|]. split; [rewrite E; reflexivity|]. split; [exact Hgt|].
    exact Hmax.
  - destruct H as [_ H]. split; [reflexivity|exact H].
Qed.

End Deepest.

Section Clear.
Context {F : Type} {N : Number F}.

Lemma sphere_resolver_clear (c : VoxelCollider F) (cx cy cz radius : F) :
  (forall ix iy iz k,
      inSphereRange c cx cy cz radius ix iy iz ->
      sphereVoxel c cx cy cz radius ix iy iz = Some k ->
      (penetration k >? PENETRATION_EPSILON)%num = false) ->
  resolveDeepestPenetration c cx cy cz radius = (false, c).
Proof.
  intros H. unfold resolveDeepestPenetration. rewrite sphereScan_flat.
  rewrite consider_fold_fixed; [reflexivity|].
  intros k Hk. cbn [bestPenetration]. apply In_contacts in Hk.
  destruct Hk as (ix & iy & iz & Hr & Hf). apply (H ix iy iz k); assumption.
Qed.

Lemma capsule_resolver_clear (c : VoxelCollider F) (cx cy cz halfHeight radius : F) :
  (forall ix iy iz k,
      inCapsuleRange c cx cy cz halfHeight radius ix iy iz ->
      capsuleVoxel c cx cy cz halfHeight radius ix iy iz = Some k ->
      (penetration k >? PENETRATION_EPSILON)%num = false) ->
  resolveDeepestPenetrationCapsule c cx cy cz halfHeight radius = (false, c).
Proof.
  intros H. unfold resolveDeepestPenetrationCapsule. rewrite capsuleScan_flat.
  rewrite consider_fold_fixed; [reflexivity|].
  intros k Hk. cbn [bestPenetration]. apply In_contacts in Hk.
  destruct Hk as (ix & iy & iz & Hr & Hf). apply (H ix iy iz k); assumption.
Qed.

(** A query whose resolver finds nothing at the start. *)
Lemma query_without_first_hit
  (resolve : VoxelCollider F -> F -> F -> F -> bool * VoxelCollider F)
  (c : VoxelCollider F) (cx cy cz : F) (out : PushOut F) :
  resolve c cx cy cz = (false, c) ->
  (let '(c', st) := queryLoop resolve maxIterations c
                      (mkIter cx cy cz fzero fzero fzero false O) in
   finishQuery c' st out) = (false, c, out).
Proof.
  intros H. unfold maxIterations. cbn [queryLoop resolvedX resolvedY resolvedZ].
  rewrite H. cbn [negb]. unfold finishQuery. cbn [hadCollision andb]. reflexivity.
Qed.

(** X11: when the six bounds of the scan around the centre are safe
    integers, so that the loops of the resolver run through the range and
    end, and no voxel of that range yields a contact deeper than
    [PENETRATION_EPSILON] (in particular when none is solid),
    [querySphere] returns false after a single scan and leaves [out] and
    every field of the object, the scratch fields included, as they were. *)
Theorem querySphere_clear (c : VoxelCollider F) (cx cy cz radius : F)
  (out : PushOut F) :
  Forall safeFloor (sphereBounds c cx cy cz radius) ->
  (forall ix iy iz k,
      inSphereRange c cx cy cz radius ix iy iz ->
      sphereVoxel c cx cy cz radius ix iy iz = Some k ->
      (penetration k >? PENETRATION_EPSILON)%num = false) ->
  querySphere c cx cy cz radius out = (false, c, out).
Proof.
  intros _ H. unfold querySphere. destruct (_ =? 0); [reflexivity|].
  apply (query_without_first_hit
           (fun c rx ry rz => resolveDeepestPenetration c rx ry rz radius)).
  apply sphere_resolver_clear. exact H.
Qed.

(** X12: the same for [queryCapsule], with the bounds of the capsule's
    scan. *)
Theorem queryCapsule_clear (c : VoxelCollider F) (cx cy cz halfHeight radius : F)
  (out : PushOut F) :
  Forall safeFloor (capsuleBounds c cx cy cz halfHeight radius) ->
  (forall ix iy iz k,
      inCapsuleRange c cx cy cz halfHeight radius ix iy iz ->
      capsuleVoxel c cx cy cz halfHeight radius ix iy iz = Some k ->
      (penetration k >? PENETRATION_EPSILON)%num = false) ->
  queryCapsule c cx cy cz halfHeight radius out = (false, c, out).
Proof.
  intros _ H. unfold queryCapsule. destruct (_ =? 0); [reflexivity|].
  apply (query_without_first_hit
           (fun c rx ry rz =>
              resolveDeepestPenetrationCapsule c rx ry rz halfHeight radius)).
  apply capsule_resolver_clear. exact H.
Qed.

End Clear.

#[export] Instance StrictLaws_Q : StrictLaws Q.
Proof.
  constructor; cbn [fltb Number_Q]; unfold Qltb.
  - intros a. assert (E : Qle_bool a a = true) by (apply Qle_bool_iff, Qle_refl).
    rewrite E. reflexivity.
  - intros a b c Hab Hbc. rewrite negb_true_iff in *.
    destruct (Qle_bool c a) eqn:E; [|reflexivity].
    apply Qle_bool_iff in E.
    assert (Hba : ~ (b <= a)%Q) by (rewrite <- Qle_bool_iff, Hab; discriminate).
    assert (Hcb : ~ (c <= b)%Q) by (rewrite <- Qle_bool_iff, Hbc; discriminate).
    apply Qnot_le_lt in Hba, Hcb.
    exfalso. apply (Qlt_irrefl a).
    apply Qlt_le_trans with c; [|exact E]. apply Qlt_trans with b; assumption.
Qed.

Lemma sphere_resolver_reports_deepest_witness :
  exists ix iy iz k,
    inSphereRange unitVoxelGrid (1 # 2) (13 # 10) (1 # 2) (1 # 2) ix iy iz
    /\ isVoxelSolid unitVoxelGrid ix iy iz = true
    /\ sphereVoxel unitVoxelGrid (1 # 2) (13 # 10) (1 # 2) (1 # 2) ix iy iz = Some k
    /\ snd (resolveDeepestPenetration unitVoxelGrid (1 # 2) (13 # 10) (1 # 2) (1 # 2))
       = set_push unitVoxelGrid (mkPushOut (ct_px k) (ct_py k) (ct_pz k))
    /\ (penetration k >? PENETRATION_EPSILON)%num = true
    /\ forall ix' iy' iz' k',
         inSphereRange unitVoxelGrid (1 # 2) (13 # 10) (1 # 2) (1 # 2) ix' iy' iz' ->
         sphereVoxel unitVoxelGrid (1 # 2) (13 # 10) (1 # 2) (1 # 2) ix' iy' iz'
         = Some k' ->
         (penetration k' >? penetration k)%num = false.
Proof.
  pose proof (sphere_resolver_reports_deepest unitVoxelGrid
                (1 # 2) (13 # 10) (1 # 2) (1 # 2)) as H.
  cbv zeta in H.
  assert (E : fst (resolveDeepestPenetration unitVoxelGrid (1 # 2) (13 # 10) (1 # 2) (1 # 2))
              = true) by (vm_compute; reflexivity).
  rewrite E in H. exact H.
Defined.

Lemma capsule_resolver_reports_deepest_witness :
  exists ix iy iz k,
    inCapsuleRange unitVoxelGrid (1 # 2) (17 # 10) (1 # 2) (1 # 2) (1 # 2) ix iy iz
    /\ isVoxelSolid unitVoxelGrid ix iy iz = true
    /\ capsuleVoxel unitVoxelGrid (1 # 2) (17 # 10) (1 # 2) (1 # 2) (1 # 2) ix iy iz
       = Some k
    /\ snd (resolveDeepestPenetrationCapsule unitVoxelGrid
              (1 # 2) (17 # 10) (1 # 2) (1 # 2) (1 # 2))
       = set_push unitVoxelGrid (mkPushOut (ct_px k) (ct_py k) (ct_pz k))
    /\ (penetration k >? PENETRATION_EPSILON)%num = true
    /\ forall ix' iy' iz' k',
         inCapsuleRange unitVoxelGrid (1 # 2) (17 # 10) (1 # 2) (1 # 2) (1 # 2)
           ix' iy' iz' ->
         capsuleVoxel unitVoxelGrid (1 # 2) (17 # 10) (1 # 2) (1 # 2) (1 # 2) ix' iy' iz'
         = Some k' ->
         (penetration k' >? penetration k)%num = false.
Proof.
  pose proof (capsule_resolver_reports_deepest unitVoxelGrid
                (1 # 2) (17 # 10) (1 # 2) (1 # 2) (1 # 2)) as H.
  cbv zeta in H.
  assert (E : fst (resolveDeepestPenetrationCapsule unitVoxelGrid
                     (1 # 2) (17 # 10) (1 # 2) (1 # 2) (1 # 2))
              = true) by (vm_compute; reflexivity).
  rewrite E in H. exact H.
Defined.

Lemma querySphere_clear_witness :
  querySphere unitVoxelGrid (5 # 2) (5 # 2) (5 # 2) (1 # 2) (mkPushOut 7 7 7)%Q
  = (false, unitVoxelGrid, (mkPushOut 7 7 7)%Q).
Proof.
  apply querySphere_clear.
  - unfold sphereBounds.
    repeat (apply Forall_cons; [split; [split; reflexivity | split; reflexivity]|]).
    apply Forall_nil.
  - intros ix iy iz k (Hx & Hy & Hz) Hf.
    change (2 <= ix <= 3) in Hx. change (2 <= iy <= 3) in Hy. change (2 <= iz <= 3) in Hz.
    assert (Ex : ix = 2 \/ ix = 3) by lia.
    assert (Ey : iy = 2 \/ iy = 3) by lia.
    assert (Ez : iz = 2 \/ iz = 3) by lia.
    destruct Ex as [-> | ->], Ey as [-> | ->], Ez as [-> | ->];
      (vm_compute in Hf; discriminate Hf).
Defined.

Lemma queryCapsule_clear_witness :
  queryCapsule unitVoxelGrid (5 # 2) (5 # 2) (5 # 2) (1 # 2) (1 # 4) (mkPushOut 7 7 7)%Q
  = (false, unitVoxelGrid, (mkPushOut 7 7 7)%Q).
Proof.
  apply queryCapsule_clear.
  - unfold capsuleBounds.
    repeat (apply Forall_cons; [split; [split; reflexivity | split; reflexivity]|]).
    apply Forall_nil.
  - intros ix iy iz k (Hx & Hy & Hz) Hf.
    change (2 <= ix <= 2) in Hx. change (1 <= iy <= 3) in Hy. change (2 <= iz <= 2) in Hz.
    assert (ix = 2) by lia. assert (iz = 2) by lia.
    assert (Ey : iy = 1 \/ iy = 2 \/ iy = 3) by lia. subst.
    destruct Ey as [-> | [-> | ->]]; vm_compute in Hf; discriminate Hf.
Defined.

(** On doubles a centre at infinity, or at [2^53], has no safe bounds: these
    are the centres from which the loops of the source would not end. *)
Lemma unsafe_bounds_on_doubles :
  ~ Forall safeFloor (sphereBounds Double.unitVoxelGrid PrimFloat.infinity
                        PrimFloat.zero PrimFloat.zero PrimFloat.one)
  /\ ~ Forall safeFloor (sphereBounds Double.unitVoxelGrid
                           (Double.of_Z (2 ^ 53)) PrimFloat.zero PrimFloat.zero
                           PrimFloat.one).
Proof.
  split; intros H; rewrite Forall_forall in H.
  - destruct (H _ (or_introl eq_refl)) as (_ & _ & Hu).
    vm_compute in Hu. discriminate Hu.
  - destruct (H _ (or_intror (or_intror (or_intror (or_introl eq_refl)))))
      as ((_ & Hr) & _).
    vm_compute in Hr. discriminate Hr.
Qed.

(** ** Choices made by comparing numbers *)

Section Ordered.
Context {F : Type} {N : Number F} {O : OrderLaws F} {M : MinMaxLaws F}.

Lemma fleb_refl (a : F) : (a <=? a)%num = true.
Proof. destruct (fleb_total a a); assumption. Qed.

Lemma fleb_false (a b : F) : (a <=? b)%num = false -> (b <=? a)%num = true.
Proof. intros H. destruct (fleb_total a b) as [E|E]; [congruence|exact E]. Qed.

Ltac compare_all :=
  repeat match goal with
         | |- context [(?a <=? ?b)%num] =>
             is_var a; is_var b;
             let E := fresh "E" in
             destruct (a <=? b)%num eqn:E;
             [|pose proof (fleb_false _ _ E)]; cbv iota
         end.

Ltac ordered :=
  solve [ assumption | apply fleb_refl
        | eapply fleb_trans; [eassumption|eassumption] ].

Ltac absurd_order :=
  exfalso;
  solve [ congruence
        | match goal with
          | H1 : (?a <=? ?b)%num = true, H2 : (?b <=? ?c)%num = true,
            H3 : (?a <=? ?c)%num = false |- _ =>
              rewrite (fleb_trans _ _ _ H1 H2) in H3; discriminate
          end ].

Ltac perm3 :=
  solve [ apply Permutation_refl
        | apply perm_swap
        | apply perm_skip, perm_swap
        | eapply perm_trans; [apply perm_swap|apply perm_skip, perm_swap]
        | eapply perm_trans; [apply perm_skip, perm_swap|apply perm_swap]
        | eapply perm_trans; [apply perm_skip, perm_swap|];
          eapply perm_trans; [apply perm_swap|apply perm_skip, perm_swap] ].

(** X20: [edgeDist] of [edgeFactor] is the median of the three face
    distances, as its comment says: it is one of them, with one of the
    other two below it and the other above. *)
Theorem edgeDist_is_median (fx fy fz : F) :
  exists lo hi,
    Permutation [lo; edgeDist fx fy fz; hi] [fx; fy; fz]
    /\ (lo <=? edgeDist fx fy fz)%num = true
    /\ (edgeDist fx fy fz <=? hi)%num = true.
Proof.
  unfold edgeDist. rewrite !fmax_fleb, !fmin_fleb.
  compare_all;
    first [ exists fx, fy; split; [perm3|split; ordered]
          | exists fx, fz; split; [perm3|split; ordered]
          | exists fy, fx; split; [perm3|split; ordered]
          | exists fy, fz; split; [perm3|split; ordered]
          | exists fz, fx; split; [perm3|split; ordered]
          | exists fz, fy; split; [perm3|split; ordered]
          | absurd_order ].
Qed.

(** X21: [faceAxis] of [shadeVoxelHit] names an axis whose face distance
    is least among the three. *)
Theorem faceAxis_is_least (fx fy fz : F) :
  let f := match faceAxis fx fy fz with 0 => fx | 1 => fy | _ => fz end in
  (f <=? fx)%num = true /\ (f <=? fy)%num = true /\ (f <=? fz)%num = true.
Proof.
  cbv zeta. unfold faceAxis.
  destruct (fy <=? fx)%num eqn:Eyx, (fy <=? fz)%num eqn:Eyz; cbn [andb].
  - auto using fleb_refl.
  - apply fleb_false in Eyz.
    pose proof (fleb_trans _ _ _ Eyz Eyx) as Ezx. rewrite Ezx.
    auto using fleb_refl.
  - apply fleb_false in Eyx.
    destruct (fz <=? fx)%num eqn:Ezx.
    + split; [exact Ezx|]. split; [apply (fleb_trans _ _ _ Ezx Eyx)|apply fleb_refl].
    + apply fleb_false in Ezx. auto using fleb_refl.
  - apply fleb_false in Eyx. apply fleb_false in Eyz.
    destruct (fz <=? fx)%num eqn:Ezx.
    + auto using fleb_refl.
    + apply fleb_false in Ezx. auto using fleb_refl.
Qed.

(** X10: for a capsule segment and a voxel extent that are both ordered,
    the point [segY] the capsule resolver picks lies on the segment; and
    when the segment and the extent overlap it lies inside the extent as
    well, so that the vertical distance to the voxel is zero. *)
Theorem segmentY_on_segment (segBottomY segTopY vMinY vMaxY : F) :
  (segBottomY <=? segTopY)%num = true ->
  (vMinY <=? vMaxY)%num = true ->
  let segY := segmentY segBottomY segTopY vMinY vMaxY in
  ((segBottomY <=? segY)%num = true /\ (segY <=? segTopY)%num = true)
  /\ ((segTopY <? vMinY)%num = false -> (segBottomY >? vMaxY)%num = false ->
      (vMinY <=? segTopY)%num = true -> (segBottomY <=? vMaxY)%num = true ->
      (vMinY <=? segY)%num = true /\ (segY <=? vMaxY)%num = true).
Proof.
  intros Hseg Hv. cbv zeta. unfold segmentY.
  destruct (fmid_between vMinY vMaxY Hv) as [Hlo Hhi].
  set (mid := ((vMinY + vMaxY) * fhalf)%num) in *.
  split.
  - destruct (segTopY <? vMinY)%num; [auto using fleb_refl|].
    destruct (segBottomY >? vMaxY)%num; [auto using fleb_refl|].
    rewrite fmax_fleb, fmin_fleb.
    destruct (segTopY <=? mid)%num eqn:E1.
    + destruct (segTopY <=? segBottomY)%num eqn:E2; auto using fleb_refl.
    + apply fleb_false in E1. destruct (mid <=? segBottomY)%num eqn:E2.
      * auto using fleb_refl.
      * apply fleb_false in E2. auto.
  - intros -> -> Ht Hb. rewrite fmax_fleb, fmin_fleb.
    destruct (segTopY <=? mid)%num eqn:E1.
    + destruct (segTopY <=? segBottomY)%num eqn:E2.
      * split; [|exact Hb]. apply (fleb_trans _ _ _ Ht E2).
      * split; [exact Ht|]. apply (fleb_trans _ _ _ E1 Hhi).
    + apply fleb_false in E1. destruct (mid <=? segBottomY)%num eqn:E2.
      * split; [|exact Hb]. apply (fleb_trans _ _ _ Hlo E2).
      * auto.
Qed.

End Ordered.

#[export] Instance MinMaxLaws_Q : MinMaxLaws Q.
Proof.
  constructor; cbn [fmax fmin fleb fadd fmul fhalf Number_Q].
  - intros a b. unfold Qmax, GenericMinMax.gmax, Qle_bool, Qcompare, Z.leb.
    rewrite (Z.compare_antisym (Qnum a * QDen b) (Qnum b * QDen a)).
    destruct (_ ?= _); reflexivity.
  - intros a b. unfold Qmin, GenericMinMax.gmin, Qle_bool, Qcompare, Z.leb.
    destruct (_ ?= _); reflexivity.
  - intros a b. rewrite !Qle_bool_iff. intros H. split; lra.
Qed.

Lemma edgeDist_is_median_witness :
  exists lo hi : Q,
    Permutation [lo; edgeDist (3 # 10) (1 # 10) (2 # 10); hi]
                [(3 # 10); (1 # 10); (2 # 10)]%Q
    /\ (lo <=? edgeDist (3 # 10) (1 # 10) (2 # 10))%num = true
    /\ (edgeDist (3 # 10) (1 # 10) (2 # 10) <=? hi)%num = true.
Proof. exact (edgeDist_is_median (3 # 10)%Q (1 # 10)%Q (2 # 10)%Q). Defined.

Lemma faceAxis_is_least_witness :
  let f := match faceAxis (3 # 10)%Q (1 # 10)%Q (2 # 10)%Q with
           | 0 => (3 # 10)%Q | 1 => (1 # 10)%Q | _ => (2 # 10)%Q end in
  (f <=? (3 # 10)%Q)%num = true /\ (f <=? (1 # 10)%Q)%num = true
  /\ (f <=? (2 # 10)%Q)%num = true.
Proof. exact (faceAxis_is_least (3 # 10)%Q (1 # 10)%Q (2 # 10)%Q). Defined.

Lemma segmentY_on_segment_witness :
  let segY := segmentY (1 # 2)%Q (3 # 1)%Q (1 # 1)%Q (2 # 1)%Q in
  (((1 # 2)%Q <=? segY)%num = true /\ (segY <=? (3 # 1)%Q)%num = true)
  /\ (((1 # 1)%Q <=? segY)%num = true /\ (segY <=? (2 # 1)%Q)%num = true).
Proof.
  pose proof (segmentY_on_segment (1 # 2)%Q (3 # 1)%Q (1 # 1)%Q (2 # 1)%Q
                eq_refl eq_refl) as [H1 H2].
  split; [exact H1|]. apply H2; reflexivity.
Defined.

(** ** The camera controllers *)

Section ControllerFacts.
Context {F : Type} {N : Number F}.


(** X14: what [_resolveCapsuleCollision] does to the vertical velocity
    and the ground flag: the velocity is kept or set to 0; the ground flag
    is never cleared, and it is set only for the target position, after a
    collision whose push is upward in world space, while falling, the
    velocity being 0 afterwards; for the smoothed position neither changes;
    without a collision the eye position, the velocity and the flag are
    kept. *)
Theorem fps_ground_contact (this : FpsController F) (pushOut eyePos : PushOut F)
  (isTarget : bool) :
  let q := queryCapsule (collider this) (- x eyePos)%num
             (- (y eyePos - eyeHeight this + capsuleHeight this * fhalf))%num (z eyePos)
             (capsuleHeight this * fhalf - capsuleRadius this)%num (capsuleRadius this)
             pushOut in
  let r := _resolveCapsuleCollision this pushOut eyePos isTarget in
  let this' := fst (fst r) in
  (_velocityY this' = _velocityY this \/ _velocityY this' = fzero)
  /\ (_onGround this = true -> _onGround this' = true)
  /\ (isTarget = false ->
      _velocityY this' = _velocityY this /\ _onGround this' = _onGround this)
  /\ (_onGround this' <> _onGround this ->
      isTarget = true /\ fst (fst q) = true
      /\ (- y (snd q) >? fzero)%num = true /\ (_velocityY this <? fzero)%num = true
      /\ _velocityY this' = fzero)
  /\ (fst (fst q) = false ->
      snd r = eyePos /\ _velocityY this' = _velocityY this
      /\ _onGround this' = _onGround this)
  /\ snd (fst r) = snd q
  /\ collider this' = snd (fst q).
Proof.
  cbv zeta. unfold _resolveCapsuleCollision. cbv zeta.
  destruct (queryCapsule _ _ _ _ _ _ _) as [[hit c'] po]. cbn [fst snd].
  destruct hit; [|cbn [fst snd _velocityY _onGround collider]; intuition congruence].
  destruct isTarget; [|cbn [fst snd _velocityY _onGround collider]; intuition congruence].
  destruct (- y po >? fzero)%num, (_velocityY this <? fzero)%num; cbn [andb];
    try (destruct (- y po <? fzero)%num; cbn [andb]);
    try (destruct (fzero >? fzero)%num);
    try (destruct (_velocityY this >? fzero)%num);
    cbn [fst snd _velocityY _onGround collider];
    repeat split; auto; try congruence; try (intros Hc; exfalso; apply Hc; reflexivity);
    try (intros Hc; destruct (_onGround this); congruence).
Qed.

End ControllerFacts.

Section FlyFacts.
Context {F : Type} {N : Number F}.


End FlyFacts.



(** ** The overlay: lookup, coarse skip, dispatch *)

Lemma leafIdx_range (node : Z) : 0 <= Z.land node 0x00FFFFFF < 2 ^ 24.
Proof.
  change 0x00FFFFFF with (Z.ones 24). rewrite Z.land_ones by lia.
  apply Z.mod_pos_bound. lia.
Qed.

Lemma queryBlockLeaf_shape {F : Type} (oob : Z) (c : VoxelCollider F) (i : Z) :
  queryBlockLeaf oob c i = (1, 0)
  \/ exists r, queryBlockLeaf oob c i = (r, 0) /\ 2 <= r < 2 + 2 ^ 24.
Proof.
  unfold queryBlockLeaf. destruct (_ =? _); [left; reflexivity|right].
  eexists. split; [reflexivity|].
  pose proof (leafIdx_range (WGSL.load oob (gpu_nodes c) i)).
  unfold WGSL.add. rewrite u32_small; lia.
Qed.

Lemma queryBlockLoop_shape {F : Type} (oob : Z) (c : VoxelCollider F)
  (bx by_ bz : Z) (n : nat) :
  forall level i,
    level = Z.of_nat n -> level < 2 ^ 32 ->
    (exists e, queryBlockLoop oob c bx by_ bz n level i = (0, e) /\ 0 <= e <= level)
    \/ queryBlockLoop oob c bx by_ bz n level i = (1, 0)
    \/ exists r, queryBlockLoop oob c bx by_ bz n level i = (r, 0) /\ 2 <= r < 2 + 2 ^ 24.
Proof.
  induction n as [|m IH]; intros level i Hl Hb; rewrite queryBlockLoop_eq; cbv zeta.
  - destruct (_ =? 0xFF000000); [right; left; reflexivity|].
    destruct (_ =? 0).
    { right; right. eexists. split; [reflexivity|].
      pose proof (leafIdx_range (WGSL.load oob (gpu_nodes c) i)).
      unfold WGSL.add. rewrite u32_small; lia. }
    destruct (_ =? 0).
    { left. exists level. split; [reflexivity|lia]. }
    right. destruct (level =? 0); apply queryBlockLeaf_shape.
  - destruct (_ =? 0xFF000000); [right; left; reflexivity|].
    destruct (_ =? 0).
    { right; right. eexists. split; [reflexivity|].
      pose proof (leafIdx_range (WGSL.load oob (gpu_nodes c) i)).
      unfold WGSL.add. rewrite u32_small; lia. }
    destruct (_ =? 0).
    { left. exists level. split; [reflexivity|lia]. }
    destruct (Z.eqb_spec level 0) as [E|E]; [right; apply queryBlockLeaf_shape|].
    assert (Hs : WGSL.sub level 1 = Z.of_nat m)
      by (unfold WGSL.sub; rewrite u32_small; lia).
    match goal with
    | |- context [queryBlockLoop oob c bx by_ bz m _ ?j] =>
        destruct (IH (WGSL.sub level 1) j Hs ltac:(lia)) as [(e & He & Hr)|[H1|H2]]
    end.
    + left. exists e. split; [exact He|lia].
    + right; left; exact H1.
    + right; right; exact H2.
Qed.

(** X16: what [queryBlock] returns, on any buffers: 0 with a level from 0
    to [treeDepth - 1] (as [u32]), or 1 with level 0, or a value from 2 to
    2^24 + 1 with level 0; so [blockResult - 2u] in [main] is a leaf index
    below 2^24. *)
Theorem queryBlock_result_shape {F : Type} (oob : Z) (c : VoxelCollider F)
  (bx by_ bz : Z) :
  let r := fst (queryBlock oob c bx by_ bz) in
  let e := snd (queryBlock oob c bx by_ bz) in
  (r = 0 /\ 0 <= e <= WGSL.sub (WGSL.u32 (treeDepth c)) 1)
  \/ (r = 1 /\ e = 0)
  \/ (2 <= r < 2 + 2 ^ 24 /\ e = 0).
Proof.
  cbv zeta. unfold queryBlock.
  set (level := WGSL.sub (WGSL.u32 (treeDepth c)) 1).
  assert (Hl : 0 <= level < 2 ^ 32) by (apply Z.mod_pos_bound; lia).
  destruct (queryBlockLoop_shape oob c bx by_ bz (Z.to_nat level) level 0
              ltac:(lia) ltac:(lia)) as [(e & -> & He)|[->|(r & -> & Hr)]];
    cbn [fst snd]; auto.
Qed.

Lemma cell_bit (b b' L l : Z) :
  0 <= L <= l -> l < 32 -> b / 2 ^ L = b' / 2 ^ L ->
  Z.land (WGSL.shr (WGSL.u32 b) l) 1 = Z.land (WGSL.shr (WGSL.u32 b') l) 1.
Proof.
  intros HL Hl E. rewrite !land_1_bit. f_equal.
  unfold WGSL.shr, WGSL.u32. rewrite (Z.mod_small l 32) by lia.
  rewrite !Z.shiftr_spec, !Z.mod_pow2_bits_low by lia.
  replace (0 + l) with ((l - L) + L) by lia.
  rewrite <- !Z.div_pow2_bits by lia. rewrite E. reflexivity.
Qed.

Lemma queryBlockLoop_cell {F : Type} (oob : Z) (c : VoxelCollider F)
  (bx by_ bz bx' by' bz' L : Z) (n : nat) :
  0 <= L ->
  bx / 2 ^ L = bx' / 2 ^ L -> by_ / 2 ^ L = by' / 2 ^ L -> bz / 2 ^ L = bz' / 2 ^ L ->
  forall level i,
    level = Z.of_nat n -> level < 32 ->
    queryBlockLoop oob c bx by_ bz n level i = (0, L) ->
    queryBlockLoop oob c bx' by' bz' n level i = (0, L).
Proof.
  intros HL Ex Ey Ez.
  induction n as [|m IH]; intros level i Hl Hb H.
  - assert (HLl : L <= level).
    { destruct (queryBlockLoop_shape oob c bx by_ bz 0 level i Hl ltac:(lia))
        as [(e & He & Hr)|[H1|(r & H2 & Hr)]]; rewrite H in *;
        [inversion He; lia|discriminate|inversion H2; lia]. }
    revert H. rewrite !queryBlockLoop_eq. cbv zeta.
    rewrite (cell_bit bx bx' L level), (cell_bit by_ by' L level),
      (cell_bit bz bz' L level) by (lia || assumption).
    trivial.
  - assert (HLl : L <= level).
    { destruct (queryBlockLoop_shape oob c bx by_ bz (S m) level i Hl ltac:(lia))
        as [(e & He & Hr)|[H1|(r & H2 & Hr)]]; rewrite H in *;
        [inversion He; lia|discriminate|inversion H2; lia]. }
    revert H. rewrite !queryBlockLoop_eq. cbv zeta.
    rewrite (cell_bit bx bx' L level), (cell_bit by_ by' L level),
      (cell_bit bz bz' L level) by (lia || assumption).
    destruct (_ =? 0xFF000000); [trivial|].
    destruct (_ =? 0); [trivial|].
    destruct (_ =? 0); [trivial|].
    destruct (Z.eqb_spec level 0) as [E|E]; [trivial|].
    assert (Hs : WGSL.sub level 1 = Z.of_nat m)
      by (unfold WGSL.sub; rewrite u32_small; lia).
    apply IH; [exact Hs|lia].
Qed.

Lemma wrap_i32_small (a : Z) : - 2 ^ 31 <= a < 2 ^ 31 -> wrap_i32 a = a.
Proof. intros H. unfold wrap_i32. rewrite Z.mod_small; lia. Qed.

Lemma wrap_i32_range (a : Z) : - 2 ^ 31 <= wrap_i32 a < 2 ^ 31.
Proof.
  unfold wrap_i32. pose proof (Z.mod_pos_bound (a + 2 ^ 31) (2 ^ 32) ltac:(lia)). lia.
Qed.

Lemma cellBlocks_value (L : Z) : 0 <= L <= 30 -> cellBlocks L = 2 ^ L.
Proof.
  intros HL. unfold cellBlocks. rewrite gpu_shl_1 by lia.
  apply wrap_i32_small.
  assert (0 < 2 ^ L) by (apply Z.pow_pos_nonneg; lia).
  assert (2 ^ L <= 2 ^ 30) by (apply Z.pow_le_mono_r; lia). lia.
Qed.

Lemma cellMin_value (b L : Z) :
  0 <= L <= 30 -> cellMin b L = 2 ^ L * (b / 2 ^ L).
Proof.
  intros HL. unfold cellMin, cellMask. rewrite cellBlocks_value by exact HL.
  assert (0 < 2 ^ L) by (apply Z.pow_pos_nonneg; lia).
  assert (2 ^ L <= 2 ^ 30) by (apply Z.pow_le_mono_r; lia).
  rewrite wrap_i32_small by lia.
  rewrite Z.sub_1_r, <- Z.ones_equiv, <- Z.ldiff_land, Z.ldiff_ones_r by lia.
  rewrite Z.shiftl_mul_pow2, Z.shiftr_div_pow2 by lia. lia.
Qed.

(** X17: the coarse skip of [main] steps over empty blocks only: with 1 to
    31 tree levels, when [queryBlock] returns 0 with [emptyLevel] for a
    block, it returns the same for every block that the test of the skip
    loop keeps inside the cell on the three axes. *)
Theorem skip_cell_is_empty {F : Type} (oob : Z) (c : VoxelCollider F)
  (bx by_ bz emptyLevel bx' by' bz' : Z) :
  1 <= treeDepth c <= 31 ->
  - 2 ^ 31 <= bx < 2 ^ 31 -> - 2 ^ 31 <= by_ < 2 ^ 31 -> - 2 ^ 31 <= bz < 2 ^ 31 ->
  queryBlock oob c bx by_ bz = (0, emptyLevel) ->
  leavesCell bx' (cellMin bx emptyLevel) emptyLevel = false ->
  leavesCell by' (cellMin by_ emptyLevel) emptyLevel = false ->
  leavesCell bz' (cellMin bz emptyLevel) emptyLevel = false ->
  queryBlock oob c bx' by' bz' = (0, emptyLevel).
Proof.
  intros Hd Hx Hy Hz H Cx Cy Cz.
  unfold queryBlock in *.
  assert (Hl : WGSL.sub (WGSL.u32 (treeDepth c)) 1 = treeDepth c - 1)
    by (unfold WGSL.sub; rewrite !u32_small; rewrite ?u32_small; lia).
  rewrite Hl in *.
  assert (HL : 0 <= emptyLevel <= 30).
  { destruct (queryBlockLoop_shape oob c bx by_ bz (Z.to_nat (treeDepth c - 1))
                (treeDepth c - 1) 0 ltac:(lia) ltac:(lia))
      as [(e & He & Hr)|[H1|(r & H2 & Hr)]]; rewrite H in *;
      [inversion He; lia|discriminate|inversion H2; lia]. }
  assert (Hcell : forall b b', - 2 ^ 31 <= b < 2 ^ 31 ->
            leavesCell b' (cellMin b emptyLevel) emptyLevel = false ->
            b / 2 ^ emptyLevel = b' / 2 ^ emptyLevel).
  { intros b b' Hb Hc. unfold leavesCell in Hc.
    rewrite cellBlocks_value, cellMin_value in Hc by exact HL.
    assert (Hp : 0 < 2 ^ emptyLevel) by (apply Z.pow_pos_nonneg; lia).
    assert (Hq : 2 ^ emptyLevel <= 2 ^ 30) by (apply Z.pow_le_mono_r; lia).
    apply orb_false_elim in Hc. destruct Hc as [C1 C2].
    apply Z.ltb_ge in C1. rewrite Z.geb_leb in C2. apply Z.leb_gt in C2.
    pose proof (Z.mul_div_le b (2 ^ emptyLevel) Hp) as Hlo.
    pose proof (Z.mul_succ_div_gt b (2 ^ emptyLevel) Hp) as Hhi.
    pose proof (wrap_i32_range (2 ^ emptyLevel * (b / 2 ^ emptyLevel) + 2 ^ emptyLevel)) as Hw.
    assert (Hle : 2 ^ emptyLevel * (b / 2 ^ emptyLevel) + 2 ^ emptyLevel <= 2 ^ 31).
    { assert (Hd31 : 2 ^ 31 = 2 ^ emptyLevel * 2 ^ (31 - emptyLevel))
        by (rewrite <- Z.pow_add_r by lia; f_equal; lia).
      assert (b / 2 ^ emptyLevel < 2 ^ (31 - emptyLevel)).
      { apply Z.div_lt_upper_bound; lia. }
      nia. }
    destruct (Z.eq_dec (2 ^ emptyLevel * (b / 2 ^ emptyLevel) + 2 ^ emptyLevel) (2 ^ 31))
      as [E|E].
    - rewrite E in C2. change (wrap_i32 (2 ^ 31)) with (- 2 ^ 31) in C2.
      assert (- 2 ^ 31 <= 2 ^ emptyLevel * (b / 2 ^ emptyLevel)).
      { assert (- 2 ^ (31 - emptyLevel) <= b / 2 ^ emptyLevel).
        { apply Z.div_le_lower_bound; [lia|].
          assert (Hd31 : 2 ^ 31 = 2 ^ emptyLevel * 2 ^ (31 - emptyLevel))
            by (rewrite <- Z.pow_add_r by lia; f_equal; lia).
          lia. }
        assert (Hd31 : 2 ^ 31 = 2 ^ emptyLevel * 2 ^ (31 - emptyLevel))
          by (rewrite <- Z.pow_add_r by lia; f_equal; lia).
        nia. }
      lia.
    - rewrite wrap_i32_small in C2.
      + apply (Z.div_unique b' (2 ^ emptyLevel) _
                 (b' - 2 ^ emptyLevel * (b / 2 ^ emptyLevel))); lia.
      + assert (- 2 ^ (31 - emptyLevel) <= b / 2 ^ emptyLevel).
        { apply Z.div_le_lower_bound; [lia|].
          assert (Hd31 : 2 ^ 31 = 2 ^ emptyLevel * 2 ^ (31 - emptyLevel))
            by (rewrite <- Z.pow_add_r by lia; f_equal; lia).
          lia. }
        assert (Hd31 : 2 ^ 31 = 2 ^ emptyLevel * 2 ^ (31 - emptyLevel))
          by (rewrite <- Z.pow_add_r by lia; f_equal; lia).
        nia. }
  apply (queryBlockLoop_cell oob c bx by_ bz bx' by' bz' emptyLevel);
    try (apply Hcell; assumption); try lia. exact H.
Qed.

Lemma skip_cell_is_empty_witness :
  queryBlock 0 twoLevelGrid 3 1 1 = (0, 1).
Proof.
  apply (skip_cell_is_empty 0 twoLevelGrid 2 0 0 1 3 1 1);
    try (cbn [treeDepth twoLevelGrid]; lia); try lia; vm_compute; reflexivity.
Defined.

(** X18: the cell of the coarse skip: [cellBlocks] is [2^emptyLevel],
    [cellMin] is a multiple of it, the block itself is inside the cell, and
    the test of the skip loop keeps exactly the [2^emptyLevel] blocks from
    [cellMin] on. *)
Theorem cell_is_aligned_cube (b emptyLevel : Z) :
  0 <= emptyLevel <= 30 ->
  - 2 ^ 31 <= b < 2 ^ 31 - 2 ^ 30 ->
  cellBlocks emptyLevel = 2 ^ emptyLevel
  /\ cellMin b emptyLevel mod cellBlocks emptyLevel = 0
  /\ leavesCell b (cellMin b emptyLevel) emptyLevel = false
  /\ forall b', leavesCell b' (cellMin b emptyLevel) emptyLevel = false
                <-> cellMin b emptyLevel <= b' < cellMin b emptyLevel + 2 ^ emptyLevel.
Proof.
  intros HL Hb.
  assert (Hp : 0 < 2 ^ emptyLevel) by (apply Z.pow_pos_nonneg; lia).
  assert (Hq : 2 ^ emptyLevel <= 2 ^ 30) by (apply Z.pow_le_mono_r; lia).
  rewrite cellBlocks_value, cellMin_value by exact HL.
  pose proof (Z.mul_div_le b (2 ^ emptyLevel) Hp) as Hlo.
  pose proof (Z.mul_succ_div_gt b (2 ^ emptyLevel) Hp) as Hhi.
  assert (Hmin : - 2 ^ 31 <= 2 ^ emptyLevel * (b / 2 ^ emptyLevel)).
  { assert (Hd31 : 2 ^ 31 = 2 ^ emptyLevel * 2 ^ (31 - emptyLevel))
      by (rewrite <- Z.pow_add_r by lia; f_equal; lia).
    assert (- 2 ^ (31 - emptyLevel) <= b / 2 ^ emptyLevel)
      by (apply Z.div_le_lower_bound; lia).
    nia. }
  assert (Hcell : forall b', leavesCell b' (2 ^ emptyLevel * (b / 2 ^ emptyLevel)) emptyLevel
                             = false
                  <-> 2 ^ emptyLevel * (b / 2 ^ emptyLevel) <= b'
                      < 2 ^ emptyLevel * (b / 2 ^ emptyLevel) + 2 ^ emptyLevel).
  { intros b'. unfold leavesCell. rewrite cellBlocks_value by exact HL.
    rewrite wrap_i32_small by lia.
    rewrite orb_false_iff, Z.geb_leb, Z.leb_gt, Z.ltb_ge. reflexivity. }
  split; [reflexivity|]. split.
  { rewrite Z.mul_comm. apply Z_mod_mult. }
  split; [apply Hcell; lia|exact Hcell].
Qed.

Lemma cell_is_aligned_cube_witness :
  cellBlocks 2 = 2 ^ 2
  /\ cellMin 13 2 mod cellBlocks 2 = 0
  /\ leavesCell 13 (cellMin 13 2) 2 = false
  /\ forall b', leavesCell b' (cellMin 13 2) 2 = false
                <-> cellMin 13 2 <= b' < cellMin 13 2 + 2 ^ 2.
Proof. apply cell_is_aligned_cube; lia. Defined.

(** X19: the overlay on a grid without nodes. The node buffer is created
    with one zero word, which [queryBlock] reads as a mixed leaf with leaf
    index 0: it returns 2 for every block, where the collider reports
    nothing solid. With no leaf data either, the voxels of the lower half
    of a block are drawn empty, and those of the upper half according to
    what the read of [leafData[1]], outside the one-word buffer,
    produces. *)
Theorem overlay_of_unloaded_grid {F : Type} (oob : Z) (c : VoxelCollider F)
  (bx by_ bz : Z) :
  nodes c = [] ->
  queryBlock oob c bx by_ bz = (2, 0)
  /\ (leafData c = [] ->
      forall vx vy vz,
        0 <= vx < 4 -> 0 <= vy < 4 -> 0 <= vz < 4 ->
        blockVoxelSolid oob c 2 vx vy vz
        = if vz <? 2 then false
          else Z.testbit oob (16 * vz + 4 * vy + vx - 32)).
Proof.
  intros En. split.
  - unfold queryBlock. rewrite queryBlockLoop_eq. cbv zeta.
    unfold gpu_nodes. rewrite En. reflexivity.
  - intros El vx vy vz Hx Hy Hz. unfold blockVoxelSolid.
    cbn [Z.eqb Z.gtb Z.compare Pos.compare Pos.compare_cont].
    unfold gpu_leafData. rewrite El.
    change (WGSL.load oob (WGSL.uploadBuffer []) (WGSL.mul (WGSL.sub 2 2) 2)) with 0.
    change (WGSL.load oob (WGSL.uploadBuffer [])
              (WGSL.add (WGSL.mul (WGSL.sub 2 2) 2) 1)) with oob.
    assert (Eb : WGSL.add (WGSL.add (WGSL.mul (WGSL.u32 vz) 16) (WGSL.mul (WGSL.u32 vy) 4))
                          (WGSL.u32 vx) = 16 * vz + 4 * vy + vx).
    { unfold WGSL.add, WGSL.mul.
      rewrite (u32_small vx), (u32_small vy), (u32_small vz) by lia.
      rewrite (u32_small (vz * 16)), (u32_small (vy * 4)) by lia.
      rewrite (u32_small (vz * 16 + vy * 4)) by lia.
      rewrite u32_small by lia. lia. }
    rewrite Eb.
    destruct (Z.ltb_spec (16 * vz + 4 * vy + vx) 32) as [Hlt|Hge];
      destruct (Z.ltb_spec vz 2) as [Hz2|Hz2]; try lia.
    + rewrite Z.land_0_l. reflexivity.
    + assert (Es : WGSL.sub (16 * vz + 4 * vy + vx) 32 = 16 * vz + 4 * vy + vx - 32)
        by (unfold WGSL.sub; rewrite u32_small; lia).
      rewrite Es, gpu_shl_1 by lia. apply land_pow2_test. lia.
Qed.

Lemma overlay_of_unloaded_grid_witness :
  queryBlock 0 emptyGrid 0 0 0 = (2, 0)
  /\ (leafData emptyGrid = [] ->
      forall vx vy vz,
        0 <= vx < 4 -> 0 <= vy < 4 -> 0 <= vz < 4 ->
        blockVoxelSolid 0 emptyGrid 2 vx vy vz
        = if vz <? 2 then false
          else Z.testbit 0 (16 * vz + 4 * vy + vx - 32)).
Proof. apply overlay_of_unloaded_grid. reflexivity. Defined.

(** X22: with [ceil(width / 8)] by [ceil(height / 8)] workgroups of 8 x 8
    invocations, the invocations that pass the guard of [main] are exactly
    the pixels of the screen. *)
Theorem dispatch_covers_screen (width height gx gy : Z) :
  0 < width < 2 ^ 31 -> 0 < height < 2 ^ 31 ->
  (0 <= gx < 8 * workgroups width /\ 0 <= gy < 8 * workgroups height
   /\ draws width height gx gy = true)
  <-> (0 <= gx < width /\ 0 <= gy < height).
Proof.
  intros Hw Hh. unfold draws, workgroups.
  assert (Ew : width <= 8 * - (- width / 8) < width + 8)
    by (Z.div_mod_to_equations; lia).
  assert (Eh : height <= 8 * - (- height / 8) < height + 8)
    by (Z.div_mod_to_equations; lia).
  rewrite (wrap_i32_small width), (wrap_i32_small height) by lia.
  split.
  - intros (Hx & Hy & Hd).
    rewrite !wrap_i32_small in Hd by lia.
    rewrite negb_true_iff, orb_false_iff, !Z.geb_leb, !Z.leb_gt in Hd. lia.
  - intros (Hx & Hy). rewrite !wrap_i32_small by lia.
    rewrite negb_true_iff, orb_false_iff, !Z.geb_leb, !Z.leb_gt. lia.
Qed.

Lemma dispatch_covers_screen_witness :
  (0 <= 1919 < 8 * workgroups 1920 /\ 0 <= 1079 < 8 * workgroups 1080
   /\ draws 1920 1080 1919 1079 = true)
  <-> (0 <= 1919 < 1920 /\ 0 <= 1079 < 1080).
Proof. apply dispatch_covers_screen; lia. Defined.

(** ** The slab test and the vertical motion of the first-person camera *)

Section Slabs.
Context {F : Type} {N : Number F} {O : OrderLaws F} {M : MinMaxLaws F}.

Lemma fmax_upper (a b : F) :
  (a <=? fmax a b)%num = true /\ (b <=? fmax a b)%num = true.
Proof.
  rewrite fmax_fleb. destruct (b <=? a)%num eqn:E.
  - split; [apply fleb_refl|exact E].
  - split; [apply fleb_false; exact E|apply fleb_refl].
Qed.

Lemma fmax_least (a b t : F) :
  (a <=? t)%num = true -> (b <=? t)%num = true -> (fmax a b <=? t)%num = true.
Proof. intros Ha Hb. rewrite fmax_fleb. destruct (b <=? a)%num; assumption. Qed.

Lemma fmin_lower (a b : F) :
  (fmin a b <=? a)%num = true /\ (fmin a b <=? b)%num = true.
Proof.
  rewrite fmin_fleb. destruct (a <=? b)%num eqn:E.
  - split; [apply fleb_refl|exact E].
  - split; [apply fleb_false; exact E|apply fleb_refl].
Qed.

Lemma fmin_greatest (a b t : F) :
  (t <=? a)%num = true -> (t <=? b)%num = true -> (t <=? fmin a b)%num = true.
Proof. intros Ha Hb. rewrite fmin_fleb. destruct (a <=? b)%num; assumption. Qed.

(** X24: the slab test of [intersectAABB]: [tNear <= tFar] exactly when
    some ray parameter lies in the three per-axis intervals at once. *)
Theorem intersectAABB_slabs (ro invDir bmin bmax : PushOut F) :
  let t1x := ((x bmin - x ro) * x invDir)%num in
  let t1y := ((y bmin - y ro) * y invDir)%num in
  let t1z := ((z bmin - z ro) * z invDir)%num in
  let t2x := ((x bmax - x ro) * x invDir)%num in
  let t2y := ((y bmax - y ro) * y invDir)%num in
  let t2z := ((z bmax - z ro) * z invDir)%num in
  let tNear := fst (intersectAABB ro invDir bmin bmax) in
  let tFar := snd (intersectAABB ro invDir bmin bmax) in
  (tNear <=? tFar)%num = true
  <-> exists t,
        ((fmin t1x t2x <=? t)%num = true /\ (t <=? fmax t1x t2x)%num = true)
        /\ ((fmin t1y t2y <=? t)%num = true /\ (t <=? fmax t1y t2y)%num = true)
        /\ ((fmin t1z t2z <=? t)%num = true /\ (t <=? fmax t1z t2z)%num = true).
Proof.
  cbv zeta. unfold intersectAABB. cbv zeta. cbn [fst snd].
  set (t1x := ((x bmin - x ro) * x invDir)%num).
  set (t1y := ((y bmin - y ro) * y invDir)%num).
  set (t1z := ((z bmin - z ro) * z invDir)%num).
  set (t2x := ((x bmax - x ro) * x invDir)%num).
  set (t2y := ((y bmax - y ro) * y invDir)%num).
  set (t2z := ((z bmax - z ro) * z invDir)%num).
  set (a := fmin t1x t2x). set (b := fmin t1y t2y). set (c := fmin t1z t2z).
  set (d := fmax t1x t2x). set (e := fmax t1y t2y). set (f := fmax t1z t2z).
  destruct (fmax_upper (fmax a b) c) as [Hab Hc].
  destruct (fmax_upper a b) as [Ha Hb].
  destruct (fmin_lower (fmin d e) f) as [Hde Hf].
  destruct (fmin_lower d e) as [Hd He].
  split.
  - intros H. exists (fmax (fmax a b) c).
    pose proof (fleb_trans _ _ _ H Hde) as H1.
    repeat split.
    + apply (fleb_trans _ _ _ Ha Hab).
    + apply (fleb_trans _ _ _ H1 Hd).
    + apply (fleb_trans _ _ _ Hb Hab).
    + apply (fleb_trans _ _ _ H1 He).
    + exact Hc.
    + apply (fleb_trans _ _ _ H Hf).
  - intros (t & (Hat & Htd) & (Hbt & Hte) & (Hct & Htf)).
    apply fleb_trans with t.
    + apply fmax_least; [apply fmax_least|]; assumption.
    + apply fmin_greatest; [apply fmin_greatest|]; assumption.
Qed.

End Slabs.

Lemma intersectAABB_slabs_witness :
  let ro := (mkPushOut (- (1 # 1)) (1 # 2) (1 # 2))%Q in
  let invDir := (mkPushOut (1 # 1) (10 # 1) (10 # 1))%Q in
  let bmin := (mkPushOut 0 0 0)%Q in
  let bmax := (mkPushOut 1 1 1)%Q in
  let t1x := ((x bmin - x ro) * x invDir)%num in
  let t1y := ((y bmin - y ro) * y invDir)%num in
  let t1z := ((z bmin - z ro) * z invDir)%num in
  let t2x := ((x bmax - x ro) * x invDir)%num in
  let t2y := ((y bmax - y ro) * y invDir)%num in
  let t2z := ((z bmax - z ro) * z invDir)%num in
  let tNear := fst (intersectAABB ro invDir bmin bmax) in
  let tFar := snd (intersectAABB ro invDir bmin bmax) in
  (tNear <=? tFar)%num = true
  <-> exists t,
        ((fmin t1x t2x <=? t)%num = true /\ (t <=? fmax t1x t2x)%num = true)
        /\ ((fmin t1y t2y <=? t)%num = true /\ (t <=? fmax t1y t2y)%num = true)
        /\ ((fmin t1z t2z <=? t)%num = true /\ (t <=? fmax t1z t2z)%num = true).
Proof.
  exact (intersectAABB_slabs (mkPushOut (- (1 # 1)) (1 # 2) (1 # 2))%Q
           (mkPushOut (1 # 1) (10 # 1) (10 # 1))%Q (mkPushOut 0 0 0)%Q
           (mkPushOut 1 1 1)%Q).
Defined.

Section Vertical.
Context {F : Type} {N : Number F}.



End Vertical.

